(** * lango maintenance scripts: [scripts/sync_requirements.py] and
    [scripts/sync_version.py]

    A shallow embedding of the two scripts and of the part of Python's
    [str] and [re] libraries they call, followed by the properties of the
    specification.

    Text is a list of Unicode code points, as a Python [str] is.  Regular
    expressions are values of a small syntax tree that covers the constructs
    the three patterns of the scripts use; they are run by a backtracking
    matcher with the priorities of Python's engine (greedy before shorter,
    lazy before longer, leftmost start first). *)

From Stdlib Require Import String Ascii List NArith Bool Arith Lia.
Import ListNotations.

Set Implicit Arguments.

(* ================================================================= *)
(** ** Text *)

Module Text.

Local Open Scope N_scope.

Definition char := N.
Definition text := list char.

(** A literal of the source, as code points. *)
Definition lit (s : string) : text :=
  List.map N_of_ascii (list_ascii_of_string s).

Definition NL : char := 10.
Definition CR : char := 13.
Definition SP : char := 32.
Definition DQ : char := 34.
Definition HASH : char := 35.
Definition COMMA : char := 44.
Definition DASH : char := 45.
Definition BSL : char := 92.
Definition RBRACKET : char := 93.

Definition between (lo hi c : char) : bool := (lo <=? c) && (c <=? hi).

(** [str.isspace] on one code point; [str.strip()] and the class [\s] of a
    [str] pattern use the same set. *)
Definition isspace (c : char) : bool :=
  between 9 13 c || between 28 32 c || (c =? 133) || (c =? 160)
  || (c =? 5760) || between 8192 8202 c || (c =? 8232) || (c =? 8233)
  || (c =? 8239) || (c =? 8287) || (c =? 12288).

(** The line boundaries of [str.splitlines]. *)
Definition is_linebreak (c : char) : bool :=
  between 10 13 c || between 28 30 c || (c =? 133) || (c =? 8232)
  || (c =? 8233).

Fixpoint text_eqb (a b : text) : bool :=
  match a, b with
  | [], [] => true
  | x :: a', y :: b' => (x =? y) && text_eqb a' b'
  | _, _ => false
  end.

Fixpoint startswith (p s : text) : bool :=
  match p, s with
  | [], _ => true
  | x :: p', y :: s' => (x =? y) && startswith p' s'
  | _ :: _, [] => false
  end.

Fixpoint dropwhile (f : char -> bool) (s : text) : text :=
  match s with
  | [] => []
  | c :: s' => if f c then dropwhile f s' else s
  end.

Definition lstrip (s : text) : text := dropwhile isspace s.
Definition rstrip (s : text) : text := rev (dropwhile isspace (rev s)).
(** [str.strip()] *)
Definition strip (s : text) : text := rstrip (lstrip s).

(** [str.splitlines()]: [cur] is the line being read, reversed.  A carriage
    return followed by a line feed is one boundary; a final boundary opens
    no empty last line. *)
Fixpoint splitlines_from (cur : text) (s : text) : list text :=
  match s with
  | [] => match cur with [] => [] | _ => [rev cur] end
  | c :: rest =>
      if is_linebreak c then
        rev cur ::
          match rest with
          | d :: rest' =>
              if (c =? CR) && (d =? NL) then splitlines_from [] rest'
              else splitlines_from [] rest
          | [] => splitlines_from [] rest
          end
      else splitlines_from (c :: cur) rest
  end.

Definition splitlines (s : text) : list text := splitlines_from [] s.

(** [sep.join(parts)] *)
Fixpoint join (sep : text) (parts : list text) : text :=
  match parts with
  | [] => []
  | [x] => x
  | x :: rest => x ++ sep ++ join sep rest
  end.

(** What a text-mode read returns for the stored characters: universal
    newlines turn a carriage return, alone or before a line feed, into one
    line feed. *)
Fixpoint universal_newlines (s : text) : text :=
  match s with
  | [] => []
  | c :: rest =>
      if c =? CR then
        NL :: match rest with
              | d :: rest' =>
                  if d =? NL then universal_newlines rest'
                  else universal_newlines rest
              | [] => []
              end
      else c :: universal_newlines rest
  end.

End Text.
Export Text.

(* ================================================================= *)
(** ** The fragment of Python's [re] the scripts use *)

Module Re.

Local Open Scope N_scope.

(** Sets of one character. *)
Inductive cset :=
| CsSpace               (* \s *)
| CsNot (c : char)      (* [^c] *)
| CsDot                 (* .  without DOTALL: anything but a line feed *)
| CsAny.                (* .  under DOTALL *)

Definition in_cset (cs : cset) (c : char) : bool :=
  match cs with
  | CsSpace => isspace c
  | CsNot d => negb (c =? d)
  | CsDot => negb (c =? NL)
  | CsAny => true
  end.

(** Patterns.  [RBol] and [REol] are [^] and [$] under MULTILINE, which is
    how both anchored patterns of the scripts are compiled. *)
Inductive regex :=
| RLit (s : text)             (* a literal string *)
| RStar (cs : cset)           (* cs*   greedy *)
| RPlus (cs : cset)           (* cs+   greedy *)
| RLazy (cs : cset)           (* cs*?  lazy *)
| RBol                        (* ^ *)
| REol                        (* $ *)
| RGroup (n : nat) (r : regex) (* capturing group number n *)
| RSeq (r1 r2 : regex).

Declare Scope regex_scope.
Delimit Scope regex_scope with re.
Bind Scope regex_scope with regex.
Infix "+++" := RSeq (at level 60, right associativity) : regex_scope.

(** Number of capturing groups, [Pattern.groups]. *)
Fixpoint ngroups (r : regex) : nat :=
  match r with
  | RGroup _ r' => S (ngroups r')
  | RSeq r1 r2 => (ngroups r1 + ngroups r2)%nat
  | _ => O
  end.

(** A position in the subject: the characters before it, nearest first,
    the characters from it on, and the groups captured so far. *)
Record mstate := MState {
  before : text;
  after : text;
  caps : list (nat * text)
}.

Fixpoint lookup (n : nat) (l : list (nat * text)) : option text :=
  match l with
  | [] => None
  | (m, t) :: l' => if Nat.eqb n m then Some t else lookup n l'
  end.

(** [Match.group(n)], with the empty string for a group that took no part,
    as template expansion reads it. *)
Definition group (n : nat) (st : mstate) : text :=
  match lookup n (caps st) with Some t => t | None => [] end.

(** The text between a start position, given by what follows it, and a
    later position. *)
Definition span (aft : text) (st : mstate) : text :=
  firstn (length aft - length (after st)) aft.

Definition set_cap (n : nat) (aft : text) (st : mstate) : mstate :=
  MState (before st) (after st) ((n, span aft st) :: caps st).

Fixpoint eat (s : text) (bef aft : text) (cp : list (nat * text))
  : list mstate :=
  match s with
  | [] => [MState bef aft cp]
  | c :: s' =>
      match aft with
      | d :: aft' => if c =? d then eat s' (d :: bef) aft' cp else []
      | [] => []
      end
  end.

(** All ways to take characters of [cs], the longest first. *)
Fixpoint greedy (cs : cset) (bef aft : text) (cp : list (nat * text))
  : list mstate :=
  match aft with
  | c :: aft' =>
      if in_cset cs c
      then greedy cs (c :: bef) aft' cp ++ [MState bef aft cp]
      else [MState bef aft cp]
  | [] => [MState bef [] cp]
  end.

(** All ways to take characters of [cs], the shortest first. *)
Fixpoint lazy (cs : cset) (bef aft : text) (cp : list (nat * text))
  : list mstate :=
  MState bef aft cp ::
  match aft with
  | c :: aft' => if in_cset cs c then lazy cs (c :: bef) aft' cp else []
  | [] => []
  end.

Definition at_bol (st : mstate) : bool :=
  match before st with [] => true | c :: _ => c =? NL end.

Definition at_eol (st : mstate) : bool :=
  match after st with [] => true | c :: _ => c =? NL end.

(** The positions a pattern can end at from [st], in the order the
    backtracking engine tries them: the engine's answer is the first. *)
Fixpoint rmatch (r : regex) (st : mstate) : list mstate :=
  match r with
  | RLit s => eat s (before st) (after st) (caps st)
  | RStar cs => greedy cs (before st) (after st) (caps st)
  | RPlus cs =>
      match after st with
      | c :: aft' =>
          if in_cset cs c then greedy cs (c :: before st) aft' (caps st)
          else []
      | [] => []
      end
  | RLazy cs => lazy cs (before st) (after st) (caps st)
  | RBol => if at_bol st then [st] else []
  | REol => if at_eol st then [st] else []
  | RGroup n r' => List.map (set_cap n (after st)) (rmatch r' st)
  | RSeq r1 r2 => flat_map (rmatch r2) (rmatch r1 st)
  end.

(** One attempt at one position.  Group 0 is the whole match.  With
    [must_advance] an empty match is refused and the engine backtracks
    into the next alternative; [re.sub] sets it right after an empty
    match. *)
Definition match_here (r : regex) (must_advance : bool) (bef aft : text)
  : option mstate :=
  hd_error
    (filter (fun st => negb (must_advance && (length (after st) =? length aft)%nat))
       (List.map (set_cap 0%nat aft) (rmatch r (MState bef aft [])))).

(** [re.search]: the leftmost position with a match, the end of the text
    included. *)
Fixpoint search_from (r : regex) (bef aft : text) : option mstate :=
  match match_here r false bef aft with
  | Some st => Some st
  | None =>
      match aft with
      | c :: aft' => search_from r (c :: bef) aft'
      | [] => None
      end
  end.

Definition search (r : regex) (s : text) : option mstate :=
  search_from r [] s.

(** *** Replacement templates *)

Inductive titem :=
| TChar (c : char)
| TGroup (n : nat).

Definition isdigit (c : char) : bool := between 48 57 c.
Definition isoctdigit (c : char) : bool := between 48 55 c.
Definition isasciiletter (c : char) : bool :=
  between 65 90 c || between 97 122 c.
Definition digit_val (c : char) : N := c - 48.

Fixpoint decimal (acc : N) (s : text) : option N :=
  match s with
  | [] => Some acc
  | c :: s' => if isdigit c then decimal (acc * 10 + digit_val c) s' else None
  end.

(** The escapes of a template that stand for one character. *)
Definition escape_char (c : char) : option char :=
  if c =? 97 then Some 7          (* \a *)
  else if c =? 98 then Some 8     (* \b *)
  else if c =? 102 then Some 12   (* \f *)
  else if c =? 110 then Some 10   (* \n *)
  else if c =? 114 then Some 13   (* \r *)
  else if c =? 116 then Some 9    (* \t *)
  else if c =? 118 then Some 11   (* \v *)
  else if c =? 92 then Some 92    (* \\ *)
  else None.

Definition addgroup (groups : nat) (i : N) (k : option (list titem))
  : option (list titem) :=
  if (N.of_nat groups <? i) then None
  else match k with
       | Some items => Some (TGroup (N.to_nat i) :: items)
       | None => None
       end.

Definition addchar (c : char) (k : option (list titem))
  : option (list titem) :=
  match k with
  | Some items => Some (TChar c :: items)
  | None => None
  end.

(** [parse_template]: [None] is a raised [re.error] (or [IndexError]).
    [name] is [Some acc] while the name of a [\g<...>] reference is being
    read, [acc] holding it reversed.  The patterns here have no named
    groups, so a name that is not a run of ASCII digits raises (so it is
    from Python 3.12 on; up to 3.11 a name that [int] accepts, with a sign,
    blanks or underscores, was still taken, with a deprecation
    warning). *)
Fixpoint parse_template (groups : nat) (name : option text) (s : text)
  : option (list titem) :=
  match name with
  | Some acc =>
      match s with
      | [] => None
      | c :: rest =>
          if c =? 62 then
            match acc with
            | [] => None
            | _ =>
                match decimal 0 (rev acc) with
                | Some i => addgroup groups i (parse_template groups None rest)
                | None => None
                end
            end
          else parse_template groups (Some (c :: acc)) rest
      end
  | None =>
      match s with
      | [] => Some []
      | c :: rest =>
          if negb (c =? BSL) then addchar c (parse_template groups None rest)
          else
            match rest with
            | [] => None                      (* bad escape, end of pattern *)
            | e :: rest1 =>
                if e =? 103 then              (* \g *)
                  match rest1 with
                  | lt :: rest2 =>
                      if lt =? 60 then parse_template groups (Some []) rest2
                      else None
                  | [] => None
                  end
                else if e =? 48 then          (* \0, \0o, \0oo *)
                  match rest1 with
                  | o1 :: rest2 =>
                      if isoctdigit o1 then
                        match rest2 with
                        | o2 :: rest3 =>
                            if isoctdigit o2 then
                              addchar (N.land (digit_val o1 * 8 + digit_val o2) 255)
                                (parse_template groups None rest3)
                            else addchar (digit_val o1)
                                   (parse_template groups None rest2)
                        | [] => addchar (digit_val o1)
                                  (parse_template groups None rest2)
                        end
                      else addchar 0 (parse_template groups None rest1)
                  | [] => addchar 0 (parse_template groups None rest1)
                  end
                else if isdigit e then        (* \d, \dd, \ooo *)
                  match rest1 with
                  | d2 :: rest2 =>
                      if isdigit d2 then
                        match rest2 with
                        | d3 :: rest3 =>
                            if isoctdigit e && isoctdigit d2 && isoctdigit d3
                            then
                              let v := digit_val e * 64 + digit_val d2 * 8
                                       + digit_val d3 in
                              if 255 <? v then None
                              else addchar v (parse_template groups None rest3)
                            else addgroup groups (digit_val e * 10 + digit_val d2)
                                   (parse_template groups None rest2)
                        | [] => addgroup groups (digit_val e * 10 + digit_val d2)
                                  (parse_template groups None rest2)
                        end
                      else addgroup groups (digit_val e)
                             (parse_template groups None rest1)
                  | [] => addgroup groups (digit_val e)
                            (parse_template groups None rest1)
                  end
                else
                  match escape_char e with
                  | Some x => addchar x (parse_template groups None rest1)
                  | None =>
                      if isasciiletter e then None     (* bad escape *)
                      else addchar BSL
                             (addchar e (parse_template groups None rest1))
                  end
            end
      end
  end.

Definition has_backslash (s : text) : bool := existsb (N.eqb BSL) s.

(** What [re.sub] makes of a string replacement: used as it is when it has
    no backslash, parsed as a template otherwise, before any matching. *)
Definition compile_repl (groups : nat) (template : text)
  : option (list titem) :=
  if has_backslash template then parse_template groups None template
  else Some (List.map TChar template).

Fixpoint expand (items : list titem) (st : mstate) : text :=
  match items with
  | [] => []
  | TChar c :: items' => c :: expand items' st
  | TGroup n :: items' => group n st ++ expand items' st
  end.

(** The loop of [re.sub] with no count: every match, left to right, none
    overlapping another.  [skip] counts the characters of the current match
    still to pass over. *)
Fixpoint sub_loop (r : regex) (items : list titem) (bef : text) (skip : nat)
  (aft : text) : text :=
  match aft with
  | [] =>
      match skip with
      | O => match match_here r false bef [] with
             | Some st => expand items st
             | None => []
             end
      | S _ => []
      end
  | c :: aft' =>
      match skip with
      | S n => sub_loop r items (c :: bef) n aft'
      | O =>
          match match_here r false bef aft with
          | None => c :: sub_loop r items (c :: bef) O aft'
          | Some st =>
              match length (group 0 st) with
              | S n => expand items st ++ sub_loop r items (c :: bef) n aft'
              | O =>
                  expand items st ++
                  match match_here r true bef aft with
                  | Some st2 =>
                      expand items st2 ++
                      sub_loop r items (c :: bef) (pred (length (group 0 st2))) aft'
                  | None => c :: sub_loop r items (c :: bef) O aft'
                  end
              end
          end
      end
  end.

(** [re.sub(pattern, template, s)]; [None] when the template is refused. *)
Definition sub (r : regex) (template : text) (s : text) : option text :=
  match compile_repl (ngroups r) template with
  | Some items => Some (sub_loop r items [] O s)
  | None => None
  end.

End Re.
Export Re.

(* ================================================================= *)
(** ** Files, output streams and exceptions *)

Module Sys.

(** The four files the scripts name, all relative to the repository root. *)
Inductive path :=
| PyprojectToml
| RequirementsTxt
| RequirementsDevTxt
| InitPy.

Definition path_eqb (p q : path) : bool :=
  match p, q with
  | PyprojectToml, PyprojectToml
  | RequirementsTxt, RequirementsTxt
  | RequirementsDevTxt, RequirementsDevTxt
  | InitPy, InitPy => true
  | _, _ => false
  end.

Inductive event :=
| EvRead (p : path)
| EvWrite (p : path) (content : text).

Record world := World {
  files : path -> option text;     (* characters of a file that reads as
                                      text, [None]: no file *)
  stdout : list string;            (* lines printed, oldest first *)
  stderr : list string;
  trace : list event               (* file accesses, oldest first *)
}.

Inductive exn :=
| FileNotFoundError (p : path)
| ReError.

Inductive result (A : Type) :=
| Ok (a : A)
| Raise (e : exn).
Arguments Ok {A} a.
Arguments Raise {A} e.

(** A computation reads and changes the world, and returns or raises. *)
Definition M (A : Type) := world -> result A * world.

Definition ret {A} (a : A) : M A := fun w => (Ok a, w).

Definition bind {A B} (m : M A) (f : A -> M B) : M B :=
  fun w =>
    match m w with
    | (Ok a, w') => f a w'
    | (Raise e, w') => (Raise e, w')
    end.

Definition raise {A} (e : exn) : M A := fun w => (Raise e, w).

Declare Scope monad_scope.
Delimit Scope monad_scope with monad.
Notation "x <- m ;; k" := (bind m (fun x => k))
  (at level 61, m at next level, right associativity) : monad_scope.
Notation "m ;;; k" := (bind m (fun _ => k))
  (at level 61, right associativity) : monad_scope.

Definition update (fs : path -> option text) (p : path) (content : text)
  : path -> option text :=
  fun q => if path_eqb q p then Some content else fs q.

(** [Path.exists] *)
Definition path_exists (p : path) : M bool :=
  fun w => (Ok (match files w p with Some _ => true | None => false end), w).

(** [Path.read_text] *)
Definition read_text (p : path) : M text :=
  fun w =>
    match files w p with
    | Some raw =>
        (Ok (universal_newlines raw),
         World (files w) (stdout w) (stderr w) (trace w ++ [EvRead p]))
    | None => (Raise (FileNotFoundError p), w)
    end.

(** [Path.write_text] *)
Definition write_text (p : path) (content : text) : M unit :=
  fun w =>
    (Ok tt,
     World (update (files w) p content) (stdout w) (stderr w)
       (trace w ++ [EvWrite p content])).

(** [print(msg)] and [print(msg, file=sys.stderr)] *)
Definition print (msg : string) : M unit :=
  fun w => (Ok tt, World (files w) (stdout w ++ [msg]) (stderr w) (trace w)).

Definition eprint (msg : string) : M unit :=
  fun w => (Ok tt, World (files w) (stdout w) (stderr w ++ [msg]) (trace w)).

(** A raised [re.error] *)
Definition of_re {A} (o : option A) : M A :=
  match o with
  | Some a => ret a
  | None => raise ReError
  end.

(** [sys.exit(main())]: the exit code of the process.  An exception that
    nothing catches ends it with code 1 and a traceback on the error
    stream. *)
Definition sys_exit (main : M nat) (w : world) : nat * world :=
  match main w with
  | (Ok code, w') => (code, w')
  | (Raise _, w') =>
      (1%nat, World (files w') (stdout w')
                (stderr w' ++ ["Traceback (most recent call last):"%string])
                (trace w'))
  end.

End Sys.
Export Sys.

Local Open Scope monad_scope.
Local Open Scope regex_scope.

(* ================================================================= *)
(** ** scripts/sync_requirements.py *)

Module SyncRequirements.

Local Open Scope N_scope.

(** [not s], for a string or for a list *)
Definition is_empty {A} (s : list A) : bool :=
  match s with [] => true | _ => false end.

(** The body of the loop of [parse_requirements]: what one line does to
    [deps]. *)
Definition parse_line (deps : list text) (line : text) : list text :=
  let line := strip line in
  if is_empty line || startswith (lit "#") line then deps
  else if startswith (lit "-") line then deps
  else deps ++ [line].

Definition parse_requirements (filepath : path) : M (list text) :=
  e <- path_exists filepath ;;
  if negb e then ret []
  else
    content <- read_text filepath ;;
    ret (fold_left parse_line (splitlines content) []).

Definition format_dependencies (deps : list text) (indent : nat) : text :=
  match deps with
  | [] => []
  | _ =>
      join [NL]
        (fold_left
           (fun lines dep => lines ++ [repeat SP indent ++ [DQ] ++ dep ++ [DQ; COMMA]])
           deps [])
  end.

(** [(label\s*=\s*\[)\s*\n(.*?)(\n\s*\])] under DOTALL, for the label
    [dependencies] or [test]. *)
Definition array_pattern (label : text) : regex :=
  RGroup 1 (RLit label +++ RStar CsSpace +++ RLit (lit "=") +++ RStar CsSpace
            +++ RLit (lit "["))
  +++ RStar CsSpace +++ RLit [NL]
  +++ RGroup 2 (RLazy CsAny)
  +++ RGroup 3 (RLit [NL] +++ RStar CsSpace +++ RLit (lit "]")).

(** [f'\\1\n{deps_str}\n]'] *)
Definition array_replacement (deps_str : text) : text :=
  [BSL; 49; NL] ++ deps_str ++ [NL; RBRACKET].

(** One of the two [if deps:] blocks of [sync_to_pyproject]. *)
Definition update_array (label : text) (deps : list text) (content : text)
  : option text :=
  if negb (is_empty deps) then
    let deps_str := format_dependencies deps 4 in
    Re.sub (array_pattern label) (array_replacement deps_str) content
  else Some content.

Definition sync_to_pyproject
  (pyproject_path requirements_path requirements_dev_path : path) : M bool :=
  content <- read_text pyproject_path ;;
  let original_content := content in
  deps <- parse_requirements requirements_path ;;
  dev_deps <- parse_requirements requirements_dev_path ;;
  content <- of_re (update_array (lit "dependencies") deps content) ;;
  content <- of_re (update_array (lit "test") dev_deps content) ;;
  if negb (text_eqb content original_content) then
    write_text pyproject_path content ;;;
    ret true
  else ret false.

Definition main : M nat :=
  e <- path_exists PyprojectToml ;;
  if negb e then
    eprint "Error: pyproject.toml not found" ;;;
    ret 1%nat
  else
    changed <- sync_to_pyproject PyprojectToml RequirementsTxt RequirementsDevTxt ;;
    if changed then
      print "Synced requirements to pyproject.toml" ;;;
      ret 0%nat
    else
      print "pyproject.toml already in sync" ;;;
      ret 0%nat.

End SyncRequirements.

(* ================================================================= *)
(** ** scripts/sync_version.py *)

Module SyncVersion.

Local Open Scope N_scope.

(** The pattern [^version\s*=\s*Q([^Q]+)Q] under MULTILINE, Q standing
    for the double quote. *)
Definition version_pattern : regex :=
  RBol +++ RLit (lit "version") +++ RStar CsSpace +++ RLit (lit "=")
  +++ RStar CsSpace +++ RLit [DQ] +++ RGroup 1 (RPlus (CsNot DQ))
  +++ RLit [DQ].

Definition get_pyproject_version (pyproject_path : path) : M (option text) :=
  content <- read_text pyproject_path ;;
  ret (match Re.search version_pattern content with
       | Some m => Some (group 1 m)
       | None => None
       end).

(** The pattern [^__version__\s*=\s*Q[^Q]+Q.*$] under MULTILINE. *)
Definition init_pattern : regex :=
  RBol +++ RLit (lit "__version__") +++ RStar CsSpace +++ RLit (lit "=")
  +++ RStar CsSpace +++ RLit [DQ] +++ RPlus (CsNot DQ) +++ RLit [DQ]
  +++ RStar CsDot +++ REol.

(** The f-string [__version__ = Q{version}Q  # modify in pyproject.toml]. *)
Definition init_replacement (version : text) : text :=
  lit "__version__ = " ++ [DQ] ++ version ++ [DQ]
  ++ lit "  # modify in pyproject.toml".

(** [if not version]: [None] and the empty string both count as no
    version. *)
Definition truthy (version : option text) : option text :=
  match version with
  | Some [] => None
  | Some v => Some v
  | None => None
  end.

Definition sync_version (pyproject_path init_path : path) : M bool :=
  version <- get_pyproject_version pyproject_path ;;
  match truthy version with
  | None =>
      eprint "Error: Could not find version in pyproject.toml" ;;;
      ret false
  | Some version =>
      content <- read_text init_path ;;
      let original := content in
      content <- of_re (Re.sub init_pattern (init_replacement version) content) ;;
      if negb (text_eqb content original) then
        write_text init_path content ;;;
        ret true
      else ret false
  end.

Definition main : M nat :=
  e <- path_exists PyprojectToml ;;
  if negb e then
    eprint "Error: pyproject.toml not found" ;;;
    ret 1%nat
  else
    e <- path_exists InitPy ;;
    if negb e then
      eprint "Error: src/lango/__init__.py not found" ;;;
      ret 1%nat
    else
      changed <- sync_version PyprojectToml InitPy ;;
      if changed then
        print "Synced __version__ from pyproject.toml" ;;;
        ret 0%nat
      else
        print "__version__ already in sync" ;;;
        ret 0%nat.

End SyncVersion.

(* ================================================================= *)
(** ** Notions the properties are stated with *)

Module Requirements.
Import SyncRequirements.

(** White space only. *)
Definition spaces (ws : text) : bool := forallb isspace ws.

(** A world with the given files and nothing printed or accessed yet. *)
Definition world_of (pyproject requirements requirements_dev init : option text)
  : world :=
  World (fun p => match p with
                  | PyprojectToml => pyproject
                  | RequirementsTxt => requirements
                  | RequirementsDevTxt => requirements_dev
                  | InitPy => init
                  end) [] [] [].

(** The lines the specification keeps, said in its words: after trimming,
    not empty and starting neither with the comment marker nor with the
    flag marker. *)
Definition kept (line : text) : bool :=
  negb (is_empty line) && negb (startswith (lit "#") line)
  && negb (startswith (lit "-") line).

Definition entries (content : text) : list text :=
  filter kept (List.map strip (splitlines content)).

(** The entries of a file that may be absent. *)
Definition entries_of (file : option text) : list text :=
  match file with
  | Some raw => entries (universal_newlines raw)
  | None => []
  end.

Definition after_read (p : path) (w : world) : world :=
  World (files w) (stdout w) (stderr w) (trace w ++ [EvRead p]).

(** The world after [parse_requirements]: a file that exists was read. *)
Definition after_parse (p : path) (w : world) : world :=
  match files w p with
  | Some _ => after_read p w
  | None => w
  end.


(** What [sync_to_pyproject] computes from the text it read and the two
    entry lists; [None] when [re.sub] raises. *)
Definition synced_content (content : text) (deps dev_deps : list text)
  : option text :=
  match update_array (lit "dependencies") deps content with
  | Some c => update_array (lit "test") dev_deps c
  | None => None
  end.

(** The world once [sync_to_pyproject] has read its three files. *)
Definition after_reads (pp rp dp : path) (w : world) : world :=
  after_parse dp (after_parse rp (after_read pp w)).

Definition after_write (p : path) (content : text) (w : world) : world :=
  World (update (files w) p content) (stdout w) (stderr w)
    (trace w ++ [EvWrite p content]).

Definition after_eprint (msg : string) (w : world) : world :=
  World (files w) (stdout w) (stderr w ++ [msg]) (trace w).

Definition after_print (msg : string) (w : world) : world :=
  World (files w) (stdout w ++ [msg]) (stderr w) (trace w).

(** The file accesses made between two worlds, and the writes among them. *)
Definition new_events (w w' : world) : list event :=
  skipn (length (trace w)) (trace w').

Definition is_write (e : event) : bool :=
  match e with EvWrite _ _ => true | EvRead _ => false end.

Definition writes (w w' : world) : list event :=
  filter is_write (new_events w w').

(** The write-back policy, for a run from [w] that computed [computed]
    from the [original] text of [target] and ended in [out]. *)
Definition write_back (target : path) (original computed : text) (w : world)
  (out : result bool * world) : Prop :=
  (fst out = Ok true <-> computed <> original)
  /\ (fst out = Ok false <-> computed = original)
  /\ (computed <> original ->
      files (snd out) = update (files w) target computed
      /\ writes w (snd out) = [EvWrite target computed])
  /\ (computed = original ->
      files (snd out) = files w /\ writes w (snd out) = []).

(** A region the array pattern can match: the label, an equals sign, an
    opening bracket and a line break, any text, and a line break before
    the closing bracket, with white space allowed around the equals sign
    and the brackets.  [head] is the part the first group captures. *)
Definition array_region (label head region : text) : Prop :=
  exists ws1 ws2 ws3 body ws4,
    head = label ++ ws1 ++ lit "=" ++ ws2 ++ lit "["
    /\ region = head ++ ws3 ++ [NL] ++ body ++ [NL] ++ ws4 ++ lit "]"
    /\ spaces ws1 = true /\ spaces ws2 = true
    /\ spaces ws3 = true /\ spaces ws4 = true.

(** The template [re.sub] compiles for an array, from the entry list. *)
Definition array_items (label : text) (deps : list text)
  : option (list titem) :=
  compile_repl (ngroups (array_pattern label))
    (array_replacement (format_dependencies deps 4)).

(** The reading of the specification for a label found more than once:
    the first occurrence is rewritten and the text behind it is left as it
    is. *)
Definition first_occurrence_only (label : text) (deps : list text)
  (content : text) : Prop :=
  forall st items,
    Re.search (array_pattern label) content = Some st ->
    array_items label deps = Some items ->
    exists pre,
      content = pre ++ group 0 st ++ after st
      /\ update_array label deps content =
         Some (pre ++ expand items st ++ after st).

End Requirements.
Export Requirements.

(** The documents of the examples of the specification. *)
Module Examples.

Definition quoted (s : text) : text := [DQ] ++ s ++ [DQ].

Definition array (label : text) (entries : list text) : text :=
  label ++ lit " = [" ++ [NL]
  ++ concat (List.map (fun e => lit "    " ++ quoted e ++ [COMMA; NL]) entries)
  ++ lit "]" ++ [NL].

(** A configuration document with a version and one old dependency. *)
Definition pyproject_old : text :=
  lit "version = " ++ quoted (lit "1.2.3") ++ [NL]
  ++ array (lit "dependencies") [lit "old==1"].

Definition pyproject_new : text :=
  lit "version = " ++ quoted (lit "1.2.3") ++ [NL]
  ++ array (lit "dependencies") [lit "new==2"].

Definition requirements_new : text := lit "new==2" ++ [NL].

Definition init_old : text :=
  lit "__version__ = " ++ quoted (lit "1.0.0") ++ lit "  # old comment" ++ [NL].

Definition init_new : text :=
  lit "__version__ = " ++ quoted (lit "1.2.3")
  ++ lit "  # modify in pyproject.toml" ++ [NL].

(** Configuration documents whose version has an empty value and a
    single-quoted value. *)
Definition pyproject_empty_version : text :=
  lit "name = x" ++ [NL] ++ lit "version = " ++ [DQ; DQ] ++ [NL].

Definition pyproject_single_quoted : text := lit "version = '1.0'".

(** A configuration document with the [dependencies] array twice. *)
Definition two_arrays : text :=
  array (lit "dependencies") [lit "old==1"] ++ lit "x" ++ [NL]
  ++ array (lit "dependencies") [lit "old==2"].

Definition two_arrays_synced : text :=
  array (lit "dependencies") [lit "new==2"] ++ lit "x" ++ [NL]
  ++ array (lit "dependencies") [lit "new==2"].

(** A requirements file whose one entry holds a backslash, the letter n
    and a closing bracket, and the configuration document after one and
    after two runs on it. *)
Definition requirements_escape : text := lit "a\n]" ++ [NL].

Definition escape_once : text :=
  lit "dependencies = [" ++ [NL] ++ lit "    " ++ [DQ] ++ lit "a" ++ [NL]
  ++ lit "]" ++ [DQ; COMMA; NL] ++ lit "]" ++ [NL].

Definition escape_twice : text :=
  lit "dependencies = [" ++ [NL] ++ lit "    " ++ [DQ] ++ lit "a" ++ [NL]
  ++ lit "]" ++ [DQ; COMMA; NL] ++ lit "]" ++ [DQ; COMMA; NL] ++ lit "]"
  ++ [NL].

Definition escape_world : world :=
  world_of (Some (array (lit "dependencies") [lit "old==1"]))
    (Some requirements_escape) None None.

(** A requirements file with a Windows path. *)
Definition requirements_path : text :=
  lit "pkg @ file:///C:\Users\pkg.whl" ++ [NL].

(** A configuration document whose version holds an escaped backslash, an
    initializer with the assignment twice, and that initializer with the
    version as the template expands it. *)
Definition pyproject_backslash : text :=
  lit "version = " ++ quoted (lit "1\\2") ++ [NL].

Definition init_twice : text :=
  lit "__version__ = " ++ quoted (lit "1.0.0") ++ [NL]
  ++ lit "__version__ = " ++ quoted (lit "0.9") ++ [NL].

Definition init_twice_expanded : text :=
  lit "__version__ = " ++ quoted (lit "1\2")
  ++ lit "  # modify in pyproject.toml" ++ [NL]
  ++ lit "__version__ = " ++ quoted (lit "1\2")
  ++ lit "  # modify in pyproject.toml" ++ [NL].

Definition backslash_world : world :=
  world_of (Some pyproject_backslash) None None (Some init_twice).

(** The same with a version the template refuses: a backslash before a
    digit reads as a reference to a group the pattern does not have. *)
Definition pyproject_group_ref : text :=
  lit "version = " ++ quoted (lit "1\2") ++ [NL].

Definition group_ref_world : world :=
  world_of (Some pyproject_group_ref) None None (Some init_twice).

Definition example_world : world :=
  world_of (Some pyproject_old) (Some requirements_new) None (Some init_old).

End Examples.

Module Version.
Import SyncVersion.

(** The version [get_pyproject_version] finds in a text. *)
Definition extract_version (content : text) : option text :=
  match Re.search version_pattern content with
  | Some m => Some (group 1 m)
  | None => None
  end.

Definition not_found_msg : string :=
  "Error: Could not find version in pyproject.toml".

(** A position at the start of a line: nothing before it, or a line feed
    just before it. *)
Definition line_start (pre : text) : Prop :=
  pre = [] \/ exists p, pre = p ++ [NL].

(** The text has, at the start of a line, the word [version], an equals
    sign and the double-quoted value [v], with any white space around the
    equals sign. *)
Definition version_assignment (content v : text) : Prop :=
  exists pre ws1 ws2 post,
    content = pre ++ lit "version" ++ ws1 ++ lit "=" ++ ws2
              ++ [DQ] ++ v ++ [DQ] ++ post
    /\ line_start pre /\ spaces ws1 = true /\ spaces ws2 = true.

(** A value the pattern accepts: not empty, and without a double quote. *)
Definition usable (v : text) : Prop := v <> [] /\ ~ In DQ v.

(** The parts of a text that begin at the start of a line, each running
    to the end of the text; [here] tells whether the text itself does. *)
Fixpoint line_suffixes (here : bool) (s : text) : list text :=
  (if here then [s] else []) ++
  match s with
  | [] => []
  | c :: s' => line_suffixes (N.eqb c NL) s'
  end.

(** [P] holds of the text at every start of a line. *)
Definition at_line_starts (P : text -> Prop) (content : text) : Prop :=
  Forall P (line_suffixes true content).

(** From here on the text reads [version], an equals sign and a value that
    is the empty string in double quotes, or that opens with a single
    quote. *)
Definition empty_or_single_quoted (aft : text) : Prop :=
  exists ws1 ws2 tail,
    aft = lit "version" ++ ws1 ++ lit "=" ++ ws2 ++ tail
    /\ spaces ws1 = true /\ spaces ws2 = true
    /\ (startswith [DQ; DQ] tail = true \/ startswith (lit "'") tail = true).

(** A line start that gives no version: the line does not begin with the
    word, or its value is empty or single-quoted. *)
Definition no_version_here (aft : text) : Prop :=
  startswith (lit "version") aft = false \/ empty_or_single_quoted aft.

(** No line gives a usable version. *)
Definition no_version (content : text) : Prop :=
  forall v, usable v -> ~ version_assignment content v.

(** A line that assigns the version in the initializer: the word
    [__version__], an equals sign and a usable value in double quotes, with
    white space allowed around the equals sign and any text behind the
    closing quote. *)
Definition version_line (l : text) : Prop :=
  exists ws1 ws2 q trailing,
    l = lit "__version__" ++ ws1 ++ lit "=" ++ ws2
        ++ [DQ] ++ q ++ [DQ] ++ trailing
    /\ spaces ws1 = true /\ spaces ws2 = true /\ usable q.

(** The same with any quoted string, the empty one included: the form as
    the specification words it. *)
Definition quoted_line (l : text) : Prop :=
  exists ws1 ws2 q trailing,
    l = lit "__version__" ++ ws1 ++ lit "=" ++ ws2
        ++ [DQ] ++ q ++ [DQ] ++ trailing
    /\ spaces ws1 = true /\ spaces ws2 = true /\ ~ In DQ q.

(** The specification, for a document of one such line: the line is
    exchanged for the canonical line. *)
Definition every_quoted_line_replaced : Prop :=
  forall v l,
    quoted_line l -> ~ In NL l ->
    Re.sub init_pattern (init_replacement v) l = Some (init_replacement v).

(** A line that does not begin with the word. *)
Definition plain_line (l : text) : Prop :=
  startswith (lit "__version__") l = false.

(** [Synced v s out]: [s] is made of lines, each a plain line or a version
    line, and [out] is [s] with each version line exchanged for the
    canonical line of version [v] and each plain line kept. *)
Inductive Synced (v : text) : text -> text -> Prop :=
| SyncedLastPlain l :
    ~ In NL l -> plain_line l -> Synced v l l
| SyncedLastVersion l :
    ~ In NL l -> version_line l -> Synced v l (init_replacement v)
| SyncedPlain l rest out :
    ~ In NL l -> plain_line l -> Synced v rest out ->
    Synced v (l ++ NL :: rest) (l ++ NL :: out)
| SyncedVersion l rest out :
    ~ In NL l -> version_line l -> Synced v rest out ->
    Synced v (l ++ NL :: rest) (init_replacement v ++ NL :: out).

(** A text of plain lines only. *)
Inductive Plain : text -> Prop :=
| PlainLast l : ~ In NL l -> plain_line l -> Plain l
| PlainMore l rest :
    ~ In NL l -> plain_line l -> Plain rest -> Plain (l ++ NL :: rest).

(** Where the attempt of a pattern stops taking characters of a set: at
    the end of the text or before a character outside the set. *)
Definition stops (cs : cset) (a : text) : Prop :=
  match a with
  | [] => True
  | c :: _ => in_cset cs c = false
  end.

End Version.
Export Version.


(* ================================================================= *)
(** ** What a pattern matches, without the order of the attempts *)

Module ReSpec.

Definition all_in (cs : cset) (w : text) : bool := forallb (in_cset cs) w.

Inductive Matches : regex -> mstate -> mstate -> Prop :=
| MLit s bef aft cp :
    Matches (RLit s) (MState bef (s ++ aft) cp) (MState (rev s ++ bef) aft cp)
| MStar cs w bef aft cp :
    all_in cs w = true ->
    Matches (RStar cs) (MState bef (w ++ aft) cp) (MState (rev w ++ bef) aft cp)
| MPlus cs w bef aft cp :
    w <> [] -> all_in cs w = true ->
    Matches (RPlus cs) (MState bef (w ++ aft) cp) (MState (rev w ++ bef) aft cp)
| MLazy cs w bef aft cp :
    all_in cs w = true ->
    Matches (RLazy cs) (MState bef (w ++ aft) cp) (MState (rev w ++ bef) aft cp)
| MBol st : at_bol st = true -> Matches RBol st st
| MEol st : at_eol st = true -> Matches REol st st
| MGroup n r st st' :
    Matches r st st' -> Matches (RGroup n r) st (set_cap n (after st) st')
| MSeq r1 r2 st st' st'' :
    Matches r1 st st' -> Matches r2 st' st'' -> Matches (RSeq r1 r2) st st''.

(** Patterns without [^] and [$]: what they match does not depend on
    what comes before the position. *)
Fixpoint anchor_free (r : regex) : bool :=
  match r with
  | RBol | REol => false
  | RGroup _ r' => anchor_free r'
  | RSeq r1 r2 => anchor_free r1 && anchor_free r2
  | _ => true
  end.

(** Two positions with the same text ahead and the same captures. *)
Definition same_ahead (st1 st2 : mstate) : Prop :=
  after st1 = after st2 /\ caps st1 = caps st2.

(** Two outcomes of an attempt that agree up to what lies behind. *)
Inductive same_outcome : option mstate -> option mstate -> Prop :=
| SameNone : same_outcome None None
| SameSome st1 st2 : same_ahead st1 st2 -> same_outcome (Some st1) (Some st2).

End ReSpec.
Export ReSpec.

(* ================================================================= *)
(** ** Notions for the entry points *)

Module Entry.

(** The world after an exception that nothing caught. *)
Definition after_traceback (w : world) : world :=
  World (files w) (stdout w)
    (stderr w ++ ["Traceback (most recent call last):"%string]) (trace w).

(** The write events among a list of events, and their targets. *)
Definition write_target (e : event) : option path :=
  match e with
  | EvWrite p _ => Some p
  | EvRead _ => None
  end.

End Entry.
Export Entry.

(* ================================================================= *)
(** ** Notions for entries and their lines *)

Module EntryLines.
Import SyncRequirements.

(** The line [format_dependencies] writes for one entry. *)
Definition entry_line (indent : nat) (dep : text) : text :=
  repeat SP indent ++ [DQ] ++ dep ++ [DQ; COMMA].

(** No character that [str.splitlines] breaks a line at. *)
Definition unbroken (s : text) : bool :=
  forallb (fun c => negb (is_linebreak c)) s.

(** No carriage return. *)
Definition no_cr (s : text) : bool :=
  forallb (fun c => negb (N.eqb c CR)) s.

(** What an entry of a requirements file is: not empty, trimmed, without
    line break, and starting neither with [#] nor with [-]. *)
Definition is_entry (e : text) : Prop :=
  kept e = true /\ strip e = e /\ unbroken e = true.

End EntryLines.
Export EntryLines.

(* ================================================================= *)
(** ** Notions for documents without the array, and for regions *)

Module Regions.
Import SyncRequirements SyncVersion.

(** No part of the document is a region of the array of [label]. *)
Definition no_array (label content : text) : Prop :=
  forall pre head region post,
    content = pre ++ region ++ post -> ~ array_region label head region.

(** [Kept R bef s out]: [out] is [s] with some parts, one after the
    other, each exchanged for another text, and every character outside
    them kept in place.  [R] relates the text before a part (the nearest
    character first), the part, what it is exchanged for and the text
    behind it; [bef] is the text before [s]. *)
Inductive Kept (R : text -> text -> text -> text -> Prop)
  : text -> text -> text -> Prop :=
| KeptSame bef s : Kept R bef s s
| KeptRegion bef keep region replacement rest out :
    R (rev keep ++ bef) region replacement rest ->
    Kept R (rev region ++ rev keep ++ bef) rest out ->
    Kept R bef (keep ++ region ++ rest) (keep ++ replacement ++ out).

(** What the substitution of the initializer exchanges: a part that
    starts at the start of a line, reads the word, an equals sign, a
    quoted string that is not empty and the rest of the line the closing
    quote is on, up to the end of that line.  For a version without a
    backslash it is exchanged for the canonical line. *)
Definition version_region (v : text) (bef region replacement rest : text)
  : Prop :=
  match bef with [] => True | c :: _ => c = NL end
  /\ (exists ws1 ws2 q trailing,
        region = lit "__version__" ++ ws1 ++ lit "=" ++ ws2
                 ++ [DQ] ++ q ++ [DQ] ++ trailing
        /\ spaces ws1 = true /\ spaces ws2 = true /\ usable q
        /\ ~ In NL trailing)
  /\ match rest with [] => True | c :: _ => c = NL end
  /\ (has_backslash v = false -> replacement = init_replacement v).

End Regions.
Export Regions.

(* ================================================================= *)
(** ** Notions for running the requirements synchronizer again *)

Module Labels.
Import SyncRequirements.

(** The characters the head of an array has between and behind the label
    and the bracket: white space, the equals sign and the opening
    bracket. *)
Definition sep (c : char) : bool :=
  isspace c || N.eqb c 61 || N.eqb c 91.

(** A character that can stand in a label: none of these, and no closing
    bracket. *)
Definition label_char (c : char) : bool :=
  negb (sep c) && negb (N.eqb c RBRACKET).

(** A label the pattern of an array finds only where it is written: not
    empty, and made of such characters. *)
Definition label_ok (label : text) : Prop :=
  label <> [] /\ forallb label_char label = true.

(** Neither label ends with the other. *)
Definition unrelated (m l : text) : Prop :=
  forall k, k <> [] -> m <> k ++ l /\ l <> k ++ m.

(** An entry that the replacement template takes as it is and that stays
    on its line: no backslash and no line feed. *)
Definition plain_entry (e : text) : Prop :=
  has_backslash e = false /\ ~ In NL e.

(** The part of the pattern of an array that closes it: a line feed,
    white space and the closing bracket, as group 3. *)
Definition closing : regex :=
  RGroup 3 (RLit [NL] +++ RStar CsSpace +++ RLit (lit "]")).

(** The part of the pattern behind the head. *)
Definition tail_pattern : regex :=
  RStar CsSpace +++ RLit [NL] +++ RGroup 2 (RLazy CsAny) +++ closing.

(** A text that begins as an entry line does: four blanks and a double
    quote. *)
Definition starts_entry (s : text) : Prop :=
  exists s0, s = SP :: SP :: SP :: SP :: DQ :: s0.

(** [canonical label F x]: wherever the pattern of the array of [label]
    matches in [x], what it matches is a head, a line feed, the text [F],
    a line feed and the closing bracket, and nothing else. *)
Definition canonical (label F x : text) : Prop :=
  forall a b st,
    x = a ++ b ->
    match_here (array_pattern label) false [] b = Some st ->
    group 0 st = group 1 st ++ NL :: F ++ [NL; RBRACKET].

End Labels.
Export Labels.

(* ================================================================= *)
(** ** Notions for what the substitutions exchange *)

Module Exchange.
Import SyncRequirements.

(** [occurs part s]: the text [part] stands somewhere in [s]. *)
Definition occurs (part s : text) : Prop :=
  exists pre post, s = pre ++ part ++ post.

(** [Exchanged label items s out]: what the substitution for the array of
    [label] makes of [s], said with the search of the pattern alone.
    Where the pattern has no match the text stays as it is.  Where it
    has one, the first match is exchanged for the expansion of the
    template at that match, the text before the match stays as it is,
    and the text behind the match is treated in the same way, as a text
    of its own. *)
Inductive Exchanged (label : text) (items : list titem)
  : text -> text -> Prop :=
| ExchangedNone s :
    Re.search (array_pattern label) s = None ->
    Exchanged label items s s
| ExchangedMatch s st pre out :
    Re.search (array_pattern label) s = Some st ->
    s = pre ++ group 0 st ++ after st ->
    Exchanged label items (after st) out ->
    Exchanged label items s (pre ++ expand items st ++ out).

(** [Outside label part s]: the text [part] stands in [s] outside every
    match the substitution for the array of [label] exchanges: in a text
    without a match, before the first match, or outside the matches of
    the text behind the first match. *)
Inductive Outside (label part : text) : text -> Prop :=
| OutsideNone s :
    Re.search (array_pattern label) s = None ->
    occurs part s -> Outside label part s
| OutsideBefore s st pre :
    Re.search (array_pattern label) s = Some st ->
    s = pre ++ group 0 st ++ after st ->
    occurs part pre -> Outside label part s
| OutsideBehind s st :
    Re.search (array_pattern label) s = Some st ->
    Outside label part (after st) -> Outside label part s.

(** The text begins with what closes an array: a line feed, white space
    and the closing bracket. *)
Definition closes (s : text) : Prop :=
  exists ws rest, s = [NL] ++ ws ++ lit "]" ++ rest /\ spaces ws = true.

(** The text begins with a region of the array of [label]. *)
Definition begins_region (label s : text) : Prop :=
  exists head region post, s = region ++ post /\ array_region label head region.

(** [matched label pre region post]: what the pattern of the array of
    [label] matches first in the text [pre ++ region ++ post].  The region
    has the shape of the array; no region of the array begins before it;
    and its body is the shortest there is: it ends where for the first
    time a line feed, white space and a closing bracket follow. *)
Definition matched (label pre region post : text) : Prop :=
  (forall a b, pre = a ++ b -> b <> [] ->
     ~ begins_region label (b ++ region ++ post))
  /\ exists ws1 ws2 ws3 body ws4,
       region = (label ++ ws1 ++ lit "=" ++ ws2 ++ lit "[")
                ++ ws3 ++ [NL] ++ body ++ [NL] ++ ws4 ++ lit "]"
       /\ spaces ws1 = true /\ spaces ws2 = true
       /\ spaces ws3 = true /\ spaces ws4 = true
       /\ forall b1 b2, body = b1 ++ b2 -> b2 <> [] ->
            ~ closes (b2 ++ [NL] ++ ws4 ++ lit "]" ++ post).


End Exchange.
Export Exchange.

(** Further documents: configuration files on which an array is lost or
    rewritten although its requirements file has nothing to synchronize,
    and one with another array behind the dependencies. *)
Module MoreExamples.
Import Examples.









(** The [dependencies] array with a [classifiers] array behind it. *)
Definition classifiers_array : text :=
  array (lit "classifiers") [lit "Typing :: Typed"].

Definition pyproject_classifiers : text :=
  array (lit "dependencies") [lit "old==1"] ++ classifiers_array.

Definition pyproject_classifiers_synced : text :=
  array (lit "dependencies") [lit "new==2"] ++ classifiers_array.

End MoreExamples.
(** Notions for what the version synchronizer exchanges. *)
Module Assignments.
Import SyncVersion.

(** A position at the start of a line, given the text before it, the
    nearest character first; and a position at the end of a line, given
    the text behind it. *)
Definition at_line_start (bef : text) : Prop :=
  match bef with [] => True | c :: _ => c = NL end.

Definition at_line_end (rest : text) : Prop :=
  match rest with [] => True | c :: _ => c = NL end.

(** An assignment of the version as the pattern reads it: the word
    [__version__], white space, an equals sign, white space, a string in
    double quotes that is not empty, and the text behind the closing
    quote up to the end of its line.  The white space and the string may
    hold line feeds. *)
Definition assignment (region : text) : Prop :=
  exists ws1 ws2 q trailing,
    region = lit "__version__" ++ ws1 ++ lit "=" ++ ws2
             ++ [DQ] ++ q ++ [DQ] ++ trailing
    /\ spaces ws1 = true /\ spaces ws2 = true /\ usable q
    /\ ~ In NL trailing.

(** The text [s], which comes after [bef], begins with the assignment
    [region] at the start of a line, and [rest] follows at the end of a
    line. *)
Definition assigns (bef s region rest : text) : Prop :=
  at_line_start bef /\ s = region ++ rest
  /\ assignment region /\ at_line_end rest.

(** [Rewritten v bef s out]: reading [s], which comes after [bef], from
    its start, each assignment that begins where the reading stands is
    exchanged for the canonical line of the version [v] and the reading
    goes on behind it; a character where no assignment begins is kept and
    the reading goes on behind the character. *)
Inductive Rewritten (v : text) : text -> text -> text -> Prop :=
| RewrittenEnd bef : Rewritten v bef [] []
| RewrittenAssignment bef s region rest out :
    assigns bef s region rest ->
    Rewritten v (rev region ++ bef) rest out ->
    Rewritten v bef s (init_replacement v ++ out)
| RewrittenKept bef c s out :
    (forall region rest, ~ assigns bef (c :: s) region rest) ->
    Rewritten v (c :: bef) s out ->
    Rewritten v bef (c :: s) (c :: out).

(** A line on which no assignment can begin, whatever follows the line:
    it does not begin with the word; or behind the word and white space
    comes a character other than the equals sign; or behind the equals
    sign and white space comes a character other than the double quote,
    a single quote for one; or the string in double quotes is empty. *)
Definition idle_line (l : text) : Prop :=
  plain_line l
  \/ (exists ws c t,
        l = lit "__version__" ++ ws ++ c :: t
        /\ spaces ws = true /\ isspace c = false /\ c <> 61%N)
  \/ (exists ws1 ws2 c t,
        l = lit "__version__" ++ ws1 ++ lit "=" ++ ws2 ++ c :: t
        /\ spaces ws1 = true /\ spaces ws2 = true
        /\ isspace c = false /\ c <> DQ)
  \/ (exists ws1 ws2 t,
        l = lit "__version__" ++ ws1 ++ lit "=" ++ ws2 ++ [DQ; DQ] ++ t
        /\ spaces ws1 = true /\ spaces ws2 = true).

(** [Lines v s out]: [s] is made of lines, each a version line or an idle
    line, and [out] is [s] with each version line exchanged for the
    canonical line of the version [v] and each idle line kept. *)
Inductive Lines (v : text) : text -> text -> Prop :=
| LinesLastIdle l :
    ~ In NL l -> idle_line l -> Lines v l l
| LinesLastVersion l :
    ~ In NL l -> version_line l -> Lines v l (init_replacement v)
| LinesIdle l rest out :
    ~ In NL l -> idle_line l -> Lines v rest out ->
    Lines v (l ++ NL :: rest) (l ++ NL :: out)
| LinesVersion l rest out :
    ~ In NL l -> version_line l -> Lines v rest out ->
    Lines v (l ++ NL :: rest) (init_replacement v ++ NL :: out).

End Assignments.
Export Assignments.
Unset Implicit Arguments.

(* ================================================================= *)
(** ** Facts about text *)

Section TextFacts.

Local Open Scope N_scope.

Lemma text_eqb_eq (a b : text) : text_eqb a b = true <-> a = b.
Proof.
  revert b; induction a as [|x a IH]; intros [|y b]; simpl;
    try (split; [discriminate | congruence]); try tauto.
  rewrite andb_true_iff, N.eqb_eq, IH.
  split; [intros [-> ->]; reflexivity | intros [= -> ->]; auto].
Qed.

Lemma text_eqb_refl (a : text) : text_eqb a a = true.
Proof. apply text_eqb_eq; reflexivity. Qed.

Lemma text_eqb_neq (a b : text) : text_eqb a b = false <-> a <> b.
Proof.
  rewrite <- text_eqb_eq. destruct (text_eqb a b); split; congruence.
Qed.

Lemma startswith_app (p s : text) : startswith p (p ++ s) = true.
Proof. induction p; simpl; [|rewrite N.eqb_refl]; auto. Qed.

Lemma startswith_iff (p s : text) :
  startswith p s = true <-> exists r, s = p ++ r.
Proof.
  revert s; induction p as [|x p IH]; intros s; simpl.
  - split; eauto.
  - destruct s as [|y s].
    + split; [discriminate | intros [r H]; discriminate].
    + rewrite andb_true_iff, N.eqb_eq, IH. split.
      * intros [-> [r ->]]; eauto.
      * intros [r [= -> ->]]; eauto.
Qed.

End TextFacts.

(* ================================================================= *)
(** ** Requirement files *)

Module RequirementsFacts.
Import SyncRequirements.

Lemma parse_loop (lines : list text) (acc : list text) :
  fold_left parse_line lines acc = acc ++ filter kept (List.map strip lines).
Proof.
  revert acc; induction lines as [|l lines IH]; intros acc;
    cbn [fold_left List.map filter].
  - now rewrite app_nil_r.
  - rewrite IH. unfold parse_line, kept.
    destruct (is_empty (strip l)); cbn [negb andb orb]; [reflexivity|].
    destruct (startswith (lit "#") (strip l)); cbn [negb andb orb];
      [reflexivity|].
    destruct (startswith (lit "-") (strip l)); cbn [negb andb orb];
      [reflexivity|].
    now rewrite <- app_assoc.
Qed.

Lemma parse_requirements_run (p : path) (w : world) :
  parse_requirements p w = (Ok (entries_of (files w p)), after_parse p w).
Proof.
  unfold parse_requirements, bind, path_exists, read_text, after_parse,
    entries_of, entries.
  destruct (files w p) as [raw|] eqn:E; simpl; [|reflexivity].
  rewrite E. unfold ret. now rewrite parse_loop.
Qed.

(** C4. Parsing a requirements file that is absent gives the empty list
    and raises nothing; parsing one that exists gives exactly its lines
    that, once trimmed, are not empty and start with neither [#] nor [-],
    each as trimmed, in the order of the file and with repetitions kept. *)
Theorem parse_requirements_entries (p : path) (w : world) :
  parse_requirements p w =
    match files w p with
    | None => (Ok [], w)
    | Some raw =>
        (Ok (filter kept
               (List.map strip (splitlines (universal_newlines raw)))),
         after_read p w)
    end.
Proof.
  rewrite parse_requirements_run. unfold entries_of, after_parse, entries.
  destruct (files w p); reflexivity.
Qed.

End RequirementsFacts.

(* ================================================================= *)
(** ** The matcher finds the matches of the pattern, and nothing else *)

Module ReFacts.

Local Open Scope N_scope.

Lemma rev_cons_app (c : char) (w bef : text) :
  rev (c :: w) ++ bef = rev w ++ c :: bef.
Proof. simpl. now rewrite <- app_assoc. Qed.

Lemma eat_iff (s bef aft : text) cp st' :
  In st' (eat s bef aft cp) <->
  exists aft', aft = s ++ aft' /\ st' = MState (rev s ++ bef) aft' cp.
Proof.
  revert bef aft; induction s as [|c s IH]; intros bef aft; simpl.
  - split.
    + intros [<-|[]]. eauto.
    + intros (aft' & -> & ->). now left.
  - destruct aft as [|d aft].
    + split; [intros [] | intros (aft' & H & _); discriminate].
    + destruct (N.eqb_spec c d) as [->|Hne].
      * rewrite IH. split.
        -- intros (aft' & -> & ->). exists aft'. split; [reflexivity|].
           now rewrite <- app_assoc.
        -- intros (aft' & [= ->] & ->). exists aft'. split; [reflexivity|].
           now rewrite <- app_assoc.
      * split; [intros [] | intros (aft' & [= -> _] & _); congruence].
Qed.

Lemma greedy_iff cs (bef aft : text) cp st' :
  In st' (greedy cs bef aft cp) <->
  exists w aft', aft = w ++ aft' /\ all_in cs w = true
                 /\ st' = MState (rev w ++ bef) aft' cp.
Proof.
  revert bef; induction aft as [|c aft IH]; intros bef; simpl.
  - split.
    + intros [<-|[]]. exists [], []. auto.
    + intros (w & aft' & H & _ & ->). symmetry in H.
      apply app_eq_nil in H as [-> ->]. now left.
  - destruct (in_cset cs c) eqn:Hc.
    + rewrite in_app_iff, IH. simpl. split.
      * intros [(w & aft' & -> & Hw & ->) | [<-|[]]].
        -- exists (c :: w), aft'. unfold all_in in *. simpl. rewrite Hc, Hw.
           repeat split. now rewrite <- app_assoc.
        -- exists [], (c :: aft). auto.
      * intros (w & aft' & H & Hw & ->). destruct w as [|d w].
        -- simpl in H. subst aft'. right; now left.
        -- injection H as -> ->. left. exists w, aft'.
           unfold all_in in *. simpl in Hw. apply andb_true_iff in Hw as [_ Hw].
           repeat split; auto. simpl. now rewrite <- app_assoc.
    + simpl. split.
      * intros [<-|[]]. exists [], (c :: aft). auto.
      * intros (w & aft' & H & Hw & ->). destruct w as [|d w].
        -- simpl in H. subst aft'. now left.
        -- injection H as -> ->. unfold all_in in Hw. simpl in Hw.
           rewrite Hc in Hw. discriminate.
Qed.

Lemma lazy_iff cs (bef aft : text) cp st' :
  In st' (lazy cs bef aft cp) <->
  exists w aft', aft = w ++ aft' /\ all_in cs w = true
                 /\ st' = MState (rev w ++ bef) aft' cp.
Proof.
  revert bef; induction aft as [|c aft IH]; intros bef; simpl.
  - split.
    + intros [<-|[]]. exists [], []. auto.
    + intros (w & aft' & H & _ & ->). symmetry in H.
      apply app_eq_nil in H as [-> ->]. now left.
  - split.
    + intros [<-|H].
      * exists [], (c :: aft). auto.
      * destruct (in_cset cs c) eqn:Hc; [|destruct H].
        apply IH in H as (w & aft' & -> & Hw & ->).
        exists (c :: w), aft'. unfold all_in in *. simpl. rewrite Hc, Hw.
        repeat split. now rewrite <- app_assoc.
    + intros (w & aft' & H & Hw & ->). destruct w as [|d w].
      * simpl in H. subst aft'. now left.
      * injection H as -> ->. right. unfold all_in in Hw. simpl in Hw.
        apply andb_true_iff in Hw as [Hc Hw]. rewrite Hc. apply IH.
        exists w, aft'. repeat split; auto. simpl. now rewrite <- app_assoc.
Qed.

Theorem rmatch_iff (r : regex) (st st' : mstate) :
  In st' (rmatch r st) <-> Matches r st st'.
Proof.
  revert st st'; induction r as [s|cs|cs|cs| | |n r IH|r1 IH1 r2 IH2];
    intros [bef aft cp] st'; simpl.
  - rewrite eat_iff. split.
    + intros (aft' & -> & ->). constructor.
    + inversion 1; subst. eauto.
  - rewrite greedy_iff. split.
    + intros (w & aft' & -> & Hw & ->). now constructor.
    + inversion 1; subst. eauto.
  - split.
    + destruct aft as [|c aft]; [intros []|].
      destruct (in_cset cs c) eqn:Hc; [|intros []].
      intros H. apply greedy_iff in H as (w & aft' & -> & Hw & ->).
      rewrite <- rev_cons_app.
      change (c :: w ++ aft') with ((c :: w) ++ aft').
      constructor; [discriminate|]. unfold all_in in *. simpl. now rewrite Hc.
    + inversion 1 as [| |cs' w bef' aft' cp' Hne Hw| | | | |]; subst.
      destruct w as [|c w]; [congruence|]. simpl.
      unfold all_in in Hw. simpl in Hw. apply andb_true_iff in Hw as [Hc Hw].
      rewrite Hc. apply greedy_iff. exists w, aft'. repeat split; auto.
      now rewrite <- app_assoc.
  - rewrite lazy_iff. split.
    + intros (w & aft' & -> & Hw & ->). now constructor.
    + inversion 1; subst. eauto.
  - destruct (at_bol (MState bef aft cp)) eqn:E; simpl.
    + split; [intros [<-|[]]; now constructor | inversion 1; now left].
    + split; [intros [] | inversion 1; congruence].
  - destruct (at_eol (MState bef aft cp)) eqn:E; simpl.
    + split; [intros [<-|[]]; now constructor | inversion 1; now left].
    + split; [intros [] | inversion 1; congruence].
  - rewrite in_map_iff. split.
    + intros (x & <- & Hx). apply IH in Hx.
      now apply (MGroup n Hx).
    + inversion 1; subst. eexists. split; [reflexivity|]. now apply IH.
  - rewrite in_flat_map. split.
    + intros (x & H1 & H2). apply IH1 in H1. apply IH2 in H2.
      econstructor; eauto.
    + inversion 1; subst. eexists. split; [apply IH1|apply IH2]; eauto.
Qed.

End ReFacts.

(* ================================================================= *)
(** ** The two synchronizers, run on a world *)

Module RunFacts.
Import SyncRequirements SyncVersion RequirementsFacts.

Lemma bind_run {A B} (m : M A) (f : A -> M B) (w : world) :
  bind m f w =
    match m w with
    | (Ok a, w') => f a w'
    | (Raise e, w') => (Raise e, w')
    end.
Proof. reflexivity. Qed.

Lemma path_exists_some p w raw :
  files w p = Some raw -> path_exists p w = (Ok true, w).
Proof. intros H. unfold path_exists. now rewrite H. Qed.

Lemma path_exists_none p w :
  files w p = None -> path_exists p w = (Ok false, w).
Proof. intros H. unfold path_exists. now rewrite H. Qed.

Lemma files_after_parse p w : files (after_parse p w) = files w.
Proof. unfold after_parse. now destruct (files w p). Qed.

Lemma files_after_reads pp rp dp w : files (after_reads pp rp dp w) = files w.
Proof. unfold after_reads. now rewrite !files_after_parse. Qed.

Lemma stdout_after_parse p w : stdout (after_parse p w) = stdout w.
Proof. unfold after_parse. now destruct (files w p). Qed.

Lemma stderr_after_parse p w : stderr (after_parse p w) = stderr w.
Proof. unfold after_parse. now destruct (files w p). Qed.

Lemma trace_after_parse p w :
  trace (after_parse p w) =
  trace w ++ match files w p with Some _ => [EvRead p] | None => [] end.
Proof.
  unfold after_parse. destruct (files w p); simpl; [reflexivity|].
  now rewrite app_nil_r.
Qed.

(** [sync_to_pyproject] on a world where the configuration file exists. *)
Lemma sync_to_pyproject_run (pp rp dp : path) (w : world) (raw : text) :
  files w pp = Some raw ->
  let original := universal_newlines raw in
  let w3 := after_reads pp rp dp w in
  sync_to_pyproject pp rp dp w =
    match synced_content original (entries_of (files w rp))
            (entries_of (files w dp)) with
    | None => (Raise ReError, w3)
    | Some computed =>
        if negb (text_eqb computed original)
        then (Ok true, after_write pp computed w3)
        else (Ok false, w3)
    end.
Proof.
  intros Hraw original w3. unfold sync_to_pyproject.
  unfold bind at 1. unfold read_text at 1. rewrite Hraw.
  unfold bind at 1. rewrite parse_requirements_run.
  unfold bind at 1. rewrite parse_requirements_run.
  rewrite files_after_parse. cbn [files].
  fold (after_read pp w). fold (after_reads pp rp dp w). fold w3.
  fold original. unfold synced_content.
  destruct (update_array (lit "dependencies") (entries_of (files w rp)) original)
    as [c1|]; [|reflexivity].
  unfold bind at 1. cbn [of_re ret].
  destruct (update_array (lit "test") (entries_of (files w dp)) c1)
    as [c2|]; [|reflexivity].
  unfold bind at 1. cbn [of_re ret].
  destruct (negb (text_eqb c2 original)); reflexivity.
Qed.

Lemma sync_to_pyproject_missing (pp rp dp : path) (w : world) :
  files w pp = None ->
  sync_to_pyproject pp rp dp w = (Raise (FileNotFoundError pp), w).
Proof.
  intros H. unfold sync_to_pyproject, bind, read_text. now rewrite H.
Qed.

Lemma get_pyproject_version_run (pp : path) (w : world) (raw : text) :
  files w pp = Some raw ->
  get_pyproject_version pp w =
    (Ok (extract_version (universal_newlines raw)), after_read pp w).
Proof.
  intros H. unfold get_pyproject_version, bind, read_text. now rewrite H.
Qed.

(** [sync_version] on a world where the configuration file exists. *)
Lemma sync_version_run (pp ip : path) (w : world) (raw : text) :
  files w pp = Some raw ->
  sync_version pp ip w =
    match truthy (extract_version (universal_newlines raw)) with
    | None => (Ok false, after_eprint not_found_msg (after_read pp w))
    | Some version =>
        match files w ip with
        | None => (Raise (FileNotFoundError ip), after_read pp w)
        | Some iraw =>
            let original := universal_newlines iraw in
            let w2 := after_read ip (after_read pp w) in
            match Re.sub init_pattern (init_replacement version) original with
            | None => (Raise ReError, w2)
            | Some computed =>
                if negb (text_eqb computed original)
                then (Ok true, after_write ip computed w2)
                else (Ok false, w2)
            end
        end
    end.
Proof.
  intros Hraw. unfold sync_version.
  unfold bind at 1. rewrite (get_pyproject_version_run _ _ _ Hraw).
  destruct (truthy (extract_version (universal_newlines raw))) as [v|];
    [|reflexivity].
  unfold bind at 1. unfold read_text at 1. cbn [files after_read].
  destruct (files w ip) as [iraw|]; [|reflexivity].
  cbn zeta.
  destruct (Re.sub init_pattern (init_replacement v) (universal_newlines iraw))
    as [c|]; [|reflexivity].
  unfold bind at 1. cbn [of_re ret].
  destruct (negb (text_eqb c (universal_newlines iraw))); reflexivity.
Qed.

Lemma sync_version_missing (pp ip : path) (w : world) :
  files w pp = None ->
  sync_version pp ip w = (Raise (FileNotFoundError pp), w).
Proof.
  intros H. unfold sync_version, get_pyproject_version.
  rewrite !bind_run. unfold read_text. now rewrite H.
Qed.

End RunFacts.

(* ================================================================= *)
(** ** Searching *)

Module SearchFacts.
Import ReFacts.

Local Open Scope N_scope.

Lemma hd_error_In {A} (l : list A) (x : A) : hd_error l = Some x -> In x l.
Proof. destruct l; simpl; [discriminate | intros [= ->]; now left]. Qed.

(** A successful attempt is a match of the pattern, with group 0 added. *)
Lemma match_here_sound r ma bef aft st :
  match_here r ma bef aft = Some st ->
  exists st0, Matches r (MState bef aft []) st0 /\ st = set_cap 0 aft st0.
Proof.
  unfold match_here. intros H. apply hd_error_In in H.
  apply filter_In in H as [H _]. apply in_map_iff in H as (st0 & <- & H).
  apply rmatch_iff in H. eauto.
Qed.

(** Where there is no match of the pattern, the attempt fails. *)
Lemma match_here_none r ma bef aft :
  (forall st0, ~ Matches r (MState bef aft []) st0) ->
  match_here r ma bef aft = None.
Proof.
  intros H. destruct (match_here r ma bef aft) as [st|] eqn:E; [|reflexivity].
  apply match_here_sound in E as (st0 & Hm & _). now apply H in Hm.
Qed.

Lemma search_from_sound r bef aft st :
  search_from r bef aft = Some st ->
  exists skipped aft0,
    aft = skipped ++ aft0
    /\ match_here r false (rev skipped ++ bef) aft0 = Some st.
Proof.
  revert bef; induction aft as [|c aft IH]; intros bef; simpl.
  - destruct (match_here r false bef []) eqn:E; [|discriminate].
    intros [= ->]. exists [], []. auto.
  - destruct (match_here r false bef (c :: aft)) eqn:E.
    + intros [= ->]. exists [], (c :: aft). auto.
    + intros H. apply IH in H as (sk & aft0 & -> & H).
      exists (c :: sk), aft0. split; [reflexivity|].
      now rewrite rev_cons_app.
Qed.

Lemma search_from_none r bef aft :
  (forall skipped aft0, aft = skipped ++ aft0 ->
     match_here r false (rev skipped ++ bef) aft0 = None) ->
  search_from r bef aft = None.
Proof.
  intros H. destruct (search_from r bef aft) as [st|] eqn:E; [|reflexivity].
  apply search_from_sound in E as (sk & aft0 & E1 & E2).
  rewrite (H _ _ E1) in E2. discriminate.
Qed.

Lemma span_app (w aft : text) bef cp : span (w ++ aft) (MState bef aft cp) = w.
Proof.
  unfold span. simpl. rewrite length_app.
  replace (length w + length aft - length aft)%nat with (length w) by lia.
  now rewrite firstn_app, Nat.sub_diag, firstn_all, app_nil_r.
Qed.

Lemma all_in_not (c : char) (w : text) :
  all_in (CsNot c) w = true -> ~ In c w.
Proof.
  unfold all_in. rewrite forallb_forall. intros H Hin.
  apply H in Hin. simpl in Hin. now rewrite N.eqb_refl in Hin.
Qed.

Lemma at_bol_line_start (skipped : text) :
  at_bol (MState (rev skipped ++ []) [] []) = true -> line_start skipped.
Proof.
  rewrite app_nil_r. unfold at_bol, line_start. simpl.
  destruct (rev skipped) as [|c l] eqn:E.
  - left. apply (f_equal (@rev _)) in E. now rewrite rev_involutive in E.
  - intros Hc. apply N.eqb_eq in Hc. subst c. right. exists (rev l).
    apply (f_equal (@rev _)) in E. now rewrite rev_involutive in E.
Qed.

End SearchFacts.

(* ================================================================= *)
(** ** Extracting the version *)

Module VersionFacts.
Import SyncVersion ReFacts SearchFacts.

Local Open Scope N_scope.

Ltac inv H := inversion H; subst; clear H.

(** Takes a match of a sequence of the fragment apart. *)
Ltac inv_matches :=
  repeat match goal with
  | H : Matches (RSeq _ _) _ _ |- _ => inv H
  | H : Matches (RLit _) _ _ |- _ => inv H
  | H : Matches (RStar _) _ _ |- _ => inv H
  | H : Matches (RPlus _) _ _ |- _ => inv H
  | H : Matches (RLazy _) _ _ |- _ => inv H
  | H : Matches RBol _ _ |- _ => inv H
  | H : Matches REol _ _ |- _ => inv H
  | H : Matches (RGroup _ _) _ _ |- _ => inv H
  end.

Lemma version_pattern_sound bef aft st0 :
  Matches version_pattern (MState bef aft []) st0 ->
  exists ws1 ws2 v post,
    aft = lit "version" ++ ws1 ++ lit "=" ++ ws2 ++ [DQ] ++ v ++ [DQ] ++ post
    /\ at_bol (MState bef [] []) = true
    /\ spaces ws1 = true /\ spaces ws2 = true /\ usable v
    /\ after st0 = post /\ caps st0 = [(1%nat, v)].
Proof.
  unfold version_pattern. intros H. inv_matches.
  simpl in *. subst aft.
  exists w0, w, w1, aft0. repeat split; auto.
  - now apply all_in_not.
  - unfold set_cap. simpl. do 2 f_equal.
    change (DQ :: aft0) with ([DQ] ++ aft0) at 1.
    apply (span_app w1 (DQ :: aft0)).
Qed.

(** Extraction succeeds only on a usable assignment at a line start, and
    returns its value. *)
Lemma extract_version_sound (content v : text) :
  extract_version content = Some v ->
  version_assignment content v /\ usable v.
Proof.
  unfold extract_version, Re.search.
  destruct (search_from version_pattern [] content) as [st|] eqn:E;
    [|discriminate].
  intros [= <-].
  apply search_from_sound in E as (pre & aft0 & -> & E).
  apply match_here_sound in E as (st0 & Hm & ->).
  apply version_pattern_sound in Hm
    as (ws1 & ws2 & v & post & -> & Hbol & H1 & H2 & Hv & _ & Hc).
  unfold group. simpl. rewrite Hc. simpl. split; [|exact Hv].
  exists pre, ws1, ws2, post. repeat split; auto.
  now apply at_bol_line_start.
Qed.

Lemma extract_version_none (content : text) :
  no_version content -> extract_version content = None.
Proof.
  intros H. destruct (extract_version content) as [v|] eqn:E; [|reflexivity].
  apply extract_version_sound in E as [Ha Hu]. now apply H in Ha.
Qed.

Lemma truthy_extract (content : text) :
  truthy (extract_version content) = extract_version content.
Proof.
  destruct (extract_version content) as [v|] eqn:E; [|reflexivity].
  apply extract_version_sound in E as [_ [Hne _]].
  destruct v; [congruence | reflexivity].
Qed.

End VersionFacts.

(* ================================================================= *)
(** ** Completeness of searching *)

Module SearchComplete.
Import ReFacts SearchFacts.

Lemma filter_all {A} (l : list A) : filter (fun _ => true) l = l.
Proof. induction l; simpl; congruence. Qed.

(** Where the pattern has a match, the attempt succeeds. *)
Lemma match_here_complete r bef aft st0 :
  Matches r (MState bef aft []) st0 ->
  exists st, match_here r false bef aft = Some st.
Proof.
  intros H. apply rmatch_iff in H. unfold match_here. simpl.
  rewrite filter_all.
  destruct (rmatch r (MState bef aft [])) as [|x l]; [destruct H|].
  simpl. eauto.
Qed.

Lemma search_from_complete r bef skipped aft0 st :
  match_here r false (rev skipped ++ bef) aft0 = Some st ->
  exists st', search_from r bef (skipped ++ aft0) = Some st'.
Proof.
  revert bef; induction skipped as [|c sk IH]; intros bef H; simpl in *.
  - destruct aft0; simpl; rewrite H; eauto.
  - destruct (match_here r false bef (c :: sk ++ aft0)); [eauto|].
    apply IH. now rewrite <- app_assoc in H.
Qed.

End SearchComplete.

Module VersionComplete.
Import SyncVersion ReFacts SearchFacts SearchComplete VersionFacts.

Local Open Scope N_scope.

Lemma not_in_all_in (c : char) (w : text) :
  ~ In c w -> all_in (CsNot c) w = true.
Proof.
  intros H. apply forallb_forall. intros x Hx. simpl.
  destruct (N.eqb_spec x c) as [->|]; [contradiction | reflexivity].
Qed.

Lemma line_start_at_bol (pre aft : text) cp :
  line_start pre -> at_bol (MState (rev pre) aft cp) = true.
Proof.
  intros [->|[p ->]]; [reflexivity|].
  unfold at_bol. simpl. rewrite rev_app_distr. reflexivity.
Qed.

Lemma version_pattern_complete pre ws1 ws2 v post :
  line_start pre -> spaces ws1 = true -> spaces ws2 = true -> usable v ->
  exists st0,
    Matches version_pattern
      (MState (rev pre)
         (lit "version" ++ ws1 ++ lit "=" ++ ws2 ++ [DQ] ++ v ++ [DQ] ++ post)
         []) st0.
Proof.
  intros Hpre H1 H2 [Hne Hq]. unfold version_pattern. eexists.
  eapply MSeq; [apply MBol; now apply line_start_at_bol|].
  eapply MSeq; [apply MLit|].
  eapply MSeq; [apply MStar; exact H1|].
  eapply MSeq; [apply MLit|].
  eapply MSeq; [apply MStar; exact H2|].
  eapply MSeq; [apply MLit|].
  eapply MSeq; [apply MGroup, MPlus; [exact Hne | now apply not_in_all_in]|].
  apply (MLit [DQ]).
Qed.

(** Extraction finds a version exactly when some line gives a usable
    one. *)
Lemma extract_version_none_iff (content : text) :
  extract_version content = None <-> no_version content.
Proof.
  split; [|apply extract_version_none].
  intros E v Hv (pre & ws1 & ws2 & post & -> & Hpre & H1 & H2).
  destruct (@version_pattern_complete pre ws1 ws2 v post Hpre H1 H2 Hv)
    as [st0 Hm].
  apply match_here_complete in Hm as [st Hm].
  rewrite <- (app_nil_r (rev pre)) in Hm.
  apply search_from_complete in Hm as [st' Hs].
  unfold extract_version, Re.search in E. rewrite Hs in E. discriminate.
Qed.

End VersionComplete.

(* ================================================================= *)
(** ** The substitution loop *)

Module SubFacts.
Import ReFacts SearchFacts.

Local Open Scope N_scope.

(** A match moves the position forward over some characters. *)
Lemma matches_moves r st st' :
  Matches r st st' ->
  exists w, after st = w ++ after st' /\ before st' = rev w ++ before st.
Proof.
  induction 1 as [s bef aft cp|cs w bef aft cp _|cs w bef aft cp _ _
                  |cs w bef aft cp _|st _|st _|n r st st' _ IH
                  |r1 r2 st st' st'' _ IH1 _ IH2]; simpl;
    try (now eexists; split; reflexivity);
    try (exists []; now split).
  - exact IH.
  - destruct IH1 as (w1 & E1 & B1), IH2 as (w2 & E2 & B2).
    exists (w1 ++ w2). rewrite E1, E2, B2, B1, rev_app_distr, <- !app_assoc.
    auto.
Qed.

(** What a successful attempt tells: group 0 is the text matched, and the
    position after it is where the rest begins. *)
Lemma match_here_span r ma bef aft st :
  match_here r ma bef aft = Some st ->
  aft = group 0 st ++ after st /\ before st = rev (group 0 st) ++ bef.
Proof.
  intros H. apply match_here_sound in H as (st0 & Hm & ->).
  apply matches_moves in Hm as (w & E & B). simpl in E, B.
  unfold group. simpl. destruct st0 as [b a c]. simpl in *. subst aft.
  rewrite span_app. auto.
Qed.

Lemma sub_loop_skip r items bef (m rest : text) :
  sub_loop r items bef (length m) (m ++ rest) =
  sub_loop r items (rev m ++ bef) O rest.
Proof.
  revert bef; induction m as [|c m IH]; intros bef; simpl.
  - destruct rest; reflexivity.
  - rewrite IH, <- app_assoc. reflexivity.
Qed.

(** A position without a match is copied and passed. *)
Lemma sub_loop_none r items bef c aft :
  match_here r false bef (c :: aft) = None ->
  sub_loop r items bef O (c :: aft) = c :: sub_loop r items (c :: bef) O aft.
Proof. intros H. simpl. now rewrite H. Qed.

(** A match that is not empty is exchanged for its replacement, and the
    loop goes on behind it. *)
Lemma sub_loop_match r items bef aft st :
  match_here r false bef aft = Some st ->
  group 0 st <> [] ->
  sub_loop r items bef O aft =
  expand items st ++ sub_loop r items (before st) O (after st).
Proof.
  intros H Hne. destruct (@match_here_span _ _ _ _ _ H) as [E B].
  destruct (group 0 st) as [|c m] eqn:G; [congruence|].
  subst aft. rewrite B. simpl in H |- *. rewrite H, G.
  cbn [length]. now rewrite sub_loop_skip, <- app_assoc.
Qed.

(** Text in which no attempt succeeds is copied. *)
Lemma sub_loop_pass r items (skipped rest bef : text) :
  (forall a b, skipped = a ++ b -> b <> [] ->
     match_here r false (rev a ++ bef) (b ++ rest) = None) ->
  sub_loop r items bef O (skipped ++ rest) =
  skipped ++ sub_loop r items (rev skipped ++ bef) O rest.
Proof.
  revert bef; induction skipped as [|c sk IH]; intros bef H; [reflexivity|].
  simpl app at 1. rewrite sub_loop_none.
  - rewrite IH.
    + simpl. now rewrite <- app_assoc.
    + intros a b -> Hb. specialize (H (c :: a) b eq_refl Hb).
      simpl in H. now rewrite <- app_assoc in H.
  - apply (H [] (c :: sk) eq_refl). discriminate.
Qed.

End SubFacts.

(* ================================================================= *)
(** ** Patterns without anchors *)

Module AnchorFree.
Import ReFacts SearchFacts SubFacts.

Local Open Scope N_scope.

Lemma Forall2_flat_map {A B} (R : A -> A -> Prop) (S : B -> B -> Prop)
  (f g : A -> list B) (l1 l2 : list A) :
  (forall x y, R x y -> Forall2 S (f x) (g y)) ->
  Forall2 R l1 l2 -> Forall2 S (flat_map f l1) (flat_map g l2).
Proof.
  intros H. induction 1; simpl; [constructor|].
  apply Forall2_app; auto.
Qed.

Lemma Forall2_map {A B} (R : A -> A -> Prop) (S : B -> B -> Prop)
  (f g : A -> B) (l1 l2 : list A) :
  (forall x y, R x y -> S (f x) (g y)) ->
  Forall2 R l1 l2 -> Forall2 S (List.map f l1) (List.map g l2).
Proof. intros H. induction 1; simpl; constructor; auto. Qed.

Lemma eat_same s bef bef' aft cp :
  Forall2 same_ahead (eat s bef aft cp) (eat s bef' aft cp).
Proof.
  revert bef bef' aft; induction s as [|c s IH]; intros bef bef' aft; simpl.
  - repeat constructor.
  - destruct aft as [|d aft]; [constructor|].
    destruct (c =? d); [apply IH | constructor].
Qed.

Lemma greedy_same cs bef bef' aft cp :
  Forall2 same_ahead (greedy cs bef aft cp) (greedy cs bef' aft cp).
Proof.
  revert bef bef'; induction aft as [|c aft IH]; intros bef bef'; simpl.
  - repeat constructor.
  - destruct (in_cset cs c).
    + apply Forall2_app; [apply IH | repeat constructor].
    + repeat constructor.
Qed.

Lemma lazy_same cs bef bef' aft cp :
  Forall2 same_ahead (lazy cs bef aft cp) (lazy cs bef' aft cp).
Proof.
  revert bef bef'; induction aft as [|c aft IH]; intros bef bef'; simpl.
  - repeat constructor.
  - constructor; [split; reflexivity|].
    destruct (in_cset cs c); [apply IH | constructor].
Qed.

Lemma rmatch_same r :
  anchor_free r = true ->
  forall st1 st2, same_ahead st1 st2 ->
  Forall2 same_ahead (rmatch r st1) (rmatch r st2).
Proof.
  induction r as [s|cs|cs|cs| | |n r IH|r1 IH1 r2 IH2]; simpl; intros Hf;
    try discriminate;
    intros [b1 a1 c1] [b2 a2 c2] [Ha Hc]; simpl in Ha, Hc; subst a2 c2; simpl.
  - apply eat_same.
  - apply greedy_same.
  - destruct a1 as [|c a1]; [constructor|].
    destruct (in_cset cs c); [apply greedy_same | constructor].
  - apply lazy_same.
  - apply Forall2_map with (R := same_ahead).
    + intros x y [Hx Hy]. unfold set_cap, span. split; simpl; congruence.
    + apply IH; [exact Hf | split; reflexivity].
  - apply andb_true_iff in Hf as [H1 H2].
    apply Forall2_flat_map with (R := same_ahead).
    + intros x y Hxy. now apply IH2.
    + apply IH1; [exact H1 | split; reflexivity].
Qed.

Lemma match_here_same r ma bef bef' aft :
  anchor_free r = true ->
  same_outcome (match_here r ma bef aft) (match_here r ma bef' aft).
Proof.
  intros Hf. unfold match_here.
  pose proof (@rmatch_same r Hf (MState bef aft []) (MState bef' aft [])
                (conj eq_refl eq_refl)) as H.
  induction H as [|x y l1 l2 [Hx Hy] _ IH]; simpl; [constructor|].
  rewrite Hx.
  destruct (negb (ma && (length (after y) =? length aft)%nat)); [|exact IH].
  simpl. constructor. unfold set_cap, span. split; simpl; congruence.
Qed.

Lemma expand_same items st1 st2 :
  same_ahead st1 st2 -> expand items st1 = expand items st2.
Proof.
  intros [_ Hc]. induction items as [|[c|n] items IH]; simpl;
    [reflexivity | now rewrite IH |].
  unfold group. now rewrite Hc, IH.
Qed.

(** The loop over such a pattern gives the same text whatever lies behind
    the position it starts from. *)
Lemma sub_loop_same r items :
  anchor_free r = true ->
  forall aft bef bef' skip,
    sub_loop r items bef skip aft = sub_loop r items bef' skip aft.
Proof.
  intros Hf. induction aft as [|c aft IH]; intros bef bef' skip; simpl.
  - destruct skip; [|reflexivity].
    destruct (@match_here_same r false bef bef' [] Hf) as [|s1 s2 Hs];
      [reflexivity | now apply expand_same].
  - destruct skip as [|n]; [|apply IH].
    destruct (@match_here_same r false bef bef' (c :: aft) Hf) as [|s1 s2 Hs].
    + f_equal. apply IH.
    + assert (Hg : group 0 s1 = group 0 s2)
        by (unfold group; destruct Hs as [_ ->]; reflexivity).
      rewrite Hg, (expand_same items _ _ Hs).
      destruct (length (group 0 s2)).
      * f_equal.
        destruct (@match_here_same r true bef bef' (c :: aft) Hf)
          as [|t1 t2 Ht].
        -- f_equal. apply IH.
        -- assert (Hg' : group 0 t1 = group 0 t2)
             by (unfold group; destruct Ht as [_ ->]; reflexivity).
           rewrite Hg', (expand_same items _ _ Ht). f_equal. apply IH.
      * f_equal. apply IH.
Qed.

(** The loop in terms of the search: up to the leftmost match nothing
    changes, the match is exchanged for its replacement, and the loop goes
    on behind it. *)
Lemma sub_loop_search r items :
  (forall ma bef aft st, match_here r ma bef aft = Some st -> group 0 st <> []) ->
  forall aft bef st,
    search_from r bef aft = Some st ->
    exists skipped,
      aft = skipped ++ group 0 st ++ after st
      /\ sub_loop r items bef O aft =
         skipped ++ expand items st ++ sub_loop r items (before st) O (after st).
Proof.
  intros Hne. induction aft as [|c aft IH]; intros bef st; simpl search_from.
  - destruct (match_here r false bef []) as [st'|] eqn:E; [|discriminate].
    intros [= ->]. exists []. split.
    + apply (@match_here_span _ _ _ _ _ E).
    + apply (@sub_loop_match _ items _ _ _ E (Hne _ _ _ _ E)).
  - destruct (match_here r false bef (c :: aft)) as [st'|] eqn:E.
    + intros [= ->]. exists []. split.
      * apply (@match_here_span _ _ _ _ _ E).
      * apply (@sub_loop_match _ items _ _ _ E (Hne _ _ _ _ E)).
    + intros H. apply IH in H as (sk & Ea & Es).
      exists (c :: sk). split; [simpl; congruence|].
      rewrite (@sub_loop_none _ items _ _ _ E), Es. reflexivity.
Qed.

End AnchorFree.

(* ================================================================= *)
(** ** Templates without a backslash *)

Module TemplateFacts.

Local Open Scope N_scope.

Lemma has_backslash_app (a b : text) :
  has_backslash (a ++ b) = has_backslash a || has_backslash b.
Proof. apply existsb_app. Qed.

Lemma parse_cons groups (c : char) (t : text) :
  (c =? BSL) = false ->
  parse_template groups None (c :: t) =
  addchar c (parse_template groups None t).
Proof. intros H. cbn -[N.eqb]. now rewrite H. Qed.

(** Parsing text without a backslash gives the text, character by
    character. *)
Lemma parse_plain groups (t : text) :
  has_backslash t = false ->
  parse_template groups None t = Some (List.map TChar t).
Proof.
  induction t as [|c t IH]; [reflexivity|].
  unfold has_backslash. cbn [existsb]. intros H.
  apply orb_false_iff in H as [Hc Ht]. rewrite N.eqb_sym in Hc.
  rewrite (parse_cons _ _ _ Hc), (IH Ht). reflexivity.
Qed.

Lemma compile_plain groups (t : text) :
  has_backslash t = false ->
  compile_repl groups t = Some (List.map TChar t).
Proof. intros H. unfold compile_repl. now rewrite H. Qed.

Lemma expand_chars (t : text) (st : mstate) : expand (List.map TChar t) st = t.
Proof. induction t; simpl; congruence. Qed.

End TemplateFacts.

(* ================================================================= *)
(** ** The array pattern *)

Module ArrayFacts.
Import SyncRequirements ReFacts SearchFacts VersionFacts SubFacts.

Local Open Scope N_scope.

Ltac unlit :=
  repeat match goal with
  | |- context [lit ?s] =>
      let v := eval vm_compute in (lit s) in change (lit s) with v
  end.

Ltac list_eq := unlit; repeat (simpl; rewrite <- ?app_assoc); reflexivity.

Lemma span_eq (full w : text) (st : mstate) :
  full = w ++ after st -> span full st = w.
Proof. intros ->. destruct st. apply span_app. Qed.

Lemma array_pattern_sound label bef aft st0 :
  Matches (array_pattern label) (MState bef aft []) st0 ->
  exists ws1 ws2 ws3 body ws4,
    let head := label ++ ws1 ++ lit "=" ++ ws2 ++ lit "[" in
    aft = (head ++ ws3 ++ [NL] ++ body ++ [NL] ++ ws4 ++ lit "]") ++ after st0
    /\ spaces ws1 = true /\ spaces ws2 = true
    /\ spaces ws3 = true /\ spaces ws4 = true
    /\ caps st0 =
       [(3%nat, [NL] ++ ws4 ++ lit "]"); (2%nat, body); (1%nat, head)].
Proof.
  unfold array_pattern. intros H. inv_matches.
  simpl in *. subst.
  exists w3, w2, w, w1, w0. cbn zeta.
  repeat split; auto.
  - list_eq.
  - unfold set_cap. simpl.
    repeat f_equal; apply span_eq; list_eq.
Qed.

(** What an attempt of the array pattern finds is a region of the array,
    never empty, with the head in group 1. *)
Lemma array_match_here label ma bef aft st :
  match_here (array_pattern label) ma bef aft = Some st ->
  array_region label (group 1 st) (group 0 st)
  /\ group 0 st <> []
  /\ aft = group 0 st ++ after st.
Proof.
  intros H. destruct (@match_here_span _ _ _ _ _ H) as [E _].
  apply match_here_sound in H as (st0 & Hm & ->).
  apply array_pattern_sound in Hm
    as (ws1 & ws2 & ws3 & body & ws4 & Ha & H1 & H2 & H3 & H4 & Hc).
  cbn zeta in Ha. simpl in E.
  assert (G0 : group 0 (set_cap 0 aft st0) =
               (label ++ ws1 ++ lit "=" ++ ws2 ++ lit "[") ++ ws3 ++ [NL]
               ++ body ++ [NL] ++ ws4 ++ lit "]").
  { unfold group. simpl. now apply span_eq. }
  assert (G1 : group 1 (set_cap 0 aft st0) =
               label ++ ws1 ++ lit "=" ++ ws2 ++ lit "[").
  { unfold group. simpl. now rewrite Hc. }
  rewrite G0, G1. repeat split.
  - exists ws1, ws2, ws3, body, ws4. repeat split; auto.
  - intros Hn. apply (f_equal (@length _)) in Hn.
    rewrite !length_app in Hn. simpl in Hn. lia.
  - exact Ha.
Qed.

End ArrayFacts.

(* ================================================================= *)
(** ** The first answer of the matcher *)

Module FirstFacts.
Import ReFacts SearchFacts.

Local Open Scope N_scope.

Lemma hd_error_app {A} (l l' : list A) (x : A) :
  hd_error l = Some x -> hd_error (l ++ l') = Some x.
Proof. destruct l; simpl; [discriminate | auto]. Qed.

(** When the first answer of a pattern lets the next pattern answer, the
    sequence answers with that, and no backtracking takes place. *)
Lemma first_seq r1 r2 st st1 st2 :
  hd_error (rmatch r1 st) = Some st1 ->
  hd_error (rmatch r2 st1) = Some st2 ->
  hd_error (rmatch (RSeq r1 r2) st) = Some st2.
Proof.
  simpl. destruct (rmatch r1 st) as [|x l]; [discriminate|].
  intros [= ->] H. simpl. now apply hd_error_app.
Qed.

Lemma first_lit (w bef a : text) cp :
  hd_error (rmatch (RLit w) (MState bef (w ++ a) cp)) =
  Some (MState (rev w ++ bef) a cp).
Proof.
  simpl. revert bef; induction w as [|c w IH]; intros bef; simpl;
    [reflexivity|].
  rewrite N.eqb_refl, IH, <- app_assoc. reflexivity.
Qed.

Lemma first_greedy cs (ws bef a : text) cp :
  all_in cs ws = true -> stops cs a ->
  hd_error (greedy cs bef (ws ++ a) cp) = Some (MState (rev ws ++ bef) a cp).
Proof.
  revert bef; induction ws as [|c ws IH]; intros bef Hw Ha; simpl.
  - destruct a as [|d a]; [reflexivity|]. simpl in Ha |- *. now rewrite Ha.
  - unfold all_in in Hw. simpl in Hw. apply andb_true_iff in Hw as [Hc Hw].
    rewrite Hc. apply hd_error_app. rewrite IH, <- app_assoc; auto.
Qed.

Lemma first_star cs (ws bef a : text) cp :
  all_in cs ws = true -> stops cs a ->
  hd_error (rmatch (RStar cs) (MState bef (ws ++ a) cp)) =
  Some (MState (rev ws ++ bef) a cp).
Proof. apply first_greedy. Qed.

Lemma first_plus cs (ws bef a : text) cp :
  ws <> [] -> all_in cs ws = true -> stops cs a ->
  hd_error (rmatch (RPlus cs) (MState bef (ws ++ a) cp)) =
  Some (MState (rev ws ++ bef) a cp).
Proof.
  destruct ws as [|c ws]; [congruence|]. intros _ Hw Ha. simpl.
  unfold all_in in Hw. simpl in Hw. apply andb_true_iff in Hw as [Hc Hw].
  rewrite Hc, (first_greedy cs ws (c :: bef) a cp Hw Ha), <- app_assoc.
  reflexivity.
Qed.

Lemma first_bol st :
  at_bol st = true -> hd_error (rmatch RBol st) = Some st.
Proof. intros H. simpl. now rewrite H. Qed.

Lemma first_eol st :
  at_eol st = true -> hd_error (rmatch REol st) = Some st.
Proof. intros H. simpl. now rewrite H. Qed.

(** An attempt that need not advance returns the first answer. *)
Lemma match_here_first r bef aft st0 :
  hd_error (rmatch r (MState bef aft [])) = Some st0 ->
  match_here r false bef aft = Some (set_cap 0 aft st0).
Proof.
  unfold match_here. destruct (rmatch r (MState bef aft [])) as [|x l];
    [discriminate|].
  intros [= ->]. reflexivity.
Qed.

End FirstFacts.

(* ================================================================= *)
(** ** The pattern of the initializer *)

Module InitFacts.
Import SyncVersion ReFacts SearchFacts VersionFacts VersionComplete.
Import SubFacts FirstFacts TemplateFacts ArrayFacts.

Local Open Scope N_scope.

(** No attempt succeeds away from the start of a line. *)
Lemma init_needs_bol ma bef aft :
  at_bol (MState bef aft []) = false ->
  match_here init_pattern ma bef aft = None.
Proof.
  intros H. apply match_here_none. intros st0 Hm.
  unfold init_pattern in Hm.
  inversion Hm as [| | | | | | |r1 r2 st st' st'' H1 H2]; subst.
  inversion H1; subst. congruence.
Qed.

(** No attempt succeeds where the text does not begin with the word. *)
Lemma init_needs_word ma bef aft :
  startswith (lit "__version__") aft = false ->
  match_here init_pattern ma bef aft = None.
Proof.
  intros H. apply match_here_none. intros st0 Hm.
  unfold init_pattern in Hm.
  inversion Hm as [| | | | | | |r1 r2 st st' st'' H1 H2]; subst.
  inversion H1; subst.
  inversion H2 as [| | | | | | |r1' r2' s s' s'' H3 H4]; subst.
  inversion H3; subst.
  vm_compute in H. discriminate.
Qed.

Lemma after_text_not_bol (a bef aft : text) cp :
  a <> [] -> ~ In NL a -> at_bol (MState (rev a ++ bef) aft cp) = false.
Proof.
  intros Hne Hn. unfold at_bol. simpl.
  destruct (rev a) as [|c l] eqn:E.
  - apply (f_equal (@rev _)) in E. rewrite rev_involutive in E. contradiction.
  - simpl. apply N.eqb_neq. intros ->. apply Hn.
    apply in_rev. rewrite E. now left.
Qed.

Lemma startswith_line (word l rest : text) :
  ~ In NL word -> startswith word l = false ->
  stops CsDot rest ->
  startswith word (l ++ rest) = false.
Proof.
  revert l; induction word as [|x word IH]; intros l Hn Hs Hr;
    [discriminate|].
  destruct l as [|y l]; simpl in *.
  - destruct rest as [|c rest]; [reflexivity|].
    simpl in Hr. apply negb_false_iff, N.eqb_eq in Hr. subst c.
    destruct (N.eqb_spec x NL) as [->|]; [|reflexivity].
    exfalso. apply Hn. now left.
  - destruct (x =? y); [|reflexivity]. simpl in *.
    apply IH; auto.
Qed.

Lemma in_nl_app_l (a b : text) : ~ In NL (a ++ b) -> ~ In NL a.
Proof. intros H Ha. apply H, in_or_app. now left. Qed.

Lemma in_nl_app_r (a b : text) : ~ In NL (a ++ b) -> ~ In NL b.
Proof. intros H Hb. apply H, in_or_app. now right. Qed.

Lemma word_no_nl : ~ In NL (lit "__version__").
Proof. vm_compute. intuition discriminate. Qed.

(** A plain line is copied, whatever the position it starts at. *)
Lemma plain_line_passes items (l rest bef : text) :
  ~ In NL l -> plain_line l -> stops CsDot rest ->
  sub_loop init_pattern items bef O (l ++ rest) =
  l ++ sub_loop init_pattern items (rev l ++ bef) O rest.
Proof.
  intros Hn Hp Hr. apply sub_loop_pass. intros a b -> Hb.
  destruct a as [|c a].
  - apply init_needs_word. apply startswith_line; auto using word_no_nl.
  - apply init_needs_bol. apply after_text_not_bol; [discriminate|].
    now apply in_nl_app_l in Hn.
Qed.

(** At the end of a line nothing is found. *)
Lemma line_end_passes ma (l bef rest : text) :
  ~ In NL l -> stops CsDot rest ->
  match_here init_pattern ma (rev l ++ bef) rest = None.
Proof.
  intros Hn Hr. destruct l as [|c l].
  - apply init_needs_word.
    apply (startswith_line _ [] rest); auto using word_no_nl.
  - apply init_needs_bol. apply after_text_not_bol; [discriminate | exact Hn].
Qed.

(** At the start of a line, a version line is matched whole, on the first
    path the matcher tries. *)
Lemma version_line_matches (l rest bef : text) :
  version_line l -> ~ In NL l -> stops CsDot rest ->
  at_bol (MState bef [] []) = true ->
  exists st,
    match_here init_pattern false bef (l ++ rest) = Some st
    /\ group 0 st = l /\ after st = rest /\ before st = rev l ++ bef.
Proof.
  intros (ws1 & ws2 & q & trailing & -> & H1 & H2 & Hne & Hq) Hn Hr Hbol.
  assert (Ht : all_in CsDot trailing = true).
  { apply (not_in_all_in NL). intros Hi. apply Hn.
    repeat (apply in_or_app; right). exact Hi. }
  assert (Hm : exists st0,
             hd_error (rmatch init_pattern
                         (MState bef
                            ((lit "__version__" ++ ws1 ++ lit "=" ++ ws2
                              ++ [DQ] ++ q ++ [DQ] ++ trailing) ++ rest) []))
             = Some st0 /\ after st0 = rest).
  { rewrite <- !app_assoc. unfold init_pattern. eexists. split.
    - eapply first_seq; [apply first_bol; exact Hbol|].
      eapply first_seq; [apply first_lit|].
      eapply first_seq; [apply first_star; [exact H1 | reflexivity]|].
      eapply first_seq; [apply first_lit|].
      eapply first_seq; [apply first_star; [exact H2 | reflexivity]|].
      eapply first_seq; [apply first_lit|].
      eapply first_seq;
        [apply first_plus;
         [exact Hne | now apply not_in_all_in | apply N.eqb_refl
                                                 || reflexivity]|].
      eapply first_seq; [apply first_lit|].
      eapply first_seq; [apply first_star; [exact Ht | exact Hr]|].
      apply first_eol. destruct rest as [|c rest]; [reflexivity|].
      simpl in Hr. unfold at_eol. simpl.
      now apply negb_false_iff in Hr.
    - reflexivity. }
  destruct Hm as (st0 & Hm & Ha).
  apply match_here_first in Hm.
  destruct (match_here_span _ _ _ _ _ Hm) as [E B].
  eexists. split; [exact Hm|].
  simpl after in *. rewrite Ha in E.
  apply app_inv_tail in E.
  repeat split; [now rewrite <- E | exact Ha | now rewrite B, <- E].
Qed.

(** The loop over a text of plain lines and version lines, started at the
    start of a line with the canonical line as replacement. *)
Lemma synced_loop (v : text) (content out : text) :
  Synced v content out ->
  forall bef,
    at_bol (MState bef [] []) = true ->
    sub_loop init_pattern (List.map TChar (init_replacement v)) bef O content
    = out.
Proof.
  set (items := List.map TChar (init_replacement v)).
  induction 1 as [l Hn Hp|l Hn Hv|l rest out Hn Hp _ IH|l rest out Hn Hv _ IH];
    intros bef Hbol.
  - rewrite <- (app_nil_r l) at 1.
    rewrite (plain_line_passes items l [] bef Hn Hp I). simpl.
    rewrite (line_end_passes false l bef [] Hn I). now rewrite app_nil_r.
  - destruct (version_line_matches l [] bef Hv Hn I Hbol)
      as (st & Hm & G & Ha & B).
    rewrite app_nil_r in Hm.
    assert (Hg : group 0 st <> []).
    { rewrite G. destruct Hv as (? & ? & ? & ? & -> & _). discriminate. }
    rewrite (sub_loop_match _ items _ _ _ Hm Hg), Ha, B. simpl.
    rewrite (line_end_passes false l bef [] Hn I).
    unfold items. now rewrite expand_chars, app_nil_r.
  - rewrite (plain_line_passes items l (NL :: rest) bef Hn Hp eq_refl).
    rewrite (sub_loop_none _ items _ _ _
               (line_end_passes false l bef (NL :: rest) Hn eq_refl)).
    now rewrite (IH (NL :: rev l ++ bef) eq_refl).
  - destruct (version_line_matches l (NL :: rest) bef Hv Hn eq_refl Hbol)
      as (st & Hm & G & Ha & B).
    assert (Hg : group 0 st <> []).
    { rewrite G. destruct Hv as (? & ? & ? & ? & -> & _). discriminate. }
    rewrite (sub_loop_match _ items _ _ _ Hm Hg), Ha, B.
    rewrite (sub_loop_none _ items _ _ _
               (line_end_passes false l bef (NL :: rest) Hn eq_refl)).
    unfold items at 1. rewrite expand_chars.
    now rewrite (IH (NL :: rev l ++ bef) eq_refl).
Qed.

Lemma Plain_Synced (v content : text) : Plain content -> Synced v content content.
Proof. induction 1; now constructor. Qed.

End InitFacts.

(* ================================================================= *)
(** ** Properties of the specification *)

Section Properties.
Import SyncRequirements SyncVersion.
Import RequirementsFacts RunFacts VersionFacts VersionComplete.
Import SubFacts ArrayFacts AnchorFree TemplateFacts SearchFacts InitFacts.

Local Open Scope N_scope.

Lemma skipn_length_app {A} (l l' : list A) : skipn (length l) (l ++ l') = l'.
Proof. induction l; simpl; auto. Qed.

(** C1. A configuration document without a usable version line.  The
    specification gives this run exit code 1.  The script does report the
    failure on the error stream and leaves the initializer file alone, but
    [sync_version] returns [False] for it as for a file already in sync, so
    [main] goes on to print the in-sync message and the process ends with
    exit code 0, unlike the two missing-file paths, which end with 1. *)
Theorem version_not_found_exit_code (w : world) (raw iraw : text) :
  files w PyprojectToml = Some raw ->
  files w InitPy = Some iraw ->
  no_version (universal_newlines raw) ->
  let out := sys_exit SyncVersion.main w in
  fst out = 0%nat
  /\ stderr (snd out) = stderr w ++ [not_found_msg]
  /\ stdout (snd out) = stdout w ++ ["__version__ already in sync"%string]
  /\ files (snd out) = files w
  /\ new_events w (snd out) = [EvRead PyprojectToml].
Proof.
  intros Hp Hi Hno out. subst out.
  unfold sys_exit, SyncVersion.main.
  rewrite bind_run, (path_exists_some _ _ _ Hp). cbn [negb].
  rewrite bind_run, (path_exists_some _ _ _ Hi). cbn [negb].
  rewrite bind_run, (@sync_version_run _ InitPy _ _ Hp).
  rewrite truthy_extract, (extract_version_none _ Hno).
  cbn. repeat split. unfold new_events. cbn. apply skipn_length_app.
Qed.

(** The run of C1 on a configuration document with a project name and no
    version, next to an initializer. *)
Lemma version_not_found_exit_code_witness :
  let w := world_of (Some (lit "name = lango")) None None
             (Some (lit "__version__ = 1")) in
  let out := sys_exit SyncVersion.main w in
  fst out = 0%nat
  /\ stderr (snd out) = [not_found_msg]
  /\ stdout (snd out) = ["__version__ already in sync"%string]
  /\ files (snd out) = files w
  /\ new_events w (snd out) = [EvRead PyprojectToml].
Proof.
  intros w.
  apply (@version_not_found_exit_code w (lit "name = lango")
           (lit "__version__ = 1")).
  - reflexivity.
  - reflexivity.
  - apply extract_version_none_iff. vm_compute. reflexivity.
Defined.


Lemma writes_after_reads pp rp dp w :
  writes w (after_reads pp rp dp w) = [].
Proof.
  unfold writes, new_events, after_reads.
  rewrite !trace_after_parse. cbn [trace after_read].
  rewrite <- !app_assoc, skipn_length_app.
  rewrite files_after_parse. cbn [files after_read].
  destruct (files w rp), (files w dp); reflexivity.
Qed.

Lemma writes_after_write pp rp dp w c :
  writes w (after_write pp c (after_reads pp rp dp w)) = [EvWrite pp c].
Proof.
  pose proof (writes_after_reads pp rp dp w) as H.
  unfold writes, new_events in *. cbn [trace after_write].
  remember (after_reads pp rp dp w) as w3 eqn:E3.
  assert (exists l, trace w3 = trace w ++ l) as [l Hl].
  { subst w3. unfold after_reads. rewrite !trace_after_parse.
    cbn [trace after_read]. rewrite <- !app_assoc. eauto. }
  rewrite Hl in *. rewrite <- app_assoc, skipn_length_app in *.
  rewrite filter_app, H. reflexivity.
Qed.

(** The policy holds of a result computed and compared as both
    synchronizers do. *)
Lemma write_back_holds (target : path) (original computed : text)
  (w w2 : world) :
  files w2 = files w -> writes w w2 = [] ->
  writes w (after_write target computed w2) = [EvWrite target computed] ->
  write_back target original computed w
    (if negb (text_eqb computed original)
     then (Ok true, after_write target computed w2)
     else (Ok false, w2)).
Proof.
  intros Hf Hw Hw'. unfold write_back.
  destruct (text_eqb computed original) eqn:E; cbn [negb fst snd].
  - apply text_eqb_eq in E. repeat split; try congruence; auto.
  - apply text_eqb_neq in E. repeat split; try congruence; auto.
    cbn. now rewrite Hf.
Qed.

Lemma writes_none (w : world) : writes w w = [].
Proof. unfold writes, new_events. now rewrite skipn_all. Qed.

Lemma writes_two_reads (p q : path) (w : world) :
  writes w (after_read q (after_read p w)) = [].
Proof.
  unfold writes, new_events. cbn [trace after_read].
  now rewrite <- app_assoc, skipn_length_app.
Qed.

Lemma writes_one_read (p : path) (w : world) : writes w (after_read p w) = [].
Proof.
  unfold writes, new_events. cbn [trace after_read].
  now rewrite skipn_length_app.
Qed.

(** A run of the requirements synchronizer that does not return [True]
    wrote nothing. *)
Lemma sync_to_pyproject_quiet (w : world) :
  let out := sync_to_pyproject PyprojectToml RequirementsTxt
               RequirementsDevTxt w in
  fst out <> Ok true ->
  files (snd out) = files w /\ writes w (snd out) = [].
Proof.
  destruct (files w PyprojectToml) as [raw|] eqn:Hp.
  - rewrite (sync_to_pyproject_run _ RequirementsTxt RequirementsDevTxt _ _ Hp).
    cbn zeta.
    destruct (synced_content _ _ _) as [c|];
      [destruct (negb (text_eqb c (universal_newlines raw)))|];
      cbn [fst snd]; intros H; try congruence;
      (split; [apply files_after_reads | apply writes_after_reads]).
  - rewrite (sync_to_pyproject_missing _ _ _ _ Hp). cbn [fst snd].
    intros _. split; [reflexivity | apply writes_none].
Qed.

(** So did a run of the version synchronizer. *)
Lemma sync_version_quiet (w : world) :
  let out := sync_version PyprojectToml InitPy w in
  fst out <> Ok true ->
  files (snd out) = files w /\ writes w (snd out) = [].
Proof.
  destruct (files w PyprojectToml) as [raw|] eqn:Hp.
  - rewrite (sync_version_run _ InitPy _ _ Hp).
    destruct (truthy _) as [v|].
    + destruct (files w InitPy) as [iraw|].
      * cbn zeta.
        destruct (Re.sub _ _ _) as [c|];
          [destruct (negb (text_eqb c (universal_newlines iraw)))|];
          cbn [fst snd]; intros H; try congruence;
          (split; [reflexivity | apply writes_two_reads]).
      * cbn [fst snd]. intros _. split; [reflexivity | apply writes_one_read].
    + cbn [fst snd]. intros _. split; [reflexivity|].
      unfold writes, new_events. cbn. now rewrite skipn_length_app.
  - rewrite (sync_version_missing _ _ _ Hp). cbn [fst snd].
    intros _. split; [reflexivity | apply writes_none].
Qed.

(** C6. Each synchronizer writes its target file exactly when the content
    it computed differs, as text, from the content it read; the boolean it
    returns is that same difference; and when the two are equal the files
    are as they were and no write took place.  A run that computes no
    content, because a file is missing, the version is not found or the
    template is refused, does not return [True] and writes nothing. *)
Theorem write_back_policy (w : world) :
  (forall raw computed,
     files w PyprojectToml = Some raw ->
     synced_content (universal_newlines raw)
       (entries_of (files w RequirementsTxt))
       (entries_of (files w RequirementsDevTxt)) = Some computed ->
     write_back PyprojectToml (universal_newlines raw) computed w
       (sync_to_pyproject PyprojectToml RequirementsTxt RequirementsDevTxt w))
  /\ (forall raw iraw version computed,
        files w PyprojectToml = Some raw ->
        files w InitPy = Some iraw ->
        extract_version (universal_newlines raw) = Some version ->
        Re.sub init_pattern (init_replacement version)
          (universal_newlines iraw) = Some computed ->
        write_back InitPy (universal_newlines iraw) computed w
          (sync_version PyprojectToml InitPy w))
  /\ (let out := sync_to_pyproject PyprojectToml RequirementsTxt
                   RequirementsDevTxt w in
      fst out <> Ok true ->
      files (snd out) = files w /\ writes w (snd out) = [])
  /\ (let out := sync_version PyprojectToml InitPy w in
      fst out <> Ok true ->
      files (snd out) = files w /\ writes w (snd out) = []).
Proof.
  split; [|split; [|split]].
  - intros raw computed Hp Hc.
    rewrite (sync_to_pyproject_run _ RequirementsTxt RequirementsDevTxt _ _ Hp).
    cbn zeta. rewrite Hc. apply write_back_holds.
    + apply files_after_reads.
    + apply writes_after_reads.
    + apply writes_after_write.
  - intros raw iraw version computed Hp Hi Hv Hc.
    rewrite (sync_version_run _ InitPy _ _ Hp), truthy_extract, Hv, Hi.
    cbn zeta. rewrite Hc. apply write_back_holds.
    + reflexivity.
    + apply writes_two_reads.
    + unfold writes, new_events. cbn [trace after_read after_write].
      rewrite <- !app_assoc, skipn_length_app. reflexivity.
  - apply sync_to_pyproject_quiet.
  - apply sync_version_quiet.
Qed.

(** C6 on the example of the specification: both files are rewritten,
    each with what its synchronizer computed. *)
Lemma write_back_policy_witness :
  write_back PyprojectToml Examples.pyproject_old Examples.pyproject_new
    Examples.example_world
    (sync_to_pyproject PyprojectToml RequirementsTxt RequirementsDevTxt
       Examples.example_world)
  /\ write_back InitPy Examples.init_old Examples.init_new
       Examples.example_world
       (sync_version PyprojectToml InitPy Examples.example_world)
  /\ writes Examples.group_ref_world
       (snd (sync_version PyprojectToml InitPy Examples.group_ref_world)) = []
  /\ writes (world_of None None None None)
       (snd (sync_to_pyproject PyprojectToml RequirementsTxt RequirementsDevTxt
               (world_of None None None None))) = [].
Proof.
  split; [|split; [|split]].
  - apply (proj1 (write_back_policy Examples.example_world)
             Examples.pyproject_old Examples.pyproject_new);
      vm_compute; reflexivity.
  - apply (proj1 (proj2 (write_back_policy Examples.example_world))
             Examples.pyproject_old Examples.init_old (lit "1.2.3")
             Examples.init_new);
      vm_compute; reflexivity.
  - apply (proj2 (proj2 (proj2 (write_back_policy Examples.group_ref_world)))).
    vm_compute. discriminate.
  - apply (proj1 (proj2 (proj2 (write_back_policy
                                  (world_of None None None None))))).
    vm_compute. discriminate.
Defined.

Lemma line_suffixes_complete (pre aft : text) :
  line_start pre -> In aft (line_suffixes true (pre ++ aft)).
Proof.
  assert (G : forall pre here,
             (pre = [] -> here = true) ->
             (forall p, pre = p ++ [NL] -> True) ->
             (pre = [] \/ exists p, pre = p ++ [NL]) ->
             In aft (line_suffixes here (pre ++ aft))).
  { clear pre. induction pre as [|c pre IH]; intros here H0 _ Hs.
    - rewrite (H0 eq_refl). destruct aft; simpl; now left.
    - simpl. apply in_or_app. right. apply IH; auto.
      + intros ->. destruct Hs as [Hs|[p Hs]]; [discriminate|].
        destruct p as [|d p]; [injection Hs as ->; reflexivity|].
        injection Hs as _ Hs. now destruct p.
      + destruct Hs as [Hs|[p Hs]]; [discriminate|].
        destruct p as [|d p]; [injection Hs as _ <-; now left|].
        injection Hs as _ ->. right. eauto. }
  intros H. apply G; auto.
Qed.

Lemma spaces_split (ws ws' : text) (c c' : char) (x x' : text) :
  spaces ws = true -> spaces ws' = true ->
  isspace c = false -> isspace c' = false ->
  ws ++ c :: x = ws' ++ c' :: x' -> ws = ws' /\ c = c' /\ x = x'.
Proof.
  revert ws'; induction ws as [|a ws IH]; intros [|a' ws'] Hs Hs' Hc Hc' E;
    simpl in *.
  - injection E as -> ->. auto.
  - injection E as -> _. apply andb_true_iff in Hs' as [Hs' _]. congruence.
  - injection E as -> _. apply andb_true_iff in Hs as [Hs _]. congruence.
  - injection E as -> E. apply andb_true_iff in Hs as [_ Hs].
    apply andb_true_iff in Hs' as [_ Hs'].
    destruct (IH ws' Hs Hs' Hc Hc' E) as (-> & -> & ->). auto.
Qed.

Lemma no_version_here_excludes (aft : text) (ws1 ws2 v post : text) :
  no_version_here aft -> spaces ws1 = true -> spaces ws2 = true -> usable v ->
  aft <> lit "version" ++ ws1 ++ lit "=" ++ ws2 ++ [DQ] ++ v ++ [DQ] ++ post.
Proof.
  intros [Hn|(w1 & w2 & tail & E & H1 & H2 & Ht)] Hs1 Hs2 [Hne Hq] ->.
  - now rewrite startswith_app in Hn.
  - apply app_inv_head in E.
    apply spaces_split in E as (<- & _ & E); auto.
    destruct Ht as [Ht|Ht]; apply startswith_iff in Ht as [r ->];
      apply spaces_split in E as (_ & E0 & E); auto.
    + destruct v as [|q v]; [congruence|]. injection E as -> _.
      apply Hq. now left.
    + discriminate.
Qed.

Lemma at_line_starts_no_version (content : text) :
  at_line_starts no_version_here content -> no_version content.
Proof.
  intros H v Hv (pre & ws1 & ws2 & post & -> & Hpre & H1 & H2).
  unfold at_line_starts in H. rewrite Forall_forall in H.
  specialize (H _ (line_suffixes_complete _ _ Hpre)).
  now apply (@no_version_here_excludes _ ws1 ws2 v post H H1 H2 Hv).
Qed.

(** C10. Extraction returns a version only for an assignment at the start
    of a line whose value is in double quotes and not empty.  In a
    configuration document where each line either does not begin with
    [version] or assigns the empty string or a single-quoted value,
    extraction returns nothing, and [sync_version] reports the version as
    not found and returns [False], having read the configuration file and
    nothing else, and written nothing. *)
Theorem version_needs_double_quoted_value :
  (forall content v,
     extract_version content = Some v ->
     version_assignment content v /\ usable v)
  /\ (forall content,
        at_line_starts no_version_here content ->
        extract_version content = None
        /\ forall w raw,
            files w PyprojectToml = Some raw ->
            universal_newlines raw = content ->
            sync_version PyprojectToml InitPy w =
              (Ok false, after_eprint not_found_msg (after_read PyprojectToml w))
            /\ new_events w
                 (after_eprint not_found_msg (after_read PyprojectToml w)) =
               [EvRead PyprojectToml]).
Proof.
  split; [apply extract_version_sound|].
  intros content H. apply at_line_starts_no_version in H.
  apply extract_version_none in H. split; [exact H|].
  intros w raw Hp <-.
  rewrite (@sync_version_run _ InitPy _ _ Hp), truthy_extract, H.
  split; [reflexivity|]. unfold new_events. cbn. apply skipn_length_app.
Qed.

Ltac line_starts_of doc :=
  unfold at_line_starts;
  let l := eval vm_compute in (line_suffixes true doc) in
  change (Forall no_version_here l).

(** C10 on the example of the specification, whose version is found, and
    on a document with an empty value and one with a single-quoted
    value. *)
Lemma version_needs_double_quoted_value_witness :
  (version_assignment Examples.pyproject_old (lit "1.2.3")
   /\ usable (lit "1.2.3"))
  /\ extract_version Examples.pyproject_empty_version = None
  /\ sync_version PyprojectToml InitPy
       (world_of (Some Examples.pyproject_empty_version) None None
          (Some Examples.init_old)) =
     (Ok false,
      after_eprint not_found_msg
        (after_read PyprojectToml
           (world_of (Some Examples.pyproject_empty_version) None None
              (Some Examples.init_old))))
  /\ extract_version Examples.pyproject_single_quoted = None.
Proof.
  assert (He : at_line_starts no_version_here Examples.pyproject_empty_version).
  { line_starts_of Examples.pyproject_empty_version.
    constructor; [left; reflexivity|].
    constructor; [|constructor; [left; reflexivity | constructor]].
    right. exists [SP], [SP], [DQ; DQ; NL]. repeat split. now left. }
  assert (Hs : at_line_starts no_version_here Examples.pyproject_single_quoted).
  { line_starts_of Examples.pyproject_single_quoted.
    constructor; [|constructor].
    right. exists [SP], [SP], (lit "'1.0'"). repeat split. now right. }
  split; [|split; [|split]].
  - apply (proj1 version_needs_double_quoted_value). vm_compute. reflexivity.
  - apply (proj2 version_needs_double_quoted_value _ He).
  - apply (proj2 (proj2 version_needs_double_quoted_value _ He)
             (world_of (Some Examples.pyproject_empty_version) None None
                (Some Examples.init_old)) Examples.pyproject_empty_version);
      reflexivity.
  - apply (proj2 version_needs_double_quoted_value _ Hs).
Defined.

Lemma array_search label content st :
  Re.search (array_pattern label) content = Some st ->
  array_region label (group 1 st) (group 0 st) /\ group 0 st <> [].
Proof.
  intros H. apply search_from_sound in H as (sk & aft0 & _ & H).
  apply array_match_here in H as (Hr & Hne & _). auto.
Qed.

(** The template of an array whose entries have no backslash: group 1, a
    line break, the formatted entries, a line break and the closing
    bracket. *)
Lemma parse_group_1 (t : text) :
  parse_template 3 None ([BSL; 49; NL] ++ t) =
  addgroup 3 1 (parse_template 3 None ([NL] ++ t)).
Proof. reflexivity. Qed.

Lemma array_items_plain label deps :
  has_backslash (format_dependencies deps 4) = false ->
  array_items label deps =
    Some (TGroup 1 ::
          List.map TChar ([NL] ++ format_dependencies deps 4 ++ [NL; RBRACKET])).
Proof.
  intros H. unfold array_items, compile_repl, array_replacement.
  change (ngroups (array_pattern label)) with 3%nat.
  change (has_backslash ([BSL; 49; NL] ++ format_dependencies deps 4
                         ++ [NL; RBRACKET])) with true.
  cbn iota. rewrite parse_group_1, parse_plain; [reflexivity|].
  rewrite !has_backslash_app, H. reflexivity.
Qed.

(** C2, as the code has it.  Where the pattern of a label has a match in
    the configuration document, the synchronizer exchanges the leftmost
    one, a region of the array, for its replacement, keeps the text before
    it, and goes on over the text behind it as over a document of its own:
    every further occurrence there is rewritten in the same way, not only
    the first of the document.  With entries free of backslashes the
    replacement is the head of the region, a line break, the formatted
    entries, a line break and the closing bracket. *)
Theorem every_occurrence_rewritten (label : text) (deps : list text)
  (content : text) (st : mstate) (items : list titem) :
  deps <> [] ->
  Re.search (array_pattern label) content = Some st ->
  array_items label deps = Some items ->
  (exists pre rest',
      content = pre ++ group 0 st ++ after st
      /\ array_region label (group 1 st) (group 0 st)
      /\ update_array label deps (after st) = Some rest'
      /\ update_array label deps content =
         Some (pre ++ expand items st ++ rest'))
  /\ (has_backslash (format_dependencies deps 4) = false ->
      expand items st =
        group 1 st ++ [NL] ++ format_dependencies deps 4 ++ [NL; RBRACKET]).
Proof.
  intros Hd Hs Hi. split.
  - destruct (array_search _ _ _ Hs) as [Hr _].
    assert (Hu : forall c, update_array label deps c =
                           Some (sub_loop (array_pattern label) items [] O c)).
    { intros c. unfold update_array, Re.sub.
      destruct deps; [congruence|]. cbn [is_empty negb].
      unfold array_items in Hi. now rewrite Hi. }
    unfold Re.search in Hs.
    assert (Hne : forall ma bef aft st',
               match_here (array_pattern label) ma bef aft = Some st' ->
               group 0 st' <> []).
    { intros ma bef aft st' H. now apply array_match_here in H. }
    destruct (sub_loop_search (array_pattern label) items Hne _ _ _ Hs)
      as (pre & E & Es).
    exists pre, (sub_loop (array_pattern label) items [] O (after st)).
    repeat split; auto.
    rewrite Hu, Es.
    now rewrite (sub_loop_same (array_pattern label) items eq_refl
                   (after st) (before st) [] O).
  - intros Hb. rewrite (array_items_plain label deps Hb) in Hi.
    injection Hi as <-. cbn [expand]. now rewrite expand_chars.
Qed.

(** C2, as the specification words it, fails on a document with the array
    twice: both occurrences are rewritten. *)
Lemma first_occurrence_only_counterexample :
  update_array (lit "dependencies") [lit "new==2"] Examples.two_arrays =
    Some Examples.two_arrays_synced
  /\ ~ first_occurrence_only (lit "dependencies") [lit "new==2"]
        Examples.two_arrays.
Proof.
  split; [vm_compute; reflexivity|].
  intros H.
  destruct (Re.search (array_pattern (lit "dependencies")) Examples.two_arrays)
    as [st|] eqn:Es; [|vm_compute in Es; discriminate].
  destruct (array_items (lit "dependencies") [lit "new==2"])
    as [items|] eqn:Ei; [|vm_compute in Ei; discriminate].
  destruct (H st items Es Ei) as (pre & E & U).
  vm_compute in Es. injection Es as <-.
  vm_compute in Ei. injection Ei as <-.
  vm_compute in E. vm_compute in U.
  apply (app_inv_tail _ [] pre) in E. subst pre. discriminate U.
Qed.

(** The amended C2 on the same document: the result is the document with
    both arrays rewritten. *)
Lemma every_occurrence_rewritten_witness :
  update_array (lit "dependencies") [lit "new==2"] Examples.two_arrays =
    Some Examples.two_arrays_synced.
Proof.
  destruct (Re.search (array_pattern (lit "dependencies")) Examples.two_arrays)
    as [st|] eqn:Es; [|vm_compute in Es; discriminate].
  destruct (array_items (lit "dependencies") [lit "new==2"])
    as [items|] eqn:Ei; [|vm_compute in Ei; discriminate].
  assert (Hd : [lit "new==2"] <> []) by discriminate.
  destruct (proj1 (every_occurrence_rewritten _ _ _ st items Hd Es Ei))
    as (pre & rest' & E & _ & Er & ->).
  vm_compute in Es. injection Es as <-.
  vm_compute in Ei. injection Ei as <-.
  vm_compute in Er. injection Er as <-.
  vm_compute in E. apply (app_inv_tail _ [] pre) in E. subst pre.
  vm_compute. reflexivity.
Defined.

Lemma init_replacement_plain (v : text) :
  has_backslash v = false -> has_backslash (init_replacement v) = false.
Proof.
  intros H. unfold init_replacement. rewrite !has_backslash_app, H.
  reflexivity.
Qed.

Lemma sub_synced (v content out : text) :
  has_backslash v = false -> Synced v content out ->
  Re.sub init_pattern (init_replacement v) content = Some out.
Proof.
  intros Hv Hs. unfold Re.sub.
  rewrite (compile_plain _ _ (init_replacement_plain v Hv)).
  now rewrite (synced_loop v content out Hs [] eq_refl).
Qed.

(** C7, as the specification words it, fails on a line whose quoted
    string is empty: the pattern asks for at least one character between
    the quotes, and the line stays. *)
Lemma empty_quoted_line_counterexample :
  Re.sub init_pattern (init_replacement (lit "1.2.3"))
    (lit "__version__ = " ++ [DQ; DQ]) =
    Some (lit "__version__ = " ++ [DQ; DQ])
  /\ ~ every_quoted_line_replaced.
Proof.
  split; [vm_compute; reflexivity|].
  intros H.
  specialize (H (lit "1.2.3") (lit "__version__ = " ++ [DQ; DQ])).
  assert (Hq : quoted_line (lit "__version__ = " ++ [DQ; DQ])).
  { exists [SP], [SP], [], []. repeat split. intros []. }
  assert (Hn : ~ In NL (lit "__version__ = " ++ [DQ; DQ])).
  { vm_compute. intuition discriminate. }
  specialize (H Hq Hn). vm_compute in H. discriminate H.
Qed.

(** C3. The entries are put into the replacement template of [re.sub] as
    they are, and a template reads a backslash as the start of an escape.
    With the entry [a], backslash, [n], closing bracket, the first run
    writes a line break and a bracket into the array, which the second run
    takes for the end of the array: the second run changes the document
    again and reports a change, where the specification promises the same
    bytes and no change.  An entry with an escape the template refuses,
    as a Windows path has, ends every run with an exception. *)
Theorem unescaped_entry_breaks_idempotence :
  let w1 := snd (sys_exit SyncRequirements.main Examples.escape_world) in
  let w2 := snd (sys_exit SyncRequirements.main w1) in
  entries_of (Some Examples.requirements_escape) = [lit "a\n]"]
  /\ files w1 PyprojectToml = Some Examples.escape_once
  /\ files w2 PyprojectToml = Some Examples.escape_twice
  /\ Examples.escape_once <> Examples.escape_twice
  /\ stdout w2 = ["Synced requirements to pyproject.toml"%string;
                  "Synced requirements to pyproject.toml"%string]
  /\ fst (sys_exit SyncRequirements.main
            (world_of (Some Examples.pyproject_old)
               (Some Examples.requirements_path) None None)) = 1%nat.
Proof. vm_compute. repeat split. discriminate. Qed.

(** C9. The version is put into the replacement template of [re.sub] as it
    is.  With two assignment lines in the initializer and the version
    [1], two backslashes, [2] in the configuration document, every line
    is exchanged, but for a line that holds one backslash, not the
    version that was extracted; with the version [1], backslash, [2] the
    template is refused, the run ends with an exception and exit code 1,
    and no line is exchanged. *)
Theorem backslash_version_not_canonical :
  extract_version Examples.pyproject_backslash = Some (lit "1\\2")
  /\ Re.sub init_pattern (init_replacement (lit "1\\2")) Examples.init_twice =
     Some Examples.init_twice_expanded
  /\ files (snd (sys_exit SyncVersion.main Examples.backslash_world)) InitPy =
     Some Examples.init_twice_expanded
  /\ Examples.init_twice_expanded <>
     init_replacement (lit "1\\2") ++ [NL]
     ++ init_replacement (lit "1\\2") ++ [NL]
  /\ extract_version Examples.pyproject_group_ref = Some (lit "1\2")
  /\ Re.sub init_pattern (init_replacement (lit "1\2")) Examples.init_twice =
     None
  /\ fst (sys_exit SyncVersion.main Examples.group_ref_world) = 1%nat
  /\ files (snd (sys_exit SyncVersion.main Examples.group_ref_world)) InitPy =
     Some Examples.init_twice.
Proof. vm_compute. repeat split. discriminate. Qed.

End Properties.

(* ================================================================= *)
(** ** The entry points *)

Section EntryPoints.
Import SyncRequirements SyncVersion.
Import RequirementsFacts RunFacts VersionFacts VersionComplete.

Local Open Scope N_scope.

(** [main] of the requirements script, on every world. *)
Lemma requirements_main_run (w : world) :
  sys_exit SyncRequirements.main w =
    match files w PyprojectToml with
    | None => (1%nat, after_eprint "Error: pyproject.toml not found" w)
    | Some raw =>
        let w3 := after_reads PyprojectToml RequirementsTxt
                    RequirementsDevTxt w in
        match synced_content (universal_newlines raw)
                (entries_of (files w RequirementsTxt))
                (entries_of (files w RequirementsDevTxt)) with
        | None => (1%nat, after_traceback w3)
        | Some computed =>
            if negb (text_eqb computed (universal_newlines raw))
            then (0%nat,
                  after_print "Synced requirements to pyproject.toml"
                    (after_write PyprojectToml computed w3))
            else (0%nat, after_print "pyproject.toml already in sync" w3)
        end
    end.
Proof.
  unfold sys_exit, SyncRequirements.main. rewrite bind_run.
  destruct (files w PyprojectToml) as [raw|] eqn:Hp.
  - rewrite (path_exists_some _ _ _ Hp). cbn [negb].
    rewrite bind_run,
      (sync_to_pyproject_run _ RequirementsTxt RequirementsDevTxt _ _ Hp).
    cbn zeta.
    destruct (synced_content _ _ _) as [c|]; [|reflexivity].
    destruct (negb (text_eqb c (universal_newlines raw))); reflexivity.
  - rewrite (path_exists_none _ _ Hp). reflexivity.
Qed.

(** [main] of the version script, on every world. *)
Lemma version_main_run (w : world) :
  sys_exit SyncVersion.main w =
    match files w PyprojectToml, files w InitPy with
    | None, _ => (1%nat, after_eprint "Error: pyproject.toml not found" w)
    | Some _, None =>
        (1%nat, after_eprint "Error: src/lango/__init__.py not found" w)
    | Some raw, Some iraw =>
        let w1 := after_read PyprojectToml w in
        match extract_version (universal_newlines raw) with
        | None =>
            (0%nat,
             after_print "__version__ already in sync"
               (after_eprint not_found_msg w1))
        | Some version =>
            let w2 := after_read InitPy w1 in
            match Re.sub init_pattern (init_replacement version)
                    (universal_newlines iraw) with
            | None => (1%nat, after_traceback w2)
            | Some computed =>
                if negb (text_eqb computed (universal_newlines iraw))
                then (0%nat,
                      after_print "Synced __version__ from pyproject.toml"
                        (after_write InitPy computed w2))
                else (0%nat, after_print "__version__ already in sync" w2)
            end
        end
    end.
Proof.
  unfold sys_exit, SyncVersion.main. rewrite bind_run.
  destruct (files w PyprojectToml) as [raw|] eqn:Hp.
  - rewrite (path_exists_some _ _ _ Hp). cbn [negb]. rewrite bind_run.
    destruct (files w InitPy) as [iraw|] eqn:Hi.
    + rewrite (path_exists_some _ _ _ Hi). cbn [negb].
      rewrite bind_run, (sync_version_run _ InitPy _ _ Hp), truthy_extract, Hi.
      destruct (extract_version (universal_newlines raw)) as [v|];
        [|reflexivity].
      cbn zeta.
      destruct (Re.sub _ _ _) as [c|]; [|reflexivity].
      destruct (negb (text_eqb c (universal_newlines iraw))); reflexivity.
    + rewrite (path_exists_none _ _ Hi). reflexivity.
  - rewrite (path_exists_none _ _ Hp). reflexivity.
Qed.

(** X1. The requirements script ends with exit code 0 exactly when
    [pyproject.toml] exists and [re.sub] accepts both templates, whether or
    not the file changed; otherwise with 1.  Without [pyproject.toml] it
    prints one error line and touches no file, not even to read; on a run
    that ends with 0 it prints one line on the output stream and nothing
    on the error stream. *)
Theorem requirements_exit_code (w : world) :
  let out := sys_exit SyncRequirements.main w in
  (fst out = 0%nat \/ fst out = 1%nat)
  /\ (fst out = 0%nat <->
      exists raw computed,
        files w PyprojectToml = Some raw
        /\ synced_content (universal_newlines raw)
             (entries_of (files w RequirementsTxt))
             (entries_of (files w RequirementsDevTxt)) = Some computed)
  /\ (files w PyprojectToml = None ->
      snd out = after_eprint "Error: pyproject.toml not found" w)
  /\ (fst out = 0%nat ->
      stderr (snd out) = stderr w
      /\ exists msg, stdout (snd out) = stdout w ++ [msg]).
Proof.
  cbn zeta. rewrite requirements_main_run.
  destruct (files w PyprojectToml) as [raw|] eqn:Hp.
  - cbn zeta.
    destruct (synced_content _ _ _) as [c|] eqn:Hc.
    + destruct (negb (text_eqb c (universal_newlines raw))); cbn [fst snd];
        (split; [now left|]); (split; [split; eauto|]);
        (split; [discriminate|]); intros _;
        (split;
         [cbn; unfold after_reads; now rewrite !stderr_after_parse
         |eexists; cbn; unfold after_reads; rewrite !stdout_after_parse;
          reflexivity]).
    + cbn [fst snd]. split; [now right|]. split.
      * split; [discriminate|]. intros (raw' & c & [= <-] & H). congruence.
      * split; [discriminate|]. discriminate.
  - cbn [fst snd]. split; [now right|]. split.
    + split; [discriminate|]. intros (raw' & c & H & _). discriminate.
    + split; [reflexivity|]. discriminate.
Qed.

(** X2. The version script ends with exit code 0 exactly when both files
    exist and either no version is found or [re.sub] accepts the template;
    otherwise with 1.  Without the initializer it prints one error line
    and reads nothing, not even [pyproject.toml]. *)
Theorem version_exit_code (w : world) :
  let out := sys_exit SyncVersion.main w in
  (fst out = 0%nat \/ fst out = 1%nat)
  /\ (fst out = 0%nat <->
      exists raw iraw,
        files w PyprojectToml = Some raw /\ files w InitPy = Some iraw
        /\ (extract_version (universal_newlines raw) = None
            \/ exists version computed,
                 extract_version (universal_newlines raw) = Some version
                 /\ Re.sub init_pattern (init_replacement version)
                      (universal_newlines iraw) = Some computed))
  /\ (files w PyprojectToml = None ->
      snd out = after_eprint "Error: pyproject.toml not found" w)
  /\ (forall raw,
        files w PyprojectToml = Some raw -> files w InitPy = None ->
        snd out = after_eprint "Error: src/lango/__init__.py not found" w).
Proof.
  cbn zeta. rewrite version_main_run.
  destruct (files w PyprojectToml) as [raw|] eqn:Hp;
    [destruct (files w InitPy) as [iraw|] eqn:Hi|].
  - cbn zeta.
    destruct (extract_version (universal_newlines raw)) as [v|] eqn:Hv.
    + destruct (Re.sub _ _ _) as [c|] eqn:Hc.
      * destruct (negb (text_eqb c (universal_newlines iraw)));
          cbn [fst snd]; (split; [now left|]);
          (split; [split; [intros _; exists raw, iraw; eauto 8 | reflexivity]
                  |split; [discriminate | discriminate]]).
      * cbn [fst snd]. split; [now right|]. split.
        -- split; [discriminate|].
           intros (r & i & [= <-] & [= <-] & [H|(v' & c & H1 & H2)]);
             congruence.
        -- split; discriminate.
    + cbn [fst snd]. split; [now left|]. split.
      * split; [intros _; exists raw, iraw; auto | reflexivity].
      * split; discriminate.
  - cbn [fst snd]. split; [now right|]. split.
    + split; [discriminate|]. intros (r & i & _ & H & _). discriminate.
    + split; [discriminate|]. reflexivity.
  - cbn [fst snd]. split; [now right|]. split.
    + split; [discriminate|]. intros (r & i & H & _). discriminate.
    + split; [reflexivity|]. discriminate.
Qed.

Lemma new_events_app (w : world) (l : list event) (w' : world) :
  trace w' = trace w ++ l -> new_events w w' = l.
Proof. intros H. unfold new_events. rewrite H. apply skipn_length_app. Qed.

Lemma trace_after_reads (pp rp dp : path) (w : world) :
  exists l,
    trace (after_reads pp rp dp w) = trace w ++ l
    /\ Forall (fun e => write_target e = None) l.
Proof.
  unfold after_reads. rewrite !trace_after_parse. cbn [trace after_read].
  rewrite files_after_parse. cbn [files after_read].
  rewrite <- !app_assoc. eexists. split; [reflexivity|].
  destruct (files w rp), (files w dp); repeat constructor.
Qed.

Ltac events :=
  repeat (apply Forall_cons; [first [now left | now right]|]);
  apply Forall_nil.

(** X3. Neither script ever touches a file that is not its target: after
    any run of the requirements script every file but [pyproject.toml] is
    as it was, every write that took place was to [pyproject.toml], and no
    file that existed is gone; the same holds of the version script and
    the initializer. *)
Theorem only_target_written (w : world) :
  (let out := sys_exit SyncRequirements.main w in
   (forall q, q <> PyprojectToml -> files (snd out) q = files w q)
   /\ (forall q, files w q <> None -> files (snd out) q <> None)
   /\ Forall (fun e => write_target e = None
                       \/ write_target e = Some PyprojectToml)
        (new_events w (snd out)))
  /\ (let out := sys_exit SyncVersion.main w in
      (forall q, q <> InitPy -> files (snd out) q = files w q)
      /\ (forall q, files w q <> None -> files (snd out) q <> None)
      /\ Forall (fun e => write_target e = None
                          \/ write_target e = Some InitPy)
           (new_events w (snd out))).
Proof.
  assert (U : forall (fs : path -> option text) p c q,
             q <> p -> update fs p c q = fs q).
  { intros fs p c q H. unfold update.
    destruct q, p; try reflexivity; congruence. }
  assert (V : forall (fs : path -> option text) p c q,
             fs q <> None -> update fs p c q <> None).
  { intros fs p c q H. unfold update. destruct (path_eqb q p); congruence. }
  assert (F : forall (p : path) (l : list event),
             Forall (fun e => write_target e = None) l ->
             Forall (fun e => write_target e = None
                              \/ write_target e = Some p) l).
  { intros p l H. eapply Forall_impl; [|exact H]. intros e He. now left. }
  split; cbn zeta.
  - rewrite requirements_main_run.
    destruct (trace_after_reads PyprojectToml RequirementsTxt
                RequirementsDevTxt w) as (l & Hl & Hr).
    pose proof (files_after_reads PyprojectToml RequirementsTxt
                  RequirementsDevTxt w) as Hf.
    destruct (files w PyprojectToml) as [raw|].
    + cbn zeta. destruct (synced_content _ _ _) as [c|];
        [destruct (negb (text_eqb c (universal_newlines raw)))|];
        cbn [fst snd after_print after_write after_traceback files trace];
        rewrite ?Hf.
      * split; [intros q Hq; now apply U|]. split; [intros q; apply V|].
        rewrite (new_events_app w (l ++ [EvWrite PyprojectToml c]));
          [|cbn; now rewrite Hl, <- app_assoc].
        apply Forall_app. split; [now apply F|].
        constructor; [now right | constructor].
      * split; [reflexivity|]. split; [auto|].
        rewrite (new_events_app w l) by exact Hl. now apply F.
      * split; [reflexivity|]. split; [auto|].
        rewrite (new_events_app w l) by exact Hl. now apply F.
    + cbn [fst snd after_eprint files trace]. split; [reflexivity|].
      split; [auto|]. rewrite (new_events_app w []); [constructor|].
      cbn. now rewrite app_nil_r.
  - rewrite version_main_run.
    destruct (files w PyprojectToml) as [raw|];
      [destruct (files w InitPy) as [iraw|]|].
    + cbn zeta. destruct (extract_version _) as [v|].
      * destruct (Re.sub _ _ _) as [c|];
          [destruct (negb (text_eqb c (universal_newlines iraw)))|];
          cbn [fst snd after_print after_write after_traceback after_read
                 files trace].
        -- split; [intros q Hq; now apply U|]. split; [intros q; apply V|].
           rewrite (new_events_app w
                      [EvRead PyprojectToml; EvRead InitPy; EvWrite InitPy c]);
             [|cbn; rewrite <- ?app_assoc; reflexivity].
           events.
        -- split; [reflexivity|]. split; [auto|].
           rewrite (new_events_app w [EvRead PyprojectToml; EvRead InitPy]);
             [|cbn; rewrite <- ?app_assoc; reflexivity].
           events.
        -- split; [reflexivity|]. split; [auto|].
           rewrite (new_events_app w [EvRead PyprojectToml; EvRead InitPy]);
             [|cbn; rewrite <- ?app_assoc; reflexivity].
           events.
      * cbn [fst snd after_print after_eprint after_read files trace].
        split; [reflexivity|]. split; [auto|].
        rewrite (new_events_app w [EvRead PyprojectToml]); [|reflexivity].
        events.
    + cbn [fst snd after_eprint files trace]. split; [reflexivity|].
      split; [auto|]. rewrite (new_events_app w []); [constructor|].
      cbn. now rewrite app_nil_r.
    + cbn [fst snd after_eprint files trace]. split; [reflexivity|].
      split; [auto|]. rewrite (new_events_app w []); [constructor|].
      cbn. now rewrite app_nil_r.
Qed.

End EntryPoints.

(* ================================================================= *)
(** ** Lines and trimming *)

Module LineFacts.

Local Open Scope N_scope.

Lemma splitlines_from_unbroken (l cur rest : text) :
  unbroken l = true ->
  splitlines_from cur (l ++ rest) = splitlines_from (rev l ++ cur) rest.
Proof.
  revert cur; induction l as [|c l IH]; intros cur H; [reflexivity|].
  unfold unbroken in H. simpl in H. apply andb_true_iff in H as [Hc Hl].
  apply negb_true_iff in Hc. simpl. rewrite Hc, (IH _ Hl), <- app_assoc.
  reflexivity.
Qed.

Lemma splitlines_from_nl (cur rest : text) :
  splitlines_from cur (NL :: rest) = rev cur :: splitlines_from [] rest.
Proof. simpl. destruct rest; reflexivity. Qed.

(** Lines that are not empty and hold no line break, joined by line
    feeds, split back into themselves. *)
Lemma splitlines_join (ls : list text) :
  Forall (fun l => l <> [] /\ unbroken l = true) ls ->
  splitlines (join [NL] ls) = ls.
Proof.
  unfold splitlines. induction 1 as [|l ls [Hne Hu] Hls IH]; [reflexivity|].
  destruct ls as [|l' ls].
  - simpl. rewrite <- (app_nil_r l) at 1.
    rewrite (splitlines_from_unbroken l [] [] Hu), app_nil_r. simpl.
    destruct (rev l) eqn:E; [|now rewrite <- E, rev_involutive].
    apply (f_equal (@rev _)) in E. rewrite rev_involutive in E. contradiction.
  - change (join [NL] (l :: l' :: ls)) with (l ++ NL :: join [NL] (l' :: ls)).
    rewrite (splitlines_from_unbroken l [] _ Hu), splitlines_from_nl.
    now rewrite IH, app_nil_r, rev_involutive.
Qed.

(** Every line [str.splitlines] returns is without line break. *)
Lemma splitlines_from_unbroken_all (s cur : text) :
  unbroken cur = true ->
  Forall (fun l => unbroken l = true) (splitlines_from cur s).
Proof.
  assert (R : forall c, unbroken c = true -> unbroken (rev c) = true).
  { intros c H. unfold unbroken in *. rewrite forallb_forall in *.
    intros x Hx. apply H. now apply in_rev. }
  remember (length s) as n eqn:Hn. revert s cur Hn.
  induction n as [n IH] using lt_wf_ind. intros s cur Hn Hc.
  destruct s as [|c s]; simpl.
  - destruct cur; [constructor|]. constructor; [now apply R | constructor].
  - destruct (is_linebreak c) eqn:Hb.
    + constructor; [now apply R|].
      destruct s as [|d s]; [constructor|].
      destruct ((c =? CR) && (d =? NL)).
      * apply (IH (length s)); [subst n; simpl; lia | reflexivity | reflexivity].
      * apply (IH (length (d :: s)));
          [subst n; simpl; lia | reflexivity | reflexivity].
    + apply (IH (length s)); [subst n; simpl; lia | reflexivity|].
      unfold unbroken in *. simpl. now rewrite Hb, Hc.
Qed.

Lemma dropwhile_incl (f : char -> bool) (s : text) (c : char) :
  In c (dropwhile f s) -> In c s.
Proof.
  induction s as [|x s IH]; simpl; [auto|].
  destruct (f x); [intros H; right; now apply IH | auto].
Qed.

Lemma strip_incl (s : text) (c : char) : In c (strip s) -> In c s.
Proof.
  unfold strip, rstrip, lstrip. intros H. apply in_rev in H.
  apply dropwhile_incl in H. apply in_rev in H.
  now apply dropwhile_incl in H.
Qed.

Lemma unbroken_strip (s : text) : unbroken s = true -> unbroken (strip s) = true.
Proof.
  unfold unbroken. rewrite !forallb_forall. intros H c Hc.
  apply H. now apply strip_incl.
Qed.

Lemma dropwhile_head (f : char -> bool) (s : text) :
  match dropwhile f s with [] => True | c :: _ => f c = false end.
Proof.
  induction s as [|x s IH]; simpl; [exact I|].
  destruct (f x) eqn:E; [exact IH | exact E].
Qed.

Lemma dropwhile_fixed (f : char -> bool) (s : text) :
  match s with [] => True | c :: _ => f c = false end ->
  dropwhile f s = s.
Proof. destruct s as [|c s]; simpl; [auto|]. now intros ->. Qed.

(** Trimming what is trimmed changes nothing. *)
Lemma strip_strip (s : text) : strip (strip s) = strip s.
Proof.
  unfold strip, rstrip, lstrip.
  set (a := dropwhile isspace s).
  set (b := dropwhile isspace (rev a)).
  assert (Ha : match a with [] => True | c :: _ => isspace c = false end)
    by apply dropwhile_head.
  assert (Hb : match b with [] => True | c :: _ => isspace c = false end)
    by apply dropwhile_head.
  assert (Hrb : match rev b with [] => True | c :: _ => isspace c = false end).
  { destruct a as [|x a]; [subst b; exact I|].
    assert (Hx : exists p, b = p ++ [x]).
    { subst b. simpl. generalize (rev a). intros r.
      induction r as [|y r IH]; simpl.
      - rewrite Ha. now exists [].
      - destruct (isspace y); [exact IH|]. now exists (y :: r). }
    destruct Hx as [p ->]. rewrite rev_app_distr. simpl. exact Ha. }
  rewrite (dropwhile_fixed isspace (rev b) Hrb), rev_involutive.
  now rewrite (dropwhile_fixed isspace b Hb).
Qed.

End LineFacts.

(* ================================================================= *)
(** ** Entries and their lines *)

Section EntryProperties.
Import SyncRequirements.
Import RequirementsFacts LineFacts.

Local Open Scope N_scope.

Lemma format_loop (indent : nat) (deps : list text) (acc : list text) :
  fold_left
    (fun lines dep => lines ++ [repeat SP indent ++ [DQ] ++ dep ++ [DQ; COMMA]])
    deps acc
  = acc ++ List.map (entry_line indent) deps.
Proof.
  revert acc; induction deps as [|d deps IH]; intros acc; simpl.
  - now rewrite app_nil_r.
  - rewrite IH, <- app_assoc. reflexivity.
Qed.

Lemma format_join (deps : list text) (indent : nat) :
  format_dependencies deps indent =
  join [NL] (List.map (entry_line indent) deps).
Proof.
  unfold format_dependencies. destruct deps as [|d deps]; [reflexivity|].
  now rewrite format_loop.
Qed.

Lemma unbroken_app (a b : text) :
  unbroken (a ++ b) = unbroken a && unbroken b.
Proof. apply forallb_app. Qed.

Lemma unbroken_entry_line (indent : nat) (d : text) :
  unbroken d = true -> unbroken (entry_line indent d) = true.
Proof.
  intros H. unfold entry_line. rewrite !unbroken_app, H.
  replace (unbroken (repeat SP indent)) with true; [reflexivity|].
  induction indent; simpl; auto.
Qed.

Lemma entry_line_inj (indent : nat) (d d' : text) :
  entry_line indent d = entry_line indent d' -> d = d'.
Proof.
  unfold entry_line. intros H. apply app_inv_head in H.
  apply app_inv_head in H. now apply app_inv_tail in H.
Qed.

Lemma entry_lines_inj (indent : nat) (ds ds' : list text) :
  List.map (entry_line indent) ds = List.map (entry_line indent) ds' ->
  ds = ds'.
Proof.
  revert ds'; induction ds as [|d ds IH]; intros [|d' ds'] H;
    try discriminate; [reflexivity|].
  simpl in H. injection H as H1 H2.
  apply entry_line_inj in H1. subst. f_equal. now apply IH.
Qed.

Lemma entry_lines_good (indent : nat) (deps : list text) :
  Forall (fun d => unbroken d = true) deps ->
  Forall (fun l => l <> [] /\ unbroken l = true)
    (List.map (entry_line indent) deps).
Proof.
  induction 1 as [|d deps Hd _ IH]; simpl; constructor; auto.
  split; [|now apply unbroken_entry_line].
  unfold entry_line. intros H. apply app_eq_nil in H as [_ H]. discriminate.
Qed.

(** X4. [format_dependencies] writes one line per entry, in the order of
    the list: the indent, the entry in double quotes and a comma, the
    lines joined by line feeds.  The result is the empty string only for
    the empty list.  When no entry holds a line break, splitting the result
    into lines gives those lines back, so two lists of such entries that
    format to the same text are the same list. *)
Theorem format_dependencies_lines (deps : list text) (indent : nat) :
  format_dependencies deps indent =
    join [NL] (List.map (entry_line indent) deps)
  /\ (format_dependencies deps indent = [] <-> deps = [])
  /\ (Forall (fun d => unbroken d = true) deps ->
      splitlines (format_dependencies deps indent) =
        List.map (entry_line indent) deps)
  /\ (forall deps',
        Forall (fun d => unbroken d = true) deps ->
        Forall (fun d => unbroken d = true) deps' ->
        format_dependencies deps indent = format_dependencies deps' indent ->
        deps = deps').
Proof.
  split; [apply format_join|]. split; [|split].
  - split; [|now intros ->].
    rewrite format_join. destruct deps as [|d deps]; [reflexivity|].
    intros H. exfalso. simpl in H.
    destruct (List.map (entry_line indent) deps);
      [|apply app_eq_nil in H as [H _]];
      unfold entry_line in H; apply app_eq_nil in H as [_ H]; discriminate.
  - intros H. rewrite format_join.
    now apply splitlines_join, entry_lines_good.
  - intros deps' H H' E.
    apply (f_equal splitlines) in E.
    rewrite !format_join in E.
    rewrite (splitlines_join _ (entry_lines_good indent deps H)) in E.
    rewrite (splitlines_join _ (entry_lines_good indent deps' H')) in E.
    now apply entry_lines_inj in E.
Qed.

(** X4 on two entries given out of alphabetical order, as in the
    specification. *)
Lemma format_dependencies_lines_witness :
  splitlines (format_dependencies [lit "b==2"; lit "a==1"] 4) =
    [entry_line 4 (lit "b==2"); entry_line 4 (lit "a==1")]
  /\ [lit "b==2"; lit "a==1"] = [lit "b==2"; lit "a==1"].
Proof.
  split.
  - apply (proj1 (proj2 (proj2
             (format_dependencies_lines [lit "b==2"; lit "a==1"] 4)))).
    repeat constructor.
  - apply (proj2 (proj2 (proj2
             (format_dependencies_lines [lit "b==2"; lit "a==1"] 4)))
             [lit "b==2"; lit "a==1"]); repeat constructor.
Defined.

Lemma entries_are_entries (content : text) :
  Forall is_entry (entries content).
Proof.
  unfold entries. apply Forall_forall. intros e He.
  apply filter_In in He as [He Hk]. apply in_map_iff in He as (l & <- & Hl).
  split; [exact Hk|]. split; [apply strip_strip|].
  apply unbroken_strip.
  pose proof (splitlines_from_unbroken_all content [] eq_refl) as H.
  rewrite Forall_forall in H. now apply H.
Qed.

(** X5. For a requirements file that is absent or holds text,
    [parse_requirements] returns a list: the empty list for an absent
    file, the entries of the text for a file that holds text.  Every
    entry it returns is not empty, carries no white space at either end,
    holds no line break, and starts neither with [#] nor with [-].  A
    file of a world is a file that exists and reads as text; a path that
    exists and does not read as text, a directory or bytes that do not
    decode, is not among the worlds. *)
Theorem parse_requirements_invariant (p : path) (w : world) :
  (files w p = None -> fst (parse_requirements p w) = Ok [])
  /\ (forall raw,
        files w p = Some raw ->
        fst (parse_requirements p w) = Ok (entries (universal_newlines raw)))
  /\ (forall es,
        fst (parse_requirements p w) = Ok es ->
        Forall is_entry es
        /\ Forall (fun e => e <> []
                            /\ startswith (lit "#") e = false
                            /\ startswith (lit "-") e = false) es).
Proof.
  rewrite parse_requirements_run. cbn [fst].
  split; [now intros ->|]. split; [now intros raw ->|].
  intros es [= <-].
  assert (H : Forall is_entry (entries_of (files w p))).
  { destruct (files w p); [apply entries_are_entries | constructor]. }
  split; [exact H|].
  eapply Forall_impl; [|exact H]. intros e (Hk & _).
  unfold kept in Hk.
  apply andb_true_iff in Hk as [Hk H3]. apply andb_true_iff in Hk as [H1 H2].
  apply negb_true_iff in H2, H3.
  repeat split; auto. intros ->. discriminate.
Qed.

(** X5 on a requirements file with a comment, an entry with blanks
    around it, an include flag and a second entry. *)
Lemma parse_requirements_invariant_witness :
  let raw := lit "# pinned" ++ [NL] ++ lit "  a==1  " ++ [NL]
             ++ lit "-r base.txt" ++ [NL] ++ lit "b==2" ++ [NL] in
  let w := world_of None (Some raw) None None in
  fst (parse_requirements RequirementsDevTxt w) = Ok []
  /\ fst (parse_requirements RequirementsTxt w) = Ok [lit "a==1"; lit "b==2"]
  /\ Forall is_entry [lit "a==1"; lit "b==2"].
Proof.
  intros raw w.
  split; [|split].
  - apply (proj1 (parse_requirements_invariant RequirementsDevTxt w)).
    reflexivity.
  - apply (proj1 (proj2 (parse_requirements_invariant RequirementsTxt w)) raw).
    reflexivity.
  - apply (proj2 (proj2 (parse_requirements_invariant RequirementsTxt w))
             [lit "a==1"; lit "b==2"]).
    reflexivity.
Defined.

Lemma universal_newlines_id (s : text) :
  no_cr s = true -> universal_newlines s = s.
Proof.
  induction s as [|c s IH]; [reflexivity|]. unfold no_cr. simpl.
  intros H. apply andb_true_iff in H as [Hc Hs]. apply negb_true_iff in Hc.
  rewrite Hc. f_equal. now apply IH.
Qed.

Lemma unbroken_no_cr (s : text) : unbroken s = true -> no_cr s = true.
Proof.
  unfold unbroken, no_cr. rewrite !forallb_forall. intros H c Hc.
  specialize (H c Hc). destruct (N.eqb_spec c CR) as [->|]; [|reflexivity].
  discriminate H.
Qed.

Lemma no_cr_join (es : list text) :
  Forall (fun e => unbroken e = true) es -> no_cr (join [NL] es) = true.
Proof.
  induction 1 as [|e es He Hes IH]; [reflexivity|].
  destruct es as [|e' es]; [now apply unbroken_no_cr|].
  change (join [NL] (e :: e' :: es)) with (e ++ NL :: join [NL] (e' :: es)).
  unfold no_cr. rewrite forallb_app. apply andb_true_iff. split.
  - apply (unbroken_no_cr e He).
  - exact IH.
Qed.

Lemma entries_join (es : list text) :
  Forall is_entry es -> entries (join [NL] es) = es.
Proof.
  intros H. unfold entries. rewrite splitlines_join.
  - induction H as [|e es (Hk & Hs & _) _ IH]; [reflexivity|].
    simpl. now rewrite Hs, Hk, IH.
  - eapply Forall_impl; [|exact H]. intros e (Hk & _ & Hu).
    split; [|exact Hu]. intros ->. discriminate.
Qed.

(** X6. Entries written one per line are parsed back as they are: a
    requirements file that holds a list of entries joined by line feeds
    gives exactly that list.  So a file rewritten from the entries parsed
    from it parses to the same entries. *)
Theorem parse_requirements_round_trip :
  (forall es,
     Forall is_entry es ->
     entries (join [NL] es) = es
     /\ forall p w,
         files w p = Some (join [NL] es) ->
         fst (parse_requirements p w) = Ok es)
  /\ (forall content,
        entries (join [NL] (entries content)) = entries content).
Proof.
  split.
  - intros es H. split; [now apply entries_join|].
    intros p w Hf. rewrite parse_requirements_run, Hf. cbn [fst entries_of].
    rewrite universal_newlines_id; [now rewrite entries_join|].
    apply no_cr_join. eapply Forall_impl; [|exact H]. now intros e (_ & _ & Hu).
  - intros content. apply entries_join, entries_are_entries.
Qed.

(** X6 on a list of two entries. *)
Lemma parse_requirements_round_trip_witness :
  entries (join [NL] [lit "b==2"; lit "a==1"]) = [lit "b==2"; lit "a==1"]
  /\ fst (parse_requirements RequirementsTxt
            (world_of None (Some (join [NL] [lit "b==2"; lit "a==1"]))
               None None)) = Ok [lit "b==2"; lit "a==1"].
Proof.
  assert (H : Forall is_entry [lit "b==2"; lit "a==1"]).
  { repeat constructor. }
  split.
  - apply (proj1 (proj1 parse_requirements_round_trip _ H)).
  - apply (proj2 (proj1 parse_requirements_round_trip _ H)). reflexivity.
Defined.

End EntryProperties.

(* ================================================================= *)
(** ** Documents without the array *)

Section Absent.
Import SyncRequirements SyncVersion.
Import ReFacts SearchFacts SearchComplete SubFacts ArrayFacts RunFacts.
Import RequirementsFacts VersionComplete.

Local Open Scope N_scope.

(** A region of the array is matched by the pattern. *)
Lemma array_region_matches label head region bef post :
  array_region label head region ->
  exists st0, Matches (array_pattern label) (MState bef (region ++ post) []) st0.
Proof.
  intros (ws1 & ws2 & ws3 & body & ws4 & -> & -> & H1 & H2 & H3 & H4).
  rewrite <- !app_assoc. unfold array_pattern. eexists.
  eapply MSeq.
  { apply MGroup.
    eapply MSeq; [apply MLit|].
    eapply MSeq; [apply MStar; exact H1|].
    eapply MSeq; [apply MLit|].
    eapply MSeq; [apply MStar; exact H2|].
    apply MLit. }
  cbn [after set_cap].
  eapply MSeq; [apply MStar; exact H3|].
  eapply MSeq; [apply MLit|].
  eapply MSeq.
  { apply MGroup. apply (MLazy CsAny body).
    unfold all_in. apply forallb_forall. reflexivity. }
  cbn [after set_cap].
  apply MGroup.
  eapply MSeq; [apply MLit|].
  eapply MSeq; [apply MStar; exact H4|].
  apply MLit.
Qed.

Lemma no_array_attempts label content :
  no_array label content ->
  forall ma a b, content = a ++ b ->
    match_here (array_pattern label) ma (rev a) b = None.
Proof.
  intros H ma a b E.
  destruct (match_here (array_pattern label) ma (rev a) b) as [st|] eqn:Hm;
    [|reflexivity].
  apply array_match_here in Hm as (Hr & _ & Hb).
  exfalso. apply (H a (group 1 st) (group 0 st) (after st)); [|exact Hr].
  now rewrite <- Hb.
Qed.

(** The search finds nothing exactly in the documents without a region of
    the array. *)
Lemma search_none_no_array label content :
  Re.search (array_pattern label) content = None <-> no_array label content.
Proof.
  split.
  - intros Hs pre head region post -> Hr.
    destruct (array_region_matches label head region (rev pre ++ []) post Hr)
      as [st0 Hm].
    apply match_here_complete in Hm as [st Hm].
    apply search_from_complete in Hm as [st' Hs'].
    unfold Re.search in Hs. congruence.
  - intros H. apply search_from_none. intros sk aft0 E.
    rewrite app_nil_r. now apply (no_array_attempts label content H).
Qed.

(** X7. A document without any region of the array of a label is handed
    on unchanged by the step for that label, whatever the entries, unless
    the template is refused; and when it has no region of either array,
    a run that does not raise returns [False] and writes nothing.  A
    missing array is no error. *)
Theorem array_absent_untouched (label content : text) :
  no_array label content ->
  (forall deps out, update_array label deps content = Some out -> out = content)
  /\ (forall w raw,
        label = lit "dependencies" ->
        no_array (lit "test") content ->
        files w PyprojectToml = Some raw ->
        universal_newlines raw = content ->
        let out := sync_to_pyproject PyprojectToml RequirementsTxt
                     RequirementsDevTxt w in
        (fst out = Ok false \/ fst out = Raise ReError)
        /\ files (snd out) = files w).
Proof.
  intros H.
  assert (G : forall lab c deps out,
             no_array lab c -> update_array lab deps c = Some out -> out = c).
  { intros lab c deps out Hn. unfold update_array, Re.sub.
    destruct (negb (is_empty deps)); [|now intros [= <-]].
    destruct (compile_repl _ _) as [items|]; [|discriminate].
    intros [= <-]. rewrite <- (app_nil_r c) at 1.
    rewrite sub_loop_pass.
    - simpl. rewrite app_nil_r.
      rewrite (no_array_attempts lab c Hn false c []);
        [apply app_nil_r | now rewrite app_nil_r].
    - intros a b E _. rewrite !app_nil_r.
      now apply (no_array_attempts lab c Hn). }
  split; [intros deps out; now apply G|].
  intros w raw -> Ht Hp Hc. cbn zeta.
  rewrite (sync_to_pyproject_run _ RequirementsTxt RequirementsDevTxt _ _ Hp).
  cbn zeta. rewrite Hc. unfold synced_content.
  destruct (update_array (lit "dependencies") _ content) as [c1|] eqn:E1.
  - apply G in E1; [subst c1 | exact H].
    destruct (update_array (lit "test") _ content) as [c2|] eqn:E2.
    + apply G in E2; [subst c2 | exact Ht].
      rewrite text_eqb_refl. cbn [negb fst snd]. split; [now left|].
      apply files_after_reads.
    + cbn [fst snd]. split; [now right | apply files_after_reads].
  - cbn [fst snd]. split; [now right | apply files_after_reads].
Qed.

(** X7 on a document with a name only, next to a requirements file with
    one entry. *)
Lemma array_absent_untouched_witness :
  let content := lit "name = lango" in
  let w := world_of (Some content) (Some (lit "new==2")) None None in
  let out := sync_to_pyproject PyprojectToml RequirementsTxt
               RequirementsDevTxt w in
  no_array (lit "dependencies") content
  /\ (forall deps out',
        update_array (lit "dependencies") deps content = Some out' ->
        out' = content)
  /\ (fst out = Ok false \/ fst out = Raise ReError)
  /\ files (snd out) = files w.
Proof.
  intros content w.
  assert (H : no_array (lit "dependencies") content).
  { apply (proj1 (search_none_no_array (lit "dependencies") content)).
    reflexivity. }
  assert (Ht : no_array (lit "test") content).
  { apply (proj1 (search_none_no_array (lit "test") content)).
    reflexivity. }
  split; [exact H|].
  split.
  - apply (proj1 (array_absent_untouched (lit "dependencies") content H)).
  - apply (proj2 (array_absent_untouched (lit "dependencies") content H)
             w content eq_refl Ht eq_refl eq_refl).
Defined.

End Absent.

(* ================================================================= *)
(** ** Running the version synchronizer a second time *)

Section VersionTwice.
Import SyncVersion.
Import RunFacts VersionFacts InitFacts LineFacts.

Local Open Scope N_scope.

Lemma canonical_version_line (v : text) :
  usable v -> version_line (init_replacement v).
Proof.
  intros Hv. exists [SP], [SP], v, (lit "  # modify in pyproject.toml").
  repeat split; try reflexivity; apply Hv.
Qed.

Lemma canonical_no_nl (v : text) : ~ In NL v -> ~ In NL (init_replacement v).
Proof.
  intros Hv H. unfold init_replacement in H.
  rewrite !in_app_iff in H.
  destruct H as [H|[H|[H|[H|H]]]]; try (now apply Hv).
  - vm_compute in H. repeat (destruct H as [H|H]; [discriminate H|]). exact H.
  - vm_compute in H. repeat (destruct H as [H|H]; [discriminate H|]). exact H.
  - vm_compute in H. repeat (destruct H as [H|H]; [discriminate H|]). exact H.
  - vm_compute in H. repeat (destruct H as [H|H]; [discriminate H|]). exact H.
Qed.

(** The result of a synchronization is a document the synchronization
    maps to itself. *)
Lemma Synced_fixed (v content out : text) :
  usable v -> ~ In NL v -> Synced v content out -> Synced v out out.
Proof.
  intros Hu Hn H. induction H.
  - now apply SyncedLastPlain.
  - apply SyncedLastVersion;
      [now apply canonical_no_nl | now apply canonical_version_line].
  - now apply SyncedPlain.
  - apply SyncedVersion;
      [now apply canonical_no_nl | now apply canonical_version_line | exact IHSynced].
Qed.

Lemma no_cr_app (a b : text) : no_cr (a ++ b) = no_cr a && no_cr b.
Proof. apply forallb_app. Qed.

Lemma universal_newlines_no_cr (s : text) : no_cr (universal_newlines s) = true.
Proof.
  assert (G : forall n s, (length s <= n)%nat ->
                     no_cr (universal_newlines s) = true).
  { clear s. induction n as [|n IH]; intros s Hl.
    - destruct s; [reflexivity | simpl in Hl; lia].
    - destruct s as [|c rest]; [reflexivity|]. simpl in Hl.
      cbn [universal_newlines].
      destruct (N.eqb_spec c CR) as [->|Hc].
      + destruct rest as [|d rest']; [reflexivity|].
        simpl in Hl.
        destruct (d =? NL).
        * change (no_cr (universal_newlines rest') = true).
          apply IH. lia.
        * change (no_cr (universal_newlines (d :: rest')) = true).
          apply IH. simpl. lia.
      + unfold no_cr. cbn [forallb].
        apply N.eqb_neq in Hc. rewrite Hc. cbn [negb andb].
        apply IH. lia. }
  apply (G (length s)). lia.
Qed.

Lemma version_no_cr (content v : text) :
  no_cr content = true -> version_assignment content v -> no_cr v = true.
Proof.
  intros Hc (pre & ws1 & ws2 & post & -> & _).
  rewrite !no_cr_app in Hc.
  repeat (apply andb_true_iff in Hc as [? Hc]). assumption.
Qed.

Lemma Synced_no_cr (v content out : text) :
  no_cr v = true -> Synced v content out ->
  no_cr content = true -> no_cr out = true.
Proof.
  intros Hv H. 
  assert (Hr : no_cr (init_replacement v) = true).
  { unfold init_replacement. rewrite !no_cr_app, Hv. reflexivity. }
  induction H; intros Hc.
  - exact Hc.
  - exact Hr.
  - rewrite no_cr_app in *. apply andb_true_iff in Hc as [Hl Hc].
    rewrite Hl. cbn [andb]. unfold no_cr in *. cbn [forallb] in *.
    apply andb_true_iff in Hc as [Hn Hc]. rewrite Hn. now apply IHSynced.
  - rewrite no_cr_app in *. apply andb_true_iff in Hc as [Hl Hc].
    rewrite Hr. cbn [andb]. unfold no_cr in *. cbn [forallb] in *.
    apply andb_true_iff in Hc as [Hn Hc]. rewrite Hn. now apply IHSynced.
Qed.

(** X8. Running the version synchronizer twice.  Let the version found
    have neither a backslash nor a line feed, and let the initializer be
    made of plain lines and version lines.  Then the text the first run
    computes is mapped to itself by the substitution; and of two runs of
    the script one after the other both end with code 0, the file holds
    the computed text after the first, and the second reads the two files,
    writes nothing, leaves every file as it is and reports that the
    version is already in sync. *)
Theorem version_sync_idempotent (w : world) (raw iraw v out : text) :
  files w PyprojectToml = Some raw ->
  extract_version (universal_newlines raw) = Some v ->
  has_backslash v = false -> ~ In NL v ->
  files w InitPy = Some iraw ->
  Synced v (universal_newlines iraw) out ->
  let first := sys_exit SyncVersion.main w in
  let second := sys_exit SyncVersion.main (snd first) in
  Re.sub init_pattern (init_replacement v) out = Some out
  /\ fst first = 0%nat /\ fst second = 0%nat
  /\ (exists stored,
        files (snd first) InitPy = Some stored
        /\ universal_newlines stored = out)
  /\ files (snd second) = files (snd first)
  /\ new_events (snd first) (snd second) = [EvRead PyprojectToml; EvRead InitPy]
  /\ stdout (snd second) =
       stdout (snd first) ++ ["__version__ already in sync"%string].
Proof.
  intros Hp He Hb Hn Hi Hs first second.
  destruct (extract_version_sound _ _ He) as [Ha Hu].
  assert (Hfix : Re.sub init_pattern (init_replacement v) out = Some out).
  { apply sub_synced; [exact Hb|].
    now apply (Synced_fixed v (universal_newlines iraw) out). }
  assert (Hcr : no_cr out = true).
  { apply (Synced_no_cr v (universal_newlines iraw) out).
    - apply (version_no_cr (universal_newlines raw));
        [apply universal_newlines_no_cr | exact Ha].
    - exact Hs.
    - apply universal_newlines_no_cr. }
  assert (Hfirst : first =
    if negb (text_eqb out (universal_newlines iraw))
    then (0%nat, after_print "Synced __version__ from pyproject.toml"
                   (after_write InitPy out
                      (after_read InitPy (after_read PyprojectToml w))))
    else (0%nat, after_print "__version__ already in sync"
                   (after_read InitPy (after_read PyprojectToml w)))).
  { unfold first. rewrite version_main_run, Hp, Hi, He. cbn zeta.
    now rewrite (sub_synced v _ out Hb Hs). }
  assert (Hstored : exists stored,
             files (snd first) InitPy = Some stored
             /\ universal_newlines stored = out).
  { rewrite Hfirst.
    destruct (text_eqb out (universal_newlines iraw)) eqn:E; cbn [negb snd].
    - exists iraw. split; [exact Hi|].
      apply text_eqb_eq in E. now symmetry.
    - exists out. split; [reflexivity|]. now apply universal_newlines_id. }
  assert (Hp1 : files (snd first) PyprojectToml = Some raw).
  { rewrite Hfirst.
    destruct (text_eqb out (universal_newlines iraw)); cbn [negb snd];
      exact Hp. }
  destruct Hstored as (stored & Hi1 & Hst).
  assert (Hsecond : second =
            (0%nat, after_print "__version__ already in sync"
                      (after_read InitPy (after_read PyprojectToml (snd first))))).
  { unfold second. rewrite version_main_run, Hp1, Hi1, He. cbn zeta.
    rewrite Hst, Hfix, text_eqb_refl. reflexivity. }
  split; [exact Hfix|].
  split.
  { rewrite Hfirst. now destruct (negb _). }
  rewrite Hsecond. cbn [fst snd].
  split; [reflexivity|].
  split; [now exists stored|].
  split; [reflexivity|].
  split; [|reflexivity].
  apply new_events_app. cbn. now rewrite <- app_assoc.
Qed.

(** X8 on the initializer of the example, with one stale version line. *)
Lemma version_sync_idempotent_witness :
  let w := Examples.example_world in
  let first := sys_exit SyncVersion.main w in
  let second := sys_exit SyncVersion.main (snd first) in
  Re.sub init_pattern (init_replacement (lit "1.2.3")) Examples.init_new
    = Some Examples.init_new
  /\ fst first = 0%nat /\ fst second = 0%nat
  /\ (exists stored,
        files (snd first) InitPy = Some stored
        /\ universal_newlines stored = Examples.init_new)
  /\ files (snd second) = files (snd first)
  /\ new_events (snd first) (snd second) = [EvRead PyprojectToml; EvRead InitPy]
  /\ stdout (snd second) =
       stdout (snd first) ++ ["__version__ already in sync"%string].
Proof.
  apply (version_sync_idempotent Examples.example_world
           Examples.pyproject_old Examples.init_old (lit "1.2.3")
           Examples.init_new).
  - reflexivity.
  - reflexivity.
  - reflexivity.
  - vm_compute. intros H.
    repeat (destruct H as [H|H]; [discriminate H|]). exact H.
  - reflexivity.
  - apply (@SyncedVersion (lit "1.2.3")
             (lit "__version__ = " ++ [DQ] ++ lit "1.0.0" ++ [DQ]
              ++ lit "  # old comment") [] []).
    + vm_compute. intuition discriminate.
    + exists [SP], [SP], (lit "1.0.0"), (lit "  # old comment").
      repeat split; try discriminate. vm_compute. intuition discriminate.
    + apply SyncedLastPlain; [intros [] | reflexivity].
Defined.

End VersionTwice.

(* ================================================================= *)
(** ** Which version line is read *)

Section FirstVersion.
Import SyncVersion.
Import ReFacts SearchFacts SearchComplete VersionFacts VersionComplete.
Import FirstFacts RunFacts InitFacts.

Local Open Scope N_scope.

Lemma version_needs_bol ma bef aft :
  at_bol (MState bef aft []) = false ->
  match_here version_pattern ma bef aft = None.
Proof.
  intros H. apply match_here_none. intros st0 Hm.
  unfold version_pattern in Hm.
  inversion Hm as [| | | | | | |r1 r2 st st' st'' H1 H2]; subst.
  inversion H1; subst. congruence.
Qed.

Lemma version_needs_word ma bef aft :
  startswith (lit "version") aft = false ->
  match_here version_pattern ma bef aft = None.
Proof.
  intros H. apply match_here_none. intros st0 Hm.
  unfold version_pattern in Hm.
  inversion Hm as [| | | | | | |r1 r2 st st' st'' H1 H2]; subst.
  inversion H1; subst.
  inversion H2 as [| | | | | | |r1' r2' s s' s'' H3 H4]; subst.
  inversion H3; subst.
  vm_compute in H. discriminate.
Qed.

Lemma first_group n r st st1 :
  hd_error (rmatch r st) = Some st1 ->
  hd_error (rmatch (RGroup n r) st) = Some (set_cap n (after st) st1).
Proof.
  intros H. cbn [rmatch]. destruct (rmatch r st); [discriminate|].
  simpl in *. congruence.
Qed.

(** The positions where every attempt fails are passed over. *)
Lemma search_from_pass r (skipped rest bef : text) :
  (forall a b, skipped = a ++ b -> b <> [] ->
     match_here r false (rev a ++ bef) (b ++ rest) = None) ->
  search_from r bef (skipped ++ rest) =
  search_from r (rev skipped ++ bef) rest.
Proof.
  revert bef; induction skipped as [|c sk IH]; intros bef H; [reflexivity|].
  pose proof (H [] (c :: sk) eq_refl) as H0. cbn [rev app] in H0.
  cbn [app search_from]. rewrite H0; [|discriminate].
  rewrite IH.
  - simpl. now rewrite <- app_assoc.
  - intros a b -> Hb. specialize (H (c :: a) b eq_refl Hb).
    simpl in H. now rewrite <- app_assoc in H.
Qed.

Lemma search_from_here r (bef aft : text) st :
  match_here r false bef aft = Some st -> search_from r bef aft = Some st.
Proof. intros H. destruct aft; simpl; now rewrite H. Qed.

(** A word without a line feed that does not begin a text ending in a line
    feed does not begin that text with more behind it either. *)
Lemma startswith_whole_lines (word b rest : text) :
  ~ In NL word -> b <> [] -> (exists b0, b = b0 ++ [NL]) ->
  startswith word b = false -> startswith word (b ++ rest) = false.
Proof.
  revert b; induction word as [|x word IH]; intros b Hn Hb Hl Hs;
    [discriminate|].
  destruct b as [|y b]; [contradiction|]. simpl in *.
  destruct (N.eqb_spec x y) as [->|]; [|reflexivity]. simpl in *.
  destruct b as [|z b].
  - destruct Hl as [b0 Hl]. destruct b0 as [|? [|? ?]]; try discriminate.
    injection Hl as ->. exfalso. apply Hn. now left.
  - apply IH.
    + intros Hi. apply Hn. now right.
    + discriminate.
    + destruct Hl as [b0 Hl]. destruct b0 as [|u b0]; [discriminate|].
      injection Hl as -> Hl. now exists b0.
    + exact Hs.
Qed.

(** At the start of a line that assigns a usable value, the first path
    the matcher tries gives that value. *)
Lemma version_line_first (pre ws1 ws2 v post : text) :
  line_start pre -> spaces ws1 = true -> spaces ws2 = true -> usable v ->
  exists st,
    match_here version_pattern false (rev pre)
      (lit "version" ++ ws1 ++ lit "=" ++ ws2 ++ [DQ] ++ v ++ [DQ] ++ post)
    = Some st
    /\ group 1 st = v.
Proof.
  intros Hpre H1 H2 [Hne Hq].
  eexists. split.
  - apply match_here_first. unfold version_pattern.
    eapply first_seq; [apply first_bol; now apply line_start_at_bol|].
    eapply first_seq; [apply first_lit|].
    eapply first_seq; [apply first_star; [exact H1 | reflexivity]|].
    eapply first_seq; [apply first_lit|].
    eapply first_seq; [apply first_star; [exact H2 | reflexivity]|].
    eapply first_seq; [apply first_lit|].
    eapply first_seq.
    + apply first_group. apply first_plus;
        [exact Hne | now apply not_in_all_in | reflexivity].
    + apply first_lit.
  - unfold group. cbn [set_cap caps lookup after Nat.eqb].
    cbn. apply (span_app v ([DQ] ++ post)).
Qed.

(** X9. The first line that begins with the word [version] decides: when
    no line before it begins with the word and it assigns a usable value
    in double quotes, that value is what [get_pyproject_version] returns,
    whatever follows, later version lines included. *)
Theorem first_version_line_wins (pre ws1 ws2 v post : text) :
  line_start pre ->
  at_line_starts (fun l => startswith (lit "version") l = false) pre ->
  spaces ws1 = true -> spaces ws2 = true -> usable v ->
  let content := pre ++ lit "version" ++ ws1 ++ lit "=" ++ ws2
                 ++ [DQ] ++ v ++ [DQ] ++ post in
  extract_version content = Some v
  /\ forall p w raw,
       files w p = Some raw -> universal_newlines raw = content ->
       fst (get_pyproject_version p w) = Ok (Some v).
Proof.
  intros Hpre Hno H1 H2 Hv content.
  assert (E : extract_version content = Some v).
  { unfold extract_version, Re.search, content.
    rewrite search_from_pass.
    - destruct (version_line_first pre ws1 ws2 v post Hpre H1 H2 Hv)
        as (st & Hm & Hg).
      rewrite app_nil_r.
      rewrite (search_from_here _ _ _ st Hm). now rewrite Hg.
    - intros a b E Hb.
      destruct (at_bol (MState (rev a ++ []) [] [])) eqn:Hbol.
      + apply version_needs_word.
        apply at_bol_line_start in Hbol.
        apply startswith_whole_lines.
        * vm_compute. intuition discriminate.
        * exact Hb.
        * destruct Hpre as [->|[p Hp]].
          { destruct a; [|discriminate]. simpl in E. now subst b. }
          destruct (exists_last Hb) as (b0 & x & ->).
          rewrite Hp, app_assoc in E.
          apply app_inj_tail in E as [_ <-]. now exists b0.
        * unfold at_line_starts in Hno. rewrite Forall_forall in Hno.
          apply Hno. rewrite E. now apply line_suffixes_complete.
      + apply version_needs_bol. exact Hbol. }
  split; [exact E|].
  intros p w raw Hf Hc.
  rewrite (get_pyproject_version_run p w raw Hf), Hc. cbn [fst]. now rewrite E.
Qed.

(** X9 on a document whose table of the project comes before a table of
    a tool with a version of its own. *)
Lemma first_version_line_wins_witness :
  extract_version
    (lit "[project]" ++ [NL] ++ lit "version" ++ [SP] ++ lit "=" ++ [SP]
     ++ [DQ] ++ lit "1.2.3" ++ [DQ]
     ++ ([NL] ++ lit "[tool.x]" ++ [NL] ++ lit "version = "
         ++ [DQ] ++ lit "9.9" ++ [DQ] ++ [NL]))
  = Some (lit "1.2.3").
Proof.
  refine (proj1 (first_version_line_wins (lit "[project]" ++ [NL]) [SP] [SP]
                   (lit "1.2.3")
                   ([NL] ++ lit "[tool.x]" ++ [NL] ++ lit "version = "
                    ++ [DQ] ++ lit "9.9" ++ [DQ] ++ [NL])
                   _ _ eq_refl eq_refl _)).
  - right. now exists (lit "[project]").
  - unfold at_line_starts. vm_compute line_suffixes.
    repeat (apply Forall_cons; [reflexivity|]). apply Forall_nil.
  - split; [discriminate|]. vm_compute. intuition discriminate.
Defined.

End FirstVersion.

(* ================================================================= *)
(** ** What the version synchronizer leaves alone *)

Section VersionFrame.
Import SyncVersion.
Import ReFacts SearchFacts VersionFacts SubFacts TemplateFacts ArrayFacts.
Import RunFacts.

Local Open Scope N_scope.

Lemma all_in_dot (w : text) : all_in CsDot w = true -> ~ In NL w.
Proof.
  unfold all_in. rewrite forallb_forall. intros H Hi.
  specialize (H NL Hi). discriminate H.
Qed.

Lemma init_pattern_sound bef aft st0 :
  Matches init_pattern (MState bef aft []) st0 ->
  exists ws1 ws2 q trailing,
    aft = (lit "__version__" ++ ws1 ++ lit "=" ++ ws2
           ++ [DQ] ++ q ++ [DQ] ++ trailing) ++ after st0
    /\ at_bol (MState bef [] []) = true
    /\ spaces ws1 = true /\ spaces ws2 = true /\ usable q
    /\ ~ In NL trailing
    /\ at_eol st0 = true.
Proof.
  unfold init_pattern. intros H. inv_matches.
  simpl in *.
  exists w1, w0, w2, w. repeat split; auto.
  - list_eq.
  - now apply all_in_not.
  - now apply all_in_dot.
Qed.

(** What an attempt of the pattern of the initializer finds. *)
Lemma init_match_here ma bef aft st :
  match_here init_pattern ma bef aft = Some st ->
  (exists ws1 ws2 q trailing,
      group 0 st = lit "__version__" ++ ws1 ++ lit "=" ++ ws2
                   ++ [DQ] ++ q ++ [DQ] ++ trailing
      /\ spaces ws1 = true /\ spaces ws2 = true /\ usable q
      /\ ~ In NL trailing)
  /\ at_bol (MState bef [] []) = true
  /\ at_eol st = true
  /\ group 0 st <> []
  /\ aft = group 0 st ++ after st
  /\ before st = rev (group 0 st) ++ bef.
Proof.
  intros H. destruct (match_here_span _ _ _ _ _ H) as [E B].
  apply match_here_sound in H as (st0 & Hm & ->).
  apply init_pattern_sound in Hm
    as (ws1 & ws2 & q & trailing & Ha & Hbol & H1 & H2 & Hq & Ht & Heol).
  assert (G0 : group 0 (set_cap 0 aft st0) =
               lit "__version__" ++ ws1 ++ lit "=" ++ ws2
               ++ [DQ] ++ q ++ [DQ] ++ trailing).
  { simpl in E. rewrite E in Ha at 1. now apply app_inv_tail in Ha. }
  repeat split; auto.
  - exists ws1, ws2, q, trailing. repeat split; auto; apply Hq.
  - rewrite G0. discriminate.
Qed.

Lemma Kept_cons R c bef s out :
  Kept R (c :: bef) s out -> Kept R bef (c :: s) (c :: out).
Proof.
  intros H. inversion H as [|bef' keep region replacement rest out' Hr Hk];
    subst.
  - constructor.
  - apply (@KeptRegion R bef (c :: keep) region replacement rest out').
    + simpl. now rewrite <- app_assoc.
    + simpl. now rewrite <- !app_assoc.
Qed.

Lemma sub_loop_kept (v : text) items (s : text) :
  (has_backslash v = false -> items = List.map TChar (init_replacement v)) ->
  forall bef,
    Kept (version_region v) bef s (sub_loop init_pattern items bef O s).
Proof.
  intros Hi. remember (length s) as n eqn:Hn. revert s Hn.
  induction n as [n IH] using lt_wf_ind. intros s Hn bef.
  destruct (match_here init_pattern false bef s) as [st|] eqn:E.
  - destruct (init_match_here _ _ _ _ E)
      as (Hr & Hbol & Heol & Hne & Ha & Hb).
    rewrite (sub_loop_match _ items _ _ _ E Hne).
    assert (Hlen : (length (after st) < n)%nat).
    { apply (f_equal (@length _)) in Ha. rewrite length_app in Ha.
      destruct (group 0 st); [congruence | simpl in Ha; lia]. }
    rewrite Ha at 1.
    apply (@KeptRegion (version_region v) bef [] (group 0 st)
             (expand items st) (after st)).
    + split; [|split; [exact Hr|split]].
      * unfold at_bol in Hbol. simpl in *. destruct bef; [exact I|].
        now apply N.eqb_eq.
      * unfold at_eol in Heol. destruct (after st); [exact I|].
        now apply N.eqb_eq.
      * intros Hv. rewrite (Hi Hv). apply expand_chars.
    + simpl. rewrite <- Hb. now apply (IH (length (after st))).
  - destruct s as [|c s]; simpl; rewrite E; [constructor|].
    apply Kept_cons. apply (IH (length s)); [subst n; simpl; lia | reflexivity].
Qed.

(** X10. The substitution of the initializer changes the document only
    inside version assignments: the output is the input with some parts
    exchanged, each starting at the start of a line with the word, an
    equals sign and a quoted string that is not empty and running to the
    end of the line the closing quote is on, and every character outside
    them kept where it was.  For a version without a backslash each such
    part is exchanged for the canonical line.  What a run of
    [sync_version] writes is such an output for the text it read. *)
Theorem version_substitution_frame (v content out : text) :
  Re.sub init_pattern (init_replacement v) content = Some out ->
  Kept (version_region v) [] content out
  /\ forall w raw iraw c,
       files w PyprojectToml = Some raw ->
       extract_version (universal_newlines raw) = Some v ->
       files w InitPy = Some iraw ->
       universal_newlines iraw = content ->
       (In (EvWrite InitPy c)
          (new_events w (snd (sync_version PyprojectToml InitPy w))) ->
        c = out)
       /\ files (snd (sync_version PyprojectToml InitPy w)) InitPy
          = Some (if text_eqb out content then iraw else out).
Proof.
  intros Hs. split.
  - unfold Re.sub in Hs.
    destruct (compile_repl _ (init_replacement v)) as [items|] eqn:Hc;
      [|discriminate].
    injection Hs as <-. apply sub_loop_kept.
    intros Hv. rewrite (compile_plain _ _ (init_replacement_plain v Hv)) in Hc.
    congruence.
  - intros w raw iraw c Hp He Hi Hc.
    rewrite (sync_version_run _ InitPy _ _ Hp), truthy_extract, He, Hi.
    cbn zeta. rewrite Hc, Hs.
    destruct (text_eqb out content) eqn:Eq; cbn [negb snd].
    + split; [|exact Hi].
      rewrite (new_events_app w [EvRead PyprojectToml; EvRead InitPy]).
      * intros [H|[H|[]]]; discriminate H.
      * cbn. now rewrite <- app_assoc.
    + split; [|reflexivity].
      rewrite (new_events_app w
                 [EvRead PyprojectToml; EvRead InitPy; EvWrite InitPy out]).
      * intros [H|[H|[H|[]]]]; try discriminate H. now injection H as <-.
      * cbn. now rewrite <- !app_assoc.
Qed.

(** X10 on the initializer of the example. *)
Lemma version_substitution_frame_witness :
  Kept (version_region (lit "1.2.3")) [] Examples.init_old Examples.init_new.
Proof.
  apply (proj1 (version_substitution_frame (lit "1.2.3") Examples.init_old
                  Examples.init_new eq_refl)).
Defined.

End VersionFrame.

(* ================================================================= *)
(** ** Running the requirements synchronizer a second time *)

Section ArrayTwice.
Import SyncRequirements.
Import ReFacts SearchFacts SearchComplete SubFacts ArrayFacts RunFacts.
Import RequirementsFacts VersionComplete FirstFacts TemplateFacts AnchorFree.

Local Open Scope N_scope.

Lemma label_not_sep (c : char) : label_char c = true -> sep c = false.
Proof. unfold label_char. intros H. apply andb_true_iff in H as [H _].
  now apply negb_true_iff in H. Qed.

(** A label is read up to the first separator. *)
Lemma label_until_sep (M l W S t r : text) :
  forallb label_char M = true -> forallb label_char l = true ->
  forallb sep W = true -> W <> [] -> forallb sep S = true -> S <> [] ->
  M ++ W ++ t = l ++ S ++ r -> M = l.
Proof.
  intros HM Hl HW HWne HS HSne. revert l Hl.
  induction M as [|c M IH]; intros l Hl E.
  - destruct l as [|d l]; [reflexivity|]. exfalso.
    destruct W as [|w W]; [contradiction|]. injection E as -> _.
    cbn [forallb] in HW, Hl.
    apply andb_true_iff in HW as [HW _]. apply andb_true_iff in Hl as [Hl _].
    apply label_not_sep in Hl. congruence.
  - cbn [forallb] in HM. apply andb_true_iff in HM as [Hc HM].
    destruct l as [|d l].
    + exfalso. destruct S as [|x S]; [contradiction|]. injection E as -> _.
      cbn [forallb] in HS. apply andb_true_iff in HS as [HS _].
      apply label_not_sep in Hc. congruence.
    + injection E as -> E. cbn [forallb] in Hl.
      apply andb_true_iff in Hl as [_ Hl]. f_equal. now apply IH.
Qed.

(** Where a label followed by separators is read in a text that has a
    label further on, the separators end before that label begins. *)
Lemma label_overlap (M L W S t b X : text) :
  label_ok M -> label_ok L -> (forall k, k <> [] -> M <> k ++ L) ->
  forallb sep W = true -> W <> [] -> forallb sep S = true -> S <> [] ->
  b <> [] ->
  M ++ W ++ t = b ++ L ++ S ++ X ->
  exists b', b = M ++ W ++ b'.
Proof.
  intros [HMne HM] [HLne HL] Hsuf HW HWne HS HSne Hb E.
  apply app_eq_app in E as [l [[E1 E2]|[E1 E2]]].
  - (* the label read would reach into the second label *)
    exfalso.
    assert (Hl : forallb label_char l = true).
    { rewrite E1, forallb_app in HM. now apply andb_true_iff in HM as [_ HM]. }
    symmetry in E2.
    apply (label_until_sep l L W S t X Hl HL HW HWne HS HSne) in E2.
    subst l. now apply (Hsuf b Hb).
  - apply app_eq_app in E2 as [l3 [[E3 E4]|[E3 E4]]].
    + destruct l3 as [|c l3].
      * exists []. rewrite app_nil_r in *. now subst.
      * exfalso. destruct L as [|x L]; [contradiction|].
        injection E4 as -> _.
        cbn [forallb] in HL. apply andb_true_iff in HL as [HL _].
        apply label_not_sep in HL.
        rewrite E3, forallb_app in HW. apply andb_true_iff in HW as [_ HW].
        cbn [forallb] in HW. apply andb_true_iff in HW as [HW _]. congruence.
    + exists l3. now rewrite E1, E3.
Qed.

Lemma spaces_sep (ws : text) : spaces ws = true -> forallb sep ws = true.
Proof.
  unfold spaces. rewrite !forallb_forall. intros H c Hc.
  unfold sep. now rewrite (H c Hc).
Qed.

Lemma head_seps (ws1 ws2 : text) :
  spaces ws1 = true -> spaces ws2 = true ->
  forallb sep (ws1 ++ lit "=" ++ ws2 ++ lit "[") = true
  /\ ws1 ++ lit "=" ++ ws2 ++ lit "[" <> [].
Proof.
  intros S1 S2. split.
  - rewrite !forallb_app, (spaces_sep ws1 S1), (spaces_sep ws2 S2).
    reflexivity.
  - intros H. apply app_eq_nil in H as [_ H]. discriminate H.
Qed.

(** An attempt that succeeds before a region of an array, on a text
    where the region has been exchanged for one that begins with the same
    head, succeeds on the text with the region as well: the closing
    bracket of the region is there to end it. *)
Lemma attempt_before M L head region (bef bef' b post S X : text) st2 :
  label_ok M -> label_ok L -> (forall k, k <> [] -> M <> k ++ L) ->
  array_region L head region -> b <> [] ->
  forallb sep S = true -> S <> [] ->
  match_here (array_pattern M) false bef' (b ++ L ++ S ++ X) = Some st2 ->
  exists st1,
    match_here (array_pattern M) false bef (b ++ region ++ post) = Some st1.
Proof.
  intros HM HL Hsuf Hreg Hb HS HSne Hm.
  apply array_match_here in Hm as (Hr & _ & Ha).
  destruct Hr as (ws1 & ws2 & ws3 & body & ws4 & H1 & H0 & S1 & S2 & S3 & S4).
  rewrite H1 in H0. clear H1.
  assert (E : M ++ (ws1 ++ lit "=" ++ ws2 ++ lit "[" ++ ws3 ++ [NL])
              ++ (body ++ [NL] ++ ws4 ++ lit "]" ++ after st2)
              = b ++ L ++ S ++ X).
  { rewrite Ha, H0. rewrite <- !app_assoc. reflexivity. }
  assert (HW : forallb sep (ws1 ++ lit "=" ++ ws2 ++ lit "[" ++ ws3 ++ [NL])
               = true).
  { rewrite !forallb_app.
    rewrite (spaces_sep ws1 S1), (spaces_sep ws2 S2), (spaces_sep ws3 S3).
    reflexivity. }
  assert (HWne : ws1 ++ lit "=" ++ ws2 ++ lit "[" ++ ws3 ++ [NL] <> []).
  { intros HWe. apply app_eq_nil in HWe as [_ HWe]. discriminate HWe. }
  destruct (label_overlap M L _ S _ b X HM HL Hsuf HW HWne HS HSne Hb E)
    as [b' Eb].
  destruct Hreg as (v1 & v2 & v3 & body' & v4 & Hh & Hg & T1 & T2 & T3 & T4).
  assert (Hreg' : array_region M
            (M ++ ws1 ++ lit "=" ++ ws2 ++ lit "[")
            ((M ++ ws1 ++ lit "=" ++ ws2 ++ lit "[") ++ ws3 ++ [NL]
             ++ (b' ++ head ++ v3 ++ [NL] ++ body') ++ [NL] ++ v4 ++ lit "]")).
  { exists ws1, ws2, ws3, (b' ++ head ++ v3 ++ [NL] ++ body'), v4.
    repeat split; auto. }
  destruct (array_region_matches M _ _ bef post Hreg') as [st0 Hmatch].
  apply match_here_complete in Hmatch as [st' Hs].
  exists st'. rewrite <- Hs. f_equal.
  rewrite Eb, Hg, Hh. rewrite <- !app_assoc. reflexivity.
Qed.

(** The match a search returns is at the first position where an attempt
    succeeds. *)
Lemma search_from_first r (aft bef : text) st :
  search_from r bef aft = Some st ->
  exists skipped aft0,
    aft = skipped ++ aft0
    /\ match_here r false (rev skipped ++ bef) aft0 = Some st
    /\ forall a b, skipped = a ++ b -> b <> [] ->
         match_here r false (rev a ++ bef) (b ++ aft0) = None.
Proof.
  revert bef; induction aft as [|c aft IH]; intros bef; simpl.
  - destruct (match_here r false bef []) as [st'|] eqn:E; [|discriminate].
    intros [= ->]. exists [], []. repeat split; auto.
    intros a b Hab Hb. destruct a; destruct b; try discriminate.
    contradiction.
  - destruct (match_here r false bef (c :: aft)) as [st'|] eqn:E.
    + intros [= ->]. exists [], (c :: aft). repeat split; auto.
      intros a b Hab Hb. destruct a; destruct b; try discriminate.
      contradiction.
    + intros H. apply IH in H as (sk & aft0 & -> & Hm & Hf).
      exists (c :: sk), aft0. split; [reflexivity|]. split.
      * simpl. now rewrite <- app_assoc.
      * intros a b Hab Hb. destruct a as [|x a].
        -- simpl in Hab. subst b. exact E.
        -- injection Hab as <- Hab. simpl. rewrite <- app_assoc.
           now apply Hf.
Qed.

(** A text in which no attempt succeeds is copied. *)
Lemma sub_loop_no_match r items (s bef : text) :
  (forall a b, s = a ++ b -> match_here r false (rev a ++ bef) b = None) ->
  sub_loop r items bef O s = s.
Proof.
  intros H. rewrite <- (app_nil_r s) at 1. rewrite sub_loop_pass.
  - simpl. rewrite (H s []); [apply app_nil_r | now rewrite app_nil_r].
  - intros a b E _. rewrite app_nil_r. now apply H.
Qed.

(** *** The shape of the formatted entries *)

Lemma split_at_nl (l1 r a b : text) :
  ~ In NL l1 -> l1 ++ NL :: r = a ++ NL :: b ->
  (a = l1 /\ b = r) \/ exists a', a = l1 ++ NL :: a' /\ r = a' ++ NL :: b.
Proof.
  intros Hn E. apply app_eq_app in E as [l [[E1 E2]|[E1 E2]]].
  - destruct l as [|c l].
    + rewrite app_nil_r in E1. injection E2 as <-. now left.
    + injection E2 as <- _. exfalso. apply Hn. rewrite E1.
      apply in_or_app. right. now left.
  - destruct l as [|c l].
    + rewrite app_nil_r in E1. injection E2 as ->. now left.
    + injection E2 as <- ->. right. now exists l.
Qed.

Lemma entry_line_no_nl (d : text) : ~ In NL d -> ~ In NL (entry_line 4 d).
Proof.
  intros Hd H. unfold entry_line in H. simpl in H.
  repeat (destruct H as [H|H]; [discriminate H|]).
  apply in_app_or in H as [H|H]; [now apply Hd|].
  repeat (destruct H as [H|H]; [discriminate H|]). exact H.
Qed.

Lemma joined_starts (d : text) (deps : list text) :
  starts_entry (join [NL] (List.map (entry_line 4) (d :: deps))).
Proof.
  destruct deps as [|d' deps]; simpl; eexists; reflexivity.
Qed.

Lemma joined_breaks (deps : list text) :
  Forall (fun e => ~ In NL e) deps ->
  forall a b,
    join [NL] (List.map (entry_line 4) deps) = a ++ NL :: b ->
    starts_entry b.
Proof.
  induction deps as [|d deps IH]; intros Hd a b E.
  - destruct a; discriminate E.
  - inversion Hd as [|? ? Hd1 Hd2]; subst.
    destruct deps as [|d' deps].
    + exfalso. apply (entry_line_no_nl d Hd1). simpl in E. rewrite E.
      apply in_or_app. right. now left.
    + change (join [NL] (List.map (entry_line 4) (d :: d' :: deps)))
        with (entry_line 4 d ++ NL ::
              join [NL] (List.map (entry_line 4) (d' :: deps))) in E.
      apply split_at_nl in E as [[_ ->]|(a' & _ & E)];
        [apply joined_starts | now apply (IH Hd2 a') |
         now apply entry_line_no_nl].
Qed.

Lemma entry_line_last (d : text) :
  entry_line 4 d = (repeat SP 4 ++ [DQ] ++ d ++ [DQ]) ++ [COMMA].
Proof. unfold entry_line. now rewrite <- !app_assoc. Qed.

Lemma joined_commas (deps : list text) :
  Forall (fun e => ~ In NL e) deps ->
  forall a c y,
    join [NL] (List.map (entry_line 4) deps) ++ [NL] = a ++ c :: NL :: y ->
    c = COMMA.
Proof.
  induction deps as [|d deps IH]; intros Hd a c y E.
  - destruct a as [|? [|? ?]]; discriminate E.
  - inversion Hd as [|? ? Hd1 Hd2]; subst.
    assert (Hline : forall a0 r,
               entry_line 4 d ++ NL :: r = (a0 ++ [c]) ++ NL :: y ->
               (c = COMMA) \/
               exists a', a0 ++ [c] = entry_line 4 d ++ NL :: a'
                          /\ r = a' ++ NL :: y).
    { intros a0 r E0. apply split_at_nl in E0 as [[E0 _]|E0];
        [|now right|now apply entry_line_no_nl].
      left. rewrite entry_line_last in E0.
      now apply app_inj_tail in E0 as [_ ->]. }
    destruct deps as [|d' deps].
    + assert (E' : entry_line 4 d ++ NL :: [] = (a ++ [c]) ++ NL :: y).
      { rewrite <- (app_assoc a [c]). cbn [app]. rewrite <- E. reflexivity. }
      apply Hline in E' as [E'|(a' & _ & E')]; [exact E'|].
      destruct a'; discriminate E'.
    + assert (E' : entry_line 4 d ++ NL ::
                   (join [NL] (List.map (entry_line 4) (d' :: deps)) ++ [NL])
                   = (a ++ [c]) ++ NL :: y).
      { rewrite <- (app_assoc a [c]). cbn [app]. rewrite <- E.
        change (join [NL] (List.map (entry_line 4) (d :: d' :: deps)))
          with (entry_line 4 d ++ [NL] ++
                join [NL] (List.map (entry_line 4) (d' :: deps))).
        rewrite <- !app_assoc. reflexivity. }
      apply Hline in E' as [E'|(a' & Ea & E')]; [exact E'|].
      destruct (joined_starts d' deps) as [s0 Hs0].
      destruct a' as [|x a'] using rev_ind.
      * rewrite Hs0 in E'. discriminate E'.
      * clear IHa'. rewrite app_comm_cons, app_assoc in Ea.
        apply app_inj_tail in Ea as [_ ->].
        rewrite <- app_assoc in E'. apply (IH Hd2 a' x y E').
Qed.

(** The formatted entries begin as an entry line does, and so does the
    text behind each of their line feeds; each line feed in them and the
    one behind them comes after a comma; and they have no backslash. *)
Lemma formatted_shape (deps : list text) :
  deps <> [] -> Forall plain_entry deps ->
  starts_entry (format_dependencies deps 4)
  /\ (forall a b, format_dependencies deps 4 = a ++ NL :: b -> starts_entry b)
  /\ (forall a c y,
        format_dependencies deps 4 ++ [NL] = a ++ c :: NL :: y -> c = COMMA)
  /\ has_backslash (format_dependencies deps 4) = false.
Proof.
  intros Hne Hd. rewrite format_join.
  assert (Hn : Forall (fun e => ~ In NL e) deps).
  { apply Forall_forall. intros e He.
    rewrite Forall_forall in Hd. now apply Hd. }
  split; [|split; [|split]].
  - destruct deps; [contradiction | apply joined_starts].
  - now apply joined_breaks.
  - now apply joined_commas.
  - clear Hne Hn. induction deps as [|d deps IH]; [reflexivity|].
    inversion Hd as [|? ? [Hb _] Hd2]; subst.
    destruct deps as [|d' deps].
    + simpl. unfold entry_line. rewrite !has_backslash_app, Hb. reflexivity.
    + change (join [NL] (List.map (entry_line 4) (d :: d' :: deps)))
        with (entry_line 4 d ++ [NL] ++
              join [NL] (List.map (entry_line 4) (d' :: deps))).
      rewrite !has_backslash_app, (IH Hd2). unfold entry_line.
      rewrite !has_backslash_app, Hb. reflexivity.
Qed.

(** *** The attempt on a region the synchronizer wrote *)

Lemma hd_flat_map_skip {A B} (k : A -> list B) (l1 l2 : list A) :
  (forall y, In y l1 -> k y = []) ->
  flat_map k (l1 ++ l2) = flat_map k l2.
Proof.
  intros H. induction l1 as [|x l1 IH]; [reflexivity|].
  simpl. rewrite (H x (or_introl eq_refl)). apply IH.
  intros y Hy. apply H. now right.
Qed.

Lemma lazy_prefix (w bef aft : text) cp :
  exists l1,
    lazy CsAny bef (w ++ aft) cp = l1 ++ lazy CsAny (rev w ++ bef) aft cp
    /\ forall y, In y l1 ->
         exists a c b, w = a ++ c :: b
                       /\ y = MState (rev a ++ bef) (c :: b ++ aft) cp.
Proof.
  revert bef; induction w as [|c w IH]; intros bef.
  - exists []. split; [reflexivity | intros y []].
  - destruct (IH (c :: bef)) as (l1 & E & H).
    exists (MState bef (c :: w ++ aft) cp :: l1). split.
    + simpl. rewrite E. now rewrite <- app_assoc.
    + intros y [<-|Hy].
      * now exists [], c, w.
      * destruct (H y Hy) as (a & c' & b & -> & ->).
        exists (c :: a), c', b. split; [reflexivity|].
        simpl. now rewrite <- app_assoc.
Qed.

Lemma lazy_head cs (bef aft : text) cp :
  exists l, lazy cs bef aft cp = MState bef aft cp :: l.
Proof. destruct aft; simpl; eexists; reflexivity. Qed.

Lemma closing_fails_char (c : char) (rest bef : text) cp :
  c <> NL -> rmatch closing (MState bef (c :: rest) cp) = [].
Proof.
  intros H. unfold closing. cbn [rmatch before after caps eat].
  destruct (N.eqb_spec NL c) as [E|_]; [now symmetry in E | reflexivity].
Qed.

Lemma closing_fails_line (b bef : text) cp :
  starts_entry b -> rmatch closing (MState bef (NL :: b) cp) = [].
Proof. intros [b0 ->]. reflexivity. Qed.

Lemma closing_first (bef post : text) cp :
  hd_error (rmatch closing (MState bef (NL :: RBRACKET :: post) cp)) =
  Some (MState (RBRACKET :: NL :: bef) post
          ((3%nat, [NL; RBRACKET]) :: cp)).
Proof.
  unfold closing. cbn. unfold set_cap. cbn [before after caps].
  do 4 f_equal. apply (span_app [NL; RBRACKET] post).
Qed.

Lemma lit_nl_fails r (c : char) (rest bef : text) cp :
  (NL =? c) = false ->
  rmatch (RLit [NL] +++ r) (MState bef (c :: rest) cp) = [].
Proof. intros H. cbn [rmatch before after caps eat]. now rewrite H. Qed.

(** Behind the head, on a line feed, the formatted entries, a line feed
    and the closing bracket, the first answer of the matcher takes just
    these, with the entries as the body. *)
Lemma tail_first (F post bef : text) cp :
  starts_entry F ->
  (forall a b, F = a ++ NL :: b -> starts_entry b) ->
  exists bef',
    hd_error (rmatch tail_pattern
                (MState bef (NL :: F ++ NL :: RBRACKET :: post) cp)) =
    Some (MState bef' post ((3%nat, [NL; RBRACKET]) :: (2%nat, F) :: cp)).
Proof.
  intros [F0 HF] Hbr.
  set (rest := RGroup 2 (RLazy CsAny) +++ closing).
  assert (Hg : rmatch (RStar CsSpace)
                 (MState bef (NL :: F ++ NL :: RBRACKET :: post) cp) =
               [MState (SP :: SP :: SP :: SP :: NL :: bef)
                  (DQ :: F0 ++ NL :: RBRACKET :: post) cp;
                MState (SP :: SP :: SP :: NL :: bef)
                  (SP :: DQ :: F0 ++ NL :: RBRACKET :: post) cp;
                MState (SP :: SP :: NL :: bef)
                  (SP :: SP :: DQ :: F0 ++ NL :: RBRACKET :: post) cp;
                MState (SP :: NL :: bef)
                  (SP :: SP :: SP :: DQ :: F0 ++ NL :: RBRACKET :: post) cp;
                MState (NL :: bef)
                  (SP :: SP :: SP :: SP :: DQ :: F0 ++ NL :: RBRACKET :: post) cp]
               ++ [MState bef (NL :: F ++ NL :: RBRACKET :: post) cp]).
  { rewrite HF. reflexivity. }
  unfold tail_pattern. fold rest.
  change (rmatch (RStar CsSpace +++ RLit [NL] +++ rest)
            (MState bef (NL :: F ++ NL :: RBRACKET :: post) cp))
    with (flat_map (rmatch (RLit [NL] +++ rest))
            (rmatch (RStar CsSpace)
               (MState bef (NL :: F ++ NL :: RBRACKET :: post) cp))).
  rewrite Hg, hd_flat_map_skip.
  2:{ intros y Hy. simpl in Hy.
      repeat (destruct Hy as [<-|Hy]; [now apply lit_nl_fails|]).
      destruct Hy. }
  cbn [flat_map]. rewrite app_nil_r.
  change (rmatch (RLit [NL] +++ rest)
            (MState bef (NL :: F ++ NL :: RBRACKET :: post) cp))
    with (flat_map (rmatch rest)
            [MState (NL :: bef) (F ++ NL :: RBRACKET :: post) cp]).
  cbn [flat_map]. rewrite app_nil_r.
  unfold rest.
  change (rmatch (RGroup 2 (RLazy CsAny) +++ closing)
            (MState (NL :: bef) (F ++ NL :: RBRACKET :: post) cp))
    with (flat_map (rmatch closing)
            (List.map (set_cap 2 (F ++ NL :: RBRACKET :: post))
               (lazy CsAny (NL :: bef) (F ++ NL :: RBRACKET :: post) cp))).
  destruct (lazy_prefix F (NL :: bef) (NL :: RBRACKET :: post) cp)
    as (l1 & El & Hl1).
  rewrite El, map_app, hd_flat_map_skip.
  2:{ intros y Hy. apply in_map_iff in Hy as (y0 & <- & Hy0).
      destruct (Hl1 y0 Hy0) as (a & c & b & EF & ->).
      unfold set_cap. cbn [before after caps].
      destruct (N.eq_dec c NL) as [->|Hc].
      - apply closing_fails_line. destruct (Hbr a b EF) as [b0 ->].
        eexists. reflexivity.
      - now apply closing_fails_char. }
  destruct (lazy_head CsAny (rev F ++ NL :: bef) (NL :: RBRACKET :: post) cp)
    as [l2 ->].
  cbn [List.map flat_map]. unfold set_cap at 1. cbn [before after caps].
  eexists. apply hd_error_app.
  rewrite closing_first. do 5 f_equal.
  apply (span_app F (NL :: RBRACKET :: post)).
Qed.

(** *** Attempts inside a region the synchronizer wrote *)

Lemma prefix_before_char (P t v Z : text) (x : char) :
  ~ In x P -> P ++ t = v ++ x :: Z -> exists y, v = P ++ y.
Proof.
  intros Hx E. apply app_eq_app in E as [l [[E1 E2]|[E1 E2]]].
  - destruct l as [|c l].
    + exists []. now rewrite app_nil_r in *.
    + injection E2 as -> _. exfalso. apply Hx. rewrite E1.
      apply in_or_app. right. now left.
  - now exists l.
Qed.

Lemma sep_not_bracket (W : text) : forallb sep W = true -> ~ In RBRACKET W.
Proof.
  rewrite forallb_forall. intros H Hi. specialize (H _ Hi). discriminate H.
Qed.

Lemma label_not_bracket (M : text) :
  forallb label_char M = true -> ~ In RBRACKET M.
Proof.
  rewrite forallb_forall. intros H Hi. specialize (H _ Hi). discriminate H.
Qed.

(** The text of an attempt that succeeds: the label, separators that end
    with a separator and a line feed, and more. *)
Lemma attempt_text M bef aft st :
  match_here (array_pattern M) false bef aft = Some st ->
  exists W c t,
    aft = M ++ (W ++ [c; NL]) ++ t
    /\ forallb sep (W ++ [c; NL]) = true /\ sep c = true.
Proof.
  intros Hm. apply array_match_here in Hm as (Hr & _ & Ha).
  destruct Hr as (ws1 & ws2 & ws3 & body & ws4 & H1 & H0 & S1 & S2 & S3 & S4).
  rewrite H1 in H0. clear H1.
  destruct ws3 as [|x ws3] using rev_ind.
  - exists (ws1 ++ lit "=" ++ ws2), 91,
      (body ++ [NL] ++ ws4 ++ lit "]" ++ after st).
    split; [|split; [|reflexivity]].
    + rewrite Ha, H0. rewrite <- !app_assoc. reflexivity.
    + rewrite !forallb_app, (spaces_sep ws1 S1), (spaces_sep ws2 S2).
      reflexivity.
  - clear IHws3. exists (ws1 ++ lit "=" ++ ws2 ++ lit "[" ++ ws3), x,
      (body ++ [NL] ++ ws4 ++ lit "]" ++ after st).
    apply spaces_sep in S3. rewrite forallb_app in S3.
    apply andb_true_iff in S3 as [S3 Sx]. cbn [forallb] in Sx.
    apply andb_true_iff in Sx as [Sx _].
    split; [|split; [|exact Sx]].
    + rewrite Ha, H0. rewrite <- !app_assoc. reflexivity.
    + rewrite !forallb_app, (spaces_sep ws1 S1), (spaces_sep ws2 S2), S3.
      cbn [forallb]. rewrite Sx. reflexivity.
Qed.

(** No attempt succeeds from inside a region the synchronizer wrote. *)
Lemma inside_fails M L ws1 ws2 (F u v Z bef : text) :
  label_ok M -> label_ok L -> (forall k, k <> [] -> L <> k ++ M) ->
  spaces ws1 = true -> spaces ws2 = true ->
  (forall a c y, F ++ [NL] = a ++ c :: NL :: y -> c = COMMA) ->
  (L ++ ws1 ++ lit "=" ++ ws2 ++ lit "[") ++ NL :: F ++ [NL; RBRACKET]
    = u ++ v ->
  u <> [] -> v <> [] ->
  match_here (array_pattern M) false bef (v ++ Z) = None.
Proof.
  intros [HMne HM] [HLne HL] Hsuf S1 S2 Hcomma E Hu Hv.
  destruct (match_here (array_pattern M) false bef (v ++ Z)) as [st|] eqn:Hm;
    [|reflexivity].
  exfalso.
  destruct (attempt_text M bef _ st Hm) as (W & c & t & Et & HW & Hc).
  destruct (head_seps ws1 ws2 S1 S2) as [HS HSne].
  assert (Hstart : forall x v0, v = x :: v0 -> sep x = true -> False).
  { intros x v0 -> Hx. destruct M as [|m M]; [contradiction|].
    injection Et as -> _. cbn [forallb] in HM.
    apply andb_true_iff in HM as [HM _]. apply label_not_sep in HM.
    congruence. }
  rewrite <- app_assoc in E.
  apply app_eq_app in E as [l [[E1 E2]|[E1 E2]]].
  - (* from inside the label *)
    destruct l as [|x l].
    + rewrite app_nil_l in E2. subst v.
      destruct (ws1 ++ lit "=" ++ ws2 ++ lit "[") as [|x S] eqn:ES;
        [contradiction|].
      cbn [forallb] in HS. apply andb_true_iff in HS as [HS _].
      apply (Hstart x (S ++ NL :: F ++ [NL; RBRACKET]) eq_refl HS).
    + assert (Hl : forallb label_char (x :: l) = true).
      { rewrite E1, forallb_app in HL.
        now apply andb_true_iff in HL as [_ HL]. }
      assert (Hsome : M = x :: l).
      { apply (label_until_sep M (x :: l) (W ++ [c; NL])
                 (ws1 ++ lit "=" ++ ws2 ++ lit "[") t
                 (NL :: F ++ [NL; RBRACKET] ++ Z) HM Hl HW);
          [now destruct W | exact HS | exact HSne |].
        rewrite <- Et, E2. list_eq. }
      apply (Hsuf u Hu). now rewrite E1, Hsome.
  - (* from behind the label *)
    apply app_eq_app in E2 as [l2 [[E3 E4]|[E3 E4]]].
    + (* from inside the separators *)
      destruct l2 as [|x l2].
      * rewrite app_nil_l in E4. subst v.
        apply (Hstart NL (F ++ [NL; RBRACKET]) eq_refl eq_refl).
      * subst v. apply (Hstart x (l2 ++ NL :: F ++ [NL; RBRACKET]) eq_refl).
        rewrite E3, forallb_app in HS. apply andb_true_iff in HS as [_ HS].
        cbn [forallb] in HS. now apply andb_true_iff in HS as [HS _].
    + (* from the line feed or behind it *)
      destruct l2 as [|x l2].
      * rewrite app_nil_l in E4. subst v.
        apply (Hstart NL (F ++ [NL; RBRACKET]) eq_refl eq_refl).
      * injection E4 as Hx E4. subst x.
        destruct v as [|z v] using rev_ind; [contradiction|]. clear IHv.
        change (F ++ [NL; RBRACKET]) with (F ++ [NL] ++ [RBRACKET]) in E4.
        rewrite !app_assoc in E4.
        apply app_inj_tail in E4 as [E4 <-].
        rewrite <- app_assoc in Et.
        change ((v ++ [RBRACKET] ++ Z)) with (v ++ RBRACKET :: Z) in Et.
        symmetry in Et. rewrite app_assoc in Et.
        apply prefix_before_char in Et as [y Ey].
        -- rewrite Ey in E4. rewrite <- !app_assoc in E4.
           rewrite (app_assoc l2), (app_assoc (l2 ++ M)) in E4.
           apply Hcomma in E4. subst c. discriminate Hc.
        -- intros Hi. apply in_app_or in Hi as [Hi|Hi].
           ++ now apply (label_not_bracket M HM).
           ++ now apply (sep_not_bracket _ HW).
Qed.

(** An attempt for one label fails where another label is written. *)
Lemma other_label_fails M L (S X bef : text) :
  label_ok M -> label_ok L -> M <> L ->
  forallb sep S = true -> S <> [] ->
  match_here (array_pattern M) false bef (L ++ S ++ X) = None.
Proof.
  intros [_ HM] [_ HL] Hne HS HSne.
  destruct (match_here (array_pattern M) false bef (L ++ S ++ X))
    as [st|] eqn:Hm; [|reflexivity].
  exfalso.
  destruct (attempt_text M bef _ st Hm) as (W & c & t & Et & HW & Hc).
  apply Hne. symmetry in Et.
  apply (label_until_sep M L (W ++ [c; NL]) S t X HM HL HW); auto.
  now destruct W.
Qed.

(** *** The head, and the whole attempt *)

Lemma head_first label ws1 ws2 (T bef : text) :
  spaces ws1 = true -> spaces ws2 = true ->
  exists bef1,
    hd_error
      (rmatch (RGroup 1 (RLit label +++ RStar CsSpace +++ RLit (lit "=")
                         +++ RStar CsSpace +++ RLit (lit "[")))
         (MState bef ((label ++ ws1 ++ lit "=" ++ ws2 ++ lit "[") ++ T) []))
    = Some (MState bef1 T
              [(1%nat, label ++ ws1 ++ lit "=" ++ ws2 ++ lit "[")]).
Proof.
  intros S1 S2.
  assert (H : exists bef1,
             hd_error
               (rmatch (RLit label +++ RStar CsSpace +++ RLit (lit "=")
                        +++ RStar CsSpace +++ RLit (lit "["))
                  (MState bef
                     ((label ++ ws1 ++ lit "=" ++ ws2 ++ lit "[") ++ T) []))
             = Some (MState bef1 T [])).
  { rewrite <- !app_assoc. eexists.
    eapply first_seq; [apply first_lit|].
    eapply first_seq; [apply first_star; [exact S1 | reflexivity]|].
    eapply first_seq; [apply first_lit|].
    eapply first_seq; [apply first_star; [exact S2 | reflexivity]|].
    apply first_lit. }
  destruct H as [bef1 H]. exists bef1.
  apply (first_group 1) in H. rewrite H. unfold set_cap.
  cbn [before after caps]. do 4 f_equal. apply span_app.
Qed.

(** On a head, a line feed, the formatted entries, a line feed and the
    closing bracket, the attempt takes just these. *)
Lemma written_region_first label ws1 ws2 (F post bef : text) :
  spaces ws1 = true -> spaces ws2 = true ->
  starts_entry F ->
  (forall a b, F = a ++ NL :: b -> starts_entry b) ->
  exists st,
    match_here (array_pattern label) false bef
      ((label ++ ws1 ++ lit "=" ++ ws2 ++ lit "[")
       ++ NL :: F ++ NL :: RBRACKET :: post) = Some st
    /\ group 1 st = label ++ ws1 ++ lit "=" ++ ws2 ++ lit "["
    /\ group 0 st = (label ++ ws1 ++ lit "=" ++ ws2 ++ lit "[")
                    ++ NL :: F ++ [NL; RBRACKET]
    /\ after st = post.
Proof.
  intros S1 S2 HF Hbr.
  destruct (head_first label ws1 ws2 (NL :: F ++ NL :: RBRACKET :: post) bef
              S1 S2) as [bef1 H1].
  destruct (tail_first F post bef1
              [(1%nat, label ++ ws1 ++ lit "=" ++ ws2 ++ lit "[")] HF Hbr)
    as [bef2 H2].
  pose proof (first_seq _ _ _ _ _ H1 H2) as H.
  change (RGroup 1 (RLit label +++ RStar CsSpace +++ RLit (lit "=")
                    +++ RStar CsSpace +++ RLit (lit "[")) +++ tail_pattern)
    with (array_pattern label) in H.
  apply match_here_first in H.
  eexists. split; [exact H|].
  split; [reflexivity|]. split; [|reflexivity].
  destruct (match_here_span _ _ _ _ _ H) as [E _].
  cbn [after set_cap] in E.
  apply (app_inv_tail post).
  rewrite <- E. list_eq.
Qed.

(** *** Texts in which every match is of the written form *)

Lemma array_anchor_free label : anchor_free (array_pattern label) = true.
Proof. reflexivity. Qed.

(** An attempt gives the same groups whatever lies before it. *)
Lemma attempt_anywhere label (bef bef' aft : text) st :
  match_here (array_pattern label) false bef aft = Some st ->
  exists st',
    match_here (array_pattern label) false bef' aft = Some st'
    /\ group 0 st' = group 0 st /\ group 1 st' = group 1 st
    /\ after st' = after st.
Proof.
  intros H.
  destruct (match_here_same (array_pattern label) false bef bef' aft
              (array_anchor_free label)) as [|s1 s2 [Ha Hc]];
    [discriminate|].
  injection H as <-. exists s2. unfold group. rewrite Hc, Ha. auto.
Qed.

Lemma canonical_suffix label F (a b : text) :
  canonical label F (a ++ b) -> canonical label F b.
Proof.
  intros H a' b' st E Hm. apply (H (a ++ a') b' st); [|exact Hm].
  now rewrite E, app_assoc.
Qed.

Lemma split_three (a b p r q : text) :
  a ++ b = p ++ r ++ q ->
  (exists b1, b1 <> [] /\ p = a ++ b1 /\ b = b1 ++ r ++ q)
  \/ b = r ++ q
  \/ (exists u v, u <> [] /\ v <> [] /\ r = u ++ v /\ b = v ++ q)
  \/ (exists a2, q = a2 ++ b).
Proof.
  intros E. apply app_eq_app in E as [l [[E1 E2]|[E1 E2]]].
  - symmetry in E2. apply app_eq_app in E2 as [l' [[E3 E4]|[E3 E4]]].
    + right. right. right. now exists l'.
    + destruct l as [|x l]; [right; left; now rewrite E4, E3|].
      destruct l' as [|y l']; [right; right; right; now exists []|].
      right. right. left. exists (x :: l), (y :: l').
      repeat split; try discriminate; auto.
  - destruct l as [|x l]; [right; left; exact E2|].
    left. exists (x :: l). repeat split; [discriminate | exact E1 | exact E2].
Qed.

Lemma search_none_all r (s bef : text) :
  search_from r bef s = None ->
  forall a b, s = a ++ b -> match_here r false (rev a ++ bef) b = None.
Proof.
  intros H a b ->.
  destruct (match_here r false (rev a ++ bef) b) as [st|] eqn:E;
    [|reflexivity].
  apply search_from_complete in E as [st' E]. congruence.
Qed.

Section OneArray.
Variable label : text.
Variable deps : list text.
Hypothesis Hlabel : label_ok label.
Hypothesis Hdeps : deps <> [].
Hypothesis Hplain : Forall plain_entry deps.

Let F := format_dependencies deps 4.
Let items := TGroup 1 :: List.map TChar ([NL] ++ F ++ [NL; RBRACKET]).

Lemma expand_written st :
  expand items st = group 1 st ++ NL :: F ++ [NL; RBRACKET].
Proof. unfold items. cbn [expand]. now rewrite expand_chars. Qed.

(** A text in which every match is of the written form is left as it is
    by the substitution. *)
Lemma canonical_fixed (x : text) :
  canonical label F x -> forall bef, sub_loop (array_pattern label) items bef O x = x.
Proof.
  remember (length x) as n eqn:Hn. revert x Hn.
  induction n as [n IH] using lt_wf_ind. intros x Hn Hc bef.
  destruct (match_here (array_pattern label) false bef x) as [st|] eqn:E.
  - destruct (array_match_here _ _ _ _ _ E) as (Hr & Hne & Ha).
    destruct (attempt_anywhere label bef [] x st E) as (st' & E' & G0 & G1 & _).
    pose proof (Hc [] x st' eq_refl E') as Hg. rewrite G0, G1 in Hg.
    rewrite (sub_loop_match (array_pattern label) items _ _ _ E Hne), expand_written, <- Hg.
    rewrite (IH (length (after st))); [now rewrite <- Ha | | reflexivity |].
    + apply (f_equal (@length _)) in Ha. rewrite length_app in Ha.
      destruct (group 0 st); [congruence | simpl in Ha; lia].
    + apply (canonical_suffix label F (group 0 st)). now rewrite <- Ha.
  - destruct x as [|c x]; simpl; rewrite E; [reflexivity|].
    f_equal. apply (IH (length x)); [subst n; simpl; lia | reflexivity |].
    now apply (canonical_suffix label F [c]).
Qed.

Lemma self_not_suffix (k : text) : k <> [] -> label <> k ++ label.
Proof.
  intros Hk E. apply (f_equal (@length _)) in E. rewrite length_app in E.
  destruct k; [contradiction | simpl in E; lia].
Qed.

(** What the substitution gives, where the pattern has a match. *)
Lemma sub_first_match (s : text) st :
  search_from (array_pattern label) [] s = Some st ->
  exists pre ws1 ws2,
    s = pre ++ group 0 st ++ after st
    /\ array_region label (group 1 st) (group 0 st)
    /\ group 0 st <> []
    /\ group 1 st = label ++ ws1 ++ lit "=" ++ ws2 ++ lit "["
    /\ spaces ws1 = true /\ spaces ws2 = true
    /\ match_here (array_pattern label) false (rev pre ++ []) (group 0 st ++ after st) = Some st
    /\ (forall a b, pre = a ++ b -> b <> [] ->
          match_here (array_pattern label) false (rev a ++ [])
            (b ++ group 0 st ++ after st) = None)
    /\ sub_loop (array_pattern label) items [] O s =
         pre ++ ((label ++ ws1 ++ lit "=" ++ ws2 ++ lit "[")
                 ++ NL :: F ++ [NL; RBRACKET])
         ++ sub_loop (array_pattern label) items [] O (after st).
Proof.
  intros Hs.
  apply search_from_first in Hs as (pre & aft0 & Es & Hm & Hfail).
  destruct (array_match_here _ _ _ _ _ Hm) as (Hr & Hne & Ha).
  pose proof Hr as (ws1 & ws2 & ws3 & body & ws4 & H1 & _ & S1 & S2 & _).
  exists pre, ws1, ws2. rewrite <- Ha.
  repeat split; auto.
  rewrite Es, (sub_loop_pass (array_pattern label) items pre aft0 [] Hfail).
  rewrite (sub_loop_match (array_pattern label) items _ _ _ Hm Hne), expand_written, H1.
  rewrite (sub_loop_same (array_pattern label) items (array_anchor_free label)
             (after st) (before st) [] O).
  reflexivity.
Qed.

(** After the substitution every match is of the written form. *)
Lemma sub_canonical (s : text) :
  canonical label F (sub_loop (array_pattern label) items [] O s).
Proof.
  remember (length s) as n eqn:Hn. revert s Hn.
  induction n as [n IH] using lt_wf_ind. intros s Hn.
  destruct (formatted_shape deps Hdeps Hplain) as (HF1 & HF2 & HF3 & _).
  fold F in HF1, HF2, HF3.
  destruct (search_from (array_pattern label) [] s) as [st|] eqn:Hs.
  - destruct (sub_first_match s st Hs)
      as (pre & ws1 & ws2 & Es & Hreg & Hne & Hg1 & S1 & S2 & Hm & Hfail & Hsub).
    rewrite Hsub. intros a b st2 E Hm2.
    destruct (head_seps ws1 ws2 S1 S2) as [HS HSne].
    symmetry in E.
    apply split_three in E as [(b1 & Hb1 & Ep & Eb)|[Eb|[(u & v & Hu & Hv & Er & Eb)|[a2 Eq]]]].
    + exfalso.
      assert (Et : b = b1 ++ label ++ (ws1 ++ lit "=" ++ ws2 ++ lit "[")
                       ++ (NL :: F ++ [NL; RBRACKET])
                       ++ sub_loop (array_pattern label) items [] O (after st)).
      { rewrite Eb. list_eq. }
      rewrite Et in Hm2.
      destruct (attempt_before label label (group 1 st) (group 0 st)
                  (rev a ++ []) [] b1 (after st) _ _ st2
                  Hlabel Hlabel self_not_suffix Hreg Hb1 HS HSne Hm2)
        as [st1 H1].
      rewrite (Hfail a b1 Ep Hb1) in H1. discriminate.
    + destruct (written_region_first label ws1 ws2 F
                  (sub_loop (array_pattern label) items [] O (after st)) [] S1 S2 HF1 HF2)
        as (st3 & H3 & G1 & G0 & _).
      assert (Et : b = (label ++ ws1 ++ lit "=" ++ ws2 ++ lit "[") ++
                       NL :: F ++ NL :: RBRACKET ::
                       sub_loop (array_pattern label) items [] O (after st)).
      { rewrite Eb. list_eq. }
      rewrite Et in Hm2. rewrite H3 in Hm2.
      injection Hm2 as <-. now rewrite G0, G1.
    + exfalso. rewrite Eb in Hm2.
      rewrite (inside_fails label label ws1 ws2 F u v _ []
                 Hlabel Hlabel self_not_suffix S1 S2 HF3 Er Hu Hv) in Hm2.
      discriminate.
    + assert (Hlen : (length (after st) < n)%nat).
      { rewrite Hn, Es, !length_app.
        destruct (group 0 st); [congruence | simpl; lia]. }
      apply (IH (length (after st)) Hlen (after st) eq_refl a2 b st2 Eq Hm2).
  - pose proof (search_none_all (array_pattern label) s [] Hs) as Hnone.
    rewrite (sub_loop_no_match (array_pattern label) items s [] Hnone).
    intros a b st E Hm.
    destruct (attempt_anywhere label [] (rev a ++ []) b st Hm) as (st' & H' & _).
    rewrite (Hnone a b E) in H'. discriminate.
Qed.

End OneArray.

Section TwoArrays.
Variables M L : text.
Variables depsM depsL : list text.
Hypothesis HM : label_ok M.
Hypothesis HL : label_ok L.
Hypothesis Hdiff : M <> L.
Hypothesis Hunrelated : unrelated M L.
Hypothesis HdepsM : depsM <> [].
Hypothesis HplainM : Forall plain_entry depsM.
Hypothesis HdepsL : depsL <> [].
Hypothesis HplainL : Forall plain_entry depsL.

Let FM := format_dependencies depsM 4.
Let FL := format_dependencies depsL 4.
Let itemsL := TGroup 1 :: List.map TChar ([NL] ++ FL ++ [NL; RBRACKET]).

(** The substitution for one array keeps the matches of the other of the
    written form. *)
Lemma sub_keeps_canonical (x : text) :
  canonical M FM x ->
  canonical M FM (sub_loop (array_pattern L) itemsL [] O x).
Proof.
  remember (length x) as n eqn:Hn. revert x Hn.
  induction n as [n IH] using lt_wf_ind. intros x Hn Hc.
  destruct (formatted_shape depsM HdepsM HplainM) as (HF1 & HF2 & HF3 & _).
  fold FM in HF1, HF2, HF3.
  destruct (formatted_shape depsL HdepsL HplainL) as (_ & _ & HG3 & _).
  fold FL in HG3.
  destruct (search_from (array_pattern L) [] x) as [st|] eqn:Hs.
  - destruct (sub_first_match L depsL x st Hs)
      as (pre & ws1 & ws2 & Es & Hreg & Hne & Hg1 & S1 & S2 & Hm & Hfail & Hsub).
    fold FL in Hsub. fold itemsL in Hsub.
    rewrite Hsub. intros a b st2 E Hm2.
    destruct (head_seps ws1 ws2 S1 S2) as [HS HSne].
    symmetry in E.
    apply split_three in E as [(b1 & Hb1 & Ep & Eb)|[Eb|[(u & v & Hu & Hv & Er & Eb)|[a2 Eq]]]].
    + assert (Et : b = b1 ++ L ++ (ws1 ++ lit "=" ++ ws2 ++ lit "[")
                       ++ (NL :: FL ++ [NL; RBRACKET])
                       ++ sub_loop (array_pattern L) itemsL [] O (after st)).
      { rewrite Eb. list_eq. }
      pose proof Hm2 as Hm2'. rewrite Et in Hm2'.
      destruct (attempt_before M L (group 1 st) (group 0 st)
                  [] [] b1 (after st) _ _ st2
                  HM HL (fun k Hk => proj1 (Hunrelated k Hk))
                  Hreg Hb1 HS HSne Hm2')
        as [st1 H1].
      assert (Ex : x = a ++ b1 ++ group 0 st ++ after st).
      { rewrite Es, Ep. now rewrite <- app_assoc. }
      pose proof (Hc a _ st1 Ex H1) as Hcanon.
      destruct (array_match_here _ _ _ _ _ H1) as (Hr1 & _ & Ha1).
      destruct Hr1 as (v1 & v2 & _ & _ & _ & Hh1 & _ & T1 & T2 & _).
      rewrite Hcanon, Hh1 in Ha1.
      apply app_eq_app in Ha1 as [l [[E1 E2]|[E1 E2]]].
      * (* the written region of the other array lies before the match *)
        destruct (written_region_first M v1 v2 FM
                    (l ++ ((L ++ ws1 ++ lit "=" ++ ws2 ++ lit "[")
                           ++ NL :: FL ++ [NL; RBRACKET])
                     ++ sub_loop (array_pattern L) itemsL [] O (after st))
                    [] T1 T2 HF1 HF2)
          as (st3 & H3 & G1 & G0 & _).
        assert (Eb' : b = (M ++ v1 ++ lit "=" ++ v2 ++ lit "[") ++
                          NL :: FM ++ NL :: RBRACKET ::
                          l ++ ((L ++ ws1 ++ lit "=" ++ ws2 ++ lit "[")
                                ++ NL :: FL ++ [NL; RBRACKET])
                          ++ sub_loop (array_pattern L) itemsL [] O (after st)).
        { rewrite Eb, E1. list_eq. }
        rewrite Eb' in Hm2. rewrite H3 in Hm2.
        injection Hm2 as <-. now rewrite G0, G1.
      * destruct l as [|c l].
        -- (* the written region ends where the match begins *)
           rewrite app_nil_r in E1.
           destruct (written_region_first M v1 v2 FM
                       (((L ++ ws1 ++ lit "=" ++ ws2 ++ lit "[")
                         ++ NL :: FL ++ [NL; RBRACKET])
                        ++ sub_loop (array_pattern L) itemsL [] O (after st))
                       [] T1 T2 HF1 HF2)
             as (st3 & H3 & G1 & G0 & _).
           assert (Eb' : b = (M ++ v1 ++ lit "=" ++ v2 ++ lit "[") ++
                             NL :: FM ++ NL :: RBRACKET ::
                             ((L ++ ws1 ++ lit "=" ++ ws2 ++ lit "[")
                              ++ NL :: FL ++ [NL; RBRACKET])
                             ++ sub_loop (array_pattern L) itemsL [] O (after st)).
           { rewrite Eb, <- E1. list_eq. }
           rewrite Eb' in Hm2. rewrite H3 in Hm2.
           injection Hm2 as <-. now rewrite G0, G1.
        -- (* the match would begin inside a written region *)
           exfalso.
           pose proof (inside_fails L M v1 v2 FM b1 (c :: l) (after st1)
                         (rev pre ++ [])
                         HL HM (fun k Hk => proj1 (Hunrelated k Hk))
                         T1 T2 HF3 E1 Hb1 ltac:(discriminate)) as Hin.
           rewrite <- E2 in Hin. rewrite Hm in Hin. discriminate.
    + exfalso.
      assert (Et : b = L ++ (ws1 ++ lit "=" ++ ws2 ++ lit "[")
                       ++ (NL :: FL ++ [NL; RBRACKET])
                       ++ sub_loop (array_pattern L) itemsL [] O (after st)).
      { rewrite Eb. list_eq. }
      rewrite Et in Hm2.
      rewrite (other_label_fails M L _ _ [] HM HL Hdiff HS HSne) in Hm2.
      discriminate.
    + exfalso. rewrite Eb in Hm2.
      rewrite (inside_fails M L ws1 ws2 FL u v _ []
                 HM HL (fun k Hk => proj2 (Hunrelated k Hk))
                 S1 S2 HG3 Er Hu Hv) in Hm2.
      discriminate.
    + assert (Hlen : (length (after st) < n)%nat).
      { rewrite Hn, Es, !length_app.
        destruct (group 0 st); [congruence | simpl; lia]. }
      assert (Hcan : canonical M FM (after st)).
      { apply (canonical_suffix M FM (pre ++ group 0 st)).
        now rewrite <- app_assoc, <- Es. }
      apply (IH (length (after st)) Hlen (after st) eq_refl Hcan a2 b st2 Eq Hm2).
  - pose proof (search_none_all (array_pattern L) x [] Hs) as Hnone.
    now rewrite (sub_loop_no_match (array_pattern L) itemsL x [] Hnone).
Qed.

End TwoArrays.

(** *** The two arrays of the configuration file *)

Lemma dependencies_ok : label_ok (lit "dependencies").
Proof. split; [discriminate | reflexivity]. Qed.

Lemma test_ok : label_ok (lit "test").
Proof. split; [discriminate | reflexivity]. Qed.

Lemma labels_unrelated : unrelated (lit "dependencies") (lit "test").
Proof.
  intros k Hk. split; intros E.
  - apply (f_equal (@rev _)) in E. rewrite rev_app_distr in E.
    vm_compute in E. discriminate E.
  - apply (f_equal (@length _)) in E. rewrite length_app in E.
    change (length (lit "test")) with 4%nat in E.
    change (length (lit "dependencies")) with 12%nat in E. lia.
Qed.

Lemma unrelated_sym (m l : text) : unrelated m l -> unrelated l m.
Proof. intros H k Hk. destruct (H k Hk). now split. Qed.

(** With entries free of backslashes the step for an array is the loop of
    the substitution with the template read as group 1 and plain text. *)
Lemma update_array_sub label (deps : list text) (content : text) :
  deps <> [] -> Forall plain_entry deps ->
  update_array label deps content =
  Some (sub_loop (array_pattern label)
          (TGroup 1 ::
           List.map TChar ([NL] ++ format_dependencies deps 4
                           ++ [NL; RBRACKET]))
          [] O content).
Proof.
  intros Hne Hp.
  destruct (formatted_shape deps Hne Hp) as (_ & _ & _ & Hb).
  pose proof (array_items_plain label deps Hb) as Hi.
  unfold update_array, Re.sub.
  destruct deps; [congruence|]. cbn [is_empty negb].
  unfold array_items in Hi. now rewrite Hi.
Qed.

(** The text a step computes is a fixed point of the step, and every
    match in it is of the written form. *)
Lemma step_fixed_point label (deps : list text) (content out : text) :
  label_ok label -> Forall plain_entry deps ->
  update_array label deps content = Some out ->
  update_array label deps out = Some out
  /\ (deps <> [] -> canonical label (format_dependencies deps 4) out).
Proof.
  intros Hl Hp. destruct deps as [|d deps].
  - intros [= <-]. split; [reflexivity | congruence].
  - assert (Hne : d :: deps <> []) by discriminate.
    rewrite !(update_array_sub label (d :: deps) _ Hne Hp).
    intros [= <-].
    pose proof (sub_canonical label (d :: deps) Hl Hne Hp content) as Hc.
    split; [|intros _; exact Hc].
    f_equal. now apply canonical_fixed.
Qed.

(** The text the two steps compute is a fixed point of the two. *)
Lemma steps_fixed_point (deps dev_deps : list text) (content out : text) :
  Forall plain_entry deps -> Forall plain_entry dev_deps ->
  synced_content content deps dev_deps = Some out ->
  synced_content out deps dev_deps = Some out.
Proof.
  intros Hp Hq. unfold synced_content.
  destruct (update_array (lit "dependencies") deps content) as [mid|] eqn:E1;
    [|discriminate].
  intros E2.
  destruct (step_fixed_point _ _ _ _ dependencies_ok Hp E1) as [F1 C1].
  destruct (step_fixed_point _ _ _ _ test_ok Hq E2) as [F2 C2].
  destruct deps as [|d deps].
  - cbn [update_array is_empty negb]. exact F2.
  - assert (Hne : d :: deps <> []) by discriminate.
    destruct dev_deps as [|e dev_deps].
    + cbn [update_array is_empty negb] in E2. injection E2 as <-.
      rewrite F1. reflexivity.
    + assert (Hne' : e :: dev_deps <> []) by discriminate.
      assert (Hout : canonical (lit "dependencies")
                       (format_dependencies (d :: deps) 4) out).
      { rewrite (update_array_sub _ (e :: dev_deps) _ Hne' Hq) in E2.
        injection E2 as <-.
        apply (sub_keeps_canonical (lit "dependencies") (lit "test")
                 (d :: deps) (e :: dev_deps) dependencies_ok test_ok);
          [discriminate | apply labels_unrelated | exact Hne | exact Hp
          | exact Hne' | exact Hq | now apply C1]. }
      rewrite (update_array_sub _ (d :: deps) out Hne Hp).
      rewrite (canonical_fixed (lit "dependencies") (d :: deps) out Hout).
      exact F2.
Qed.

(** X11. The requirements synchronizer is idempotent when no entry has a
    backslash or a line feed: for a label made of characters other than
    white space, the equals sign and the brackets, the text the step for
    its array computes is mapped to itself by that step, on every
    document; and the text the two steps of [sync_to_pyproject] compute
    one after the other is mapped to itself by the two steps. *)
Theorem array_sync_idempotent :
  (forall label deps content out,
     label_ok label -> Forall plain_entry deps ->
     update_array label deps content = Some out ->
     update_array label deps out = Some out)
  /\ (forall deps dev_deps content out,
        Forall plain_entry deps -> Forall plain_entry dev_deps ->
        synced_content content deps dev_deps = Some out ->
        synced_content out deps dev_deps = Some out).
Proof.
  split.
  - intros label deps content out Hl Hp H.
    apply (proj1 (step_fixed_point label deps content out Hl Hp H)).
  - intros deps dev_deps content out Hp Hq H.
    now apply (steps_fixed_point deps dev_deps content out).
Qed.

(** X11 on the example of the specification. *)
Lemma array_sync_idempotent_witness :
  update_array (lit "dependencies") [lit "new==2"] Examples.pyproject_new
    = Some Examples.pyproject_new
  /\ synced_content Examples.pyproject_new [lit "new==2"] [lit "pytest"]
      = Some Examples.pyproject_new.
Proof.
  split.
  - apply (proj1 array_sync_idempotent (lit "dependencies") [lit "new==2"]
             Examples.pyproject_old Examples.pyproject_new).
    + split; [discriminate | reflexivity].
    + constructor; [|constructor]. split; [reflexivity|].
      vm_compute. intuition discriminate.
    + reflexivity.
  - apply (proj2 array_sync_idempotent [lit "new==2"] [lit "pytest"]
             Examples.pyproject_old Examples.pyproject_new).
    + constructor; [|constructor]. split; [reflexivity|].
      vm_compute. intuition discriminate.
    + constructor; [|constructor]. split; [reflexivity|].
      vm_compute. intuition discriminate.
    + reflexivity.
Defined.

(** *** Two runs of the script *)

Lemma unbroken_no_nl (e : text) : unbroken e = true -> ~ In NL e.
Proof.
  unfold unbroken. rewrite forallb_forall. intros H Hi.
  specialize (H NL Hi). discriminate H.
Qed.

Lemma entries_of_plain (file : option text) :
  Forall (fun e => has_backslash e = false) (entries_of file) ->
  Forall plain_entry (entries_of file)
  /\ Forall (fun e => unbroken e = true) (entries_of file).
Proof.
  assert (He : Forall is_entry (entries_of file)).
  { destruct file; [apply entries_are_entries | constructor]. }
  rewrite !Forall_forall in *. intros Hb. split; intros e Hi.
  - split; [now apply Hb|]. apply unbroken_no_nl. now apply (He e Hi).
  - now apply (He e Hi).
Qed.

Lemma formatted_no_cr (deps : list text) :
  Forall (fun e => unbroken e = true) deps ->
  no_cr (format_dependencies deps 4) = true.
Proof.
  intros H. rewrite format_join. apply no_cr_join.
  pose proof (entry_lines_good 4 deps H) as G.
  rewrite Forall_forall in *. intros l Hl. now apply (G l Hl).
Qed.

(** The substitution for an array brings in no carriage return. *)
Lemma sub_loop_no_cr label (t : text) :
  no_cr t = true ->
  forall (x : text),
    no_cr x = true ->
    forall bef,
      no_cr (sub_loop (array_pattern label) (TGroup 1 :: List.map TChar t)
               bef O x) = true.
Proof.
  intros Ht x. remember (length x) as n eqn:Hn. revert x Hn.
  induction n as [n IH] using lt_wf_ind. intros x Hn Hx bef.
  destruct (match_here (array_pattern label) false bef x) as [st|] eqn:E.
  - destruct (array_match_here _ _ _ _ _ E) as (Hr & Hne & Ha).
    rewrite (sub_loop_match _ _ _ _ _ E Hne). cbn [expand].
    rewrite expand_chars.
    destruct Hr as (ws1 & ws2 & ws3 & body & ws4 & H1 & H0 & _).
    rewrite Ha, H0 in Hx. rewrite !no_cr_app in Hx.
    apply andb_true_iff in Hx as [Hx1 Hx2].
    apply andb_true_iff in Hx1 as [Hx1 _].
    rewrite !no_cr_app, Hx1, Ht. cbn [andb].
    apply (IH (length (after st))); [|reflexivity|exact Hx2].
    rewrite Hn, Ha, length_app.
    destruct (group 0 st); [congruence | simpl; lia].
  - destruct x as [|c x]; simpl; rewrite E; [reflexivity|].
    unfold no_cr in Hx |- *. cbn [forallb] in Hx |- *.
    apply andb_true_iff in Hx as [Hc Hx]. rewrite Hc. cbn [andb].
    apply (IH (length x)); [subst n; simpl; lia | reflexivity | exact Hx].
Qed.

Lemma update_array_no_cr label (deps : list text) (content out : text) :
  Forall plain_entry deps -> Forall (fun e => unbroken e = true) deps ->
  no_cr content = true ->
  update_array label deps content = Some out -> no_cr out = true.
Proof.
  intros Hp Hu Hc. destruct deps as [|d deps].
  - now intros [= <-].
  - rewrite (update_array_sub label (d :: deps) content); [|discriminate|exact Hp].
    intros H. injection H as <-.
    apply (sub_loop_no_cr label
             ([NL] ++ format_dependencies (d :: deps) 4 ++ [NL; RBRACKET]));
      [|exact Hc].
    rewrite !no_cr_app, (formatted_no_cr _ Hu). reflexivity.
Qed.

Lemma update_array_some label (deps : list text) (content : text) :
  Forall plain_entry deps ->
  exists out, update_array label deps content = Some out.
Proof.
  intros Hp. destruct deps as [|d deps]; [now exists content|].
  rewrite (update_array_sub label (d :: deps) content);
    [eexists; reflexivity | discriminate | exact Hp].
Qed.

(** X12. Two runs of the requirements script, one after the other, when
    [pyproject.toml] exists and no entry of the two requirements files
    has a backslash: both end with code 0, and the second changes no
    file, writes nothing and reports that the file is already in sync. *)
Theorem requirements_sync_twice (w : world) (raw : text) :
  files w PyprojectToml = Some raw ->
  Forall (fun e => has_backslash e = false)
    (entries_of (files w RequirementsTxt)) ->
  Forall (fun e => has_backslash e = false)
    (entries_of (files w RequirementsDevTxt)) ->
  let first := sys_exit SyncRequirements.main w in
  let second := sys_exit SyncRequirements.main (snd first) in
  fst first = 0%nat /\ fst second = 0%nat
  /\ files (snd second) = files (snd first)
  /\ writes (snd first) (snd second) = []
  /\ stdout (snd second) =
       stdout (snd first) ++ ["pyproject.toml already in sync"%string].
Proof.
  intros Hp Hb1 Hb2 first second.
  destruct (entries_of_plain _ Hb1) as [P1 U1].
  destruct (entries_of_plain _ Hb2) as [P2 U2].
  set (deps := entries_of (files w RequirementsTxt)) in *.
  set (dev := entries_of (files w RequirementsDevTxt)) in *.
  destruct (update_array_some (lit "dependencies") deps
              (universal_newlines raw) P1) as [mid Emid].
  destruct (update_array_some (lit "test") dev mid P2) as [out Eout].
  assert (Es : synced_content (universal_newlines raw) deps dev = Some out).
  { unfold synced_content. now rewrite Emid. }
  assert (Hcr : no_cr out = true).
  { apply (update_array_no_cr (lit "test") dev mid out P2 U2); [|exact Eout].
    apply (update_array_no_cr (lit "dependencies") deps
             (universal_newlines raw) mid P1 U1);
      [apply universal_newlines_no_cr | exact Emid]. }
  assert (Hfix : synced_content out deps dev = Some out).
  { apply (steps_fixed_point deps dev (universal_newlines raw) out
             P1 P2 Es). }
  set (w3 := after_reads PyprojectToml RequirementsTxt RequirementsDevTxt w).
  assert (Hfirst : first =
    if negb (text_eqb out (universal_newlines raw))
    then (0%nat, after_print "Synced requirements to pyproject.toml"
                   (after_write PyprojectToml out w3))
    else (0%nat, after_print "pyproject.toml already in sync" w3)).
  { unfold first. rewrite requirements_main_run, Hp. cbn zeta.
    fold deps. fold dev. now rewrite Es. }
  assert (Hw3 : files w3 = files w) by apply files_after_reads.
  assert (Hfiles : exists stored,
             files (snd first) PyprojectToml = Some stored
             /\ universal_newlines stored = out
             /\ files (snd first) RequirementsTxt = files w RequirementsTxt
             /\ files (snd first) RequirementsDevTxt
                = files w RequirementsDevTxt).
  { rewrite Hfirst.
    destruct (text_eqb out (universal_newlines raw)) eqn:E; cbn [negb snd].
    - exists raw. cbn [files after_print]. rewrite Hw3.
      repeat split; auto. apply text_eqb_eq in E. now symmetry.
    - exists out. cbn [files after_print after_write]. rewrite Hw3.
      repeat split. now apply universal_newlines_id. }
  destruct Hfiles as (stored & Hs1 & Hs2 & Hs3 & Hs4).
  assert (Hsecond : second =
            (0%nat, after_print "pyproject.toml already in sync"
                      (after_reads PyprojectToml RequirementsTxt
                         RequirementsDevTxt (snd first)))).
  { unfold second. rewrite requirements_main_run, Hs1. cbn zeta.
    rewrite Hs2, Hs3, Hs4. fold deps. fold dev.
    now rewrite Hfix, text_eqb_refl. }
  split.
  { rewrite Hfirst. now destruct (negb _). }
  rewrite Hsecond. cbn [fst snd].
  split; [reflexivity|].
  split; [cbn [files after_print]; apply files_after_reads|].
  split.
  - pose proof (writes_after_reads PyprojectToml RequirementsTxt
                  RequirementsDevTxt (snd first)) as H.
    unfold writes, new_events in *. exact H.
  - cbn [stdout after_print]. unfold after_reads.
    now rewrite !stdout_after_parse.
Qed.

(** X12 on the example of the specification. *)
Lemma requirements_sync_twice_witness :
  let first := sys_exit SyncRequirements.main Examples.example_world in
  let second := sys_exit SyncRequirements.main (snd first) in
  fst first = 0%nat /\ fst second = 0%nat
  /\ files (snd second) = files (snd first)
  /\ writes (snd first) (snd second) = []
  /\ stdout (snd second) =
       stdout (snd first) ++ ["pyproject.toml already in sync"%string].
Proof.
  apply (requirements_sync_twice Examples.example_world Examples.pyproject_old).
  - reflexivity.
  - vm_compute. repeat constructor.
  - vm_compute. repeat constructor.
Defined.

End ArrayTwice.

(* ================================================================= *)
(** ** What the array substitution exchanges *)

Section Exchanges.
Import SyncRequirements.
Import ReFacts SearchFacts SearchComplete SubFacts ArrayFacts RunFacts.
Import RequirementsFacts VersionComplete FirstFacts TemplateFacts AnchorFree.
Import VersionFacts.

Local Open Scope N_scope.

(** The loop of the substitution does what [Exchanged] says. *)
Lemma sub_loop_exchanged label items (s : text) :
  Exchanged label items s (sub_loop (array_pattern label) items [] O s).
Proof.
  remember (length s) as n eqn:Hn. revert s Hn.
  induction n as [n IH] using lt_wf_ind. intros s Hn.
  destruct (Re.search (array_pattern label) s) as [st|] eqn:Hs.
  - assert (Hne : forall ma bef aft st',
               match_here (array_pattern label) ma bef aft = Some st' ->
               group 0 st' <> []).
    { intros ma bef aft st' H. now apply array_match_here in H. }
    destruct (sub_loop_search (array_pattern label) items Hne s [] st Hs)
      as (pre & E & Es).
    rewrite Es.
    rewrite (sub_loop_same (array_pattern label) items
               (array_anchor_free label) (after st) (before st) [] O).
    apply (@ExchangedMatch label items s st pre _ Hs E).
    apply (IH (length (after st))); [|reflexivity].
    destruct (array_search label s st Hs) as [_ Hg].
    rewrite Hn, E, !length_app. destruct (group 0 st); [congruence|].
    simpl. lia.
  - rewrite (sub_loop_no_match (array_pattern label) items s []
               (search_none_all _ s [] Hs)).
    now apply ExchangedNone.
Qed.

Lemma before_match_unique (s pre pre' g a : text) :
  s = pre ++ g ++ a -> s = pre' ++ g ++ a -> pre = pre'.
Proof.
  intros E E'. rewrite E' in E. rewrite !app_assoc in E.
  apply app_inv_tail in E. apply app_inv_tail in E. now symmetry.
Qed.

(** [Exchanged] determines the output. *)
Lemma Exchanged_unique label items (s out out' : text) :
  Exchanged label items s out -> Exchanged label items s out' -> out = out'.
Proof.
  intros H. revert out'.
  induction H as [s Hs|s st pre out Hs E H IH]; intros out' H'.
  - inversion H' as [s' Hs'|s' st' pre' o' Hs' E' H''];
      [reflexivity | congruence].
  - inversion H' as [s' Hs'|s' st' pre' o' Hs' E' H'']; [congruence|].
    subst s' out'. rewrite Hs in Hs'. injection Hs' as <-.
    rewrite (before_match_unique s pre pre' _ _ E E').
    now rewrite (IH o' H'').
Qed.

(** A text that stands outside the matches stands in the output. *)
Lemma Exchanged_outside label items (s out part : text) :
  Exchanged label items s out -> Outside label part s -> occurs part out.
Proof.
  intros H. induction H as [s Hs|s st pre out Hs E H IH]; intros Ho.
  - inversion Ho as [s' _ Hp|s' st' pre' Hs' _ _|s' st' Hs' _];
      [exact Hp | congruence | congruence].
  - inversion Ho as [s' Hs'|s' st' pre' Hs' E' Hp|s' st' Hs' Ho'].
    + congruence.
    + subst s'. rewrite Hs in Hs'. injection Hs' as <-.
      rewrite (before_match_unique s pre pre' _ _ E E').
      destruct Hp as (a & b & ->).
      exists a, (b ++ expand items st ++ out). now rewrite <- !app_assoc.
    + subst s'. rewrite Hs in Hs'. injection Hs' as <-.
      destruct (IH Ho') as (a & b & ->).
      exists (pre ++ expand items st ++ a), b. now rewrite <- !app_assoc.
Qed.

(** *** What the attempt takes for the body *)

Lemma hd_flat_map_first {A B} (k : A -> list B) (l : list A) (z : B) :
  hd_error (flat_map k l) = Some z ->
  exists l1 y l2,
    l = l1 ++ y :: l2
    /\ (forall y', In y' l1 -> k y' = [])
    /\ hd_error (k y) = Some z.
Proof.
  induction l as [|x l IH]; [discriminate|]. simpl.
  destruct (k x) as [|b kb] eqn:E.
  - intros H. destruct (IH H) as (l1 & y & l2 & -> & Hf & Hy).
    exists (x :: l1), y, l2. repeat split; auto.
    intros y' [<-|Hy']; auto.
  - intros H. exists [], x, l. repeat split.
    + intros y' [].
    + rewrite E. exact H.
Qed.

(** The ways of a lazy repetition come shortest first. *)
Lemma lazy_split (aft bef : text) cp (l1 l2 : list mstate) (y : mstate) :
  lazy CsAny bef aft cp = l1 ++ y :: l2 ->
  exists w aft',
    aft = w ++ aft'
    /\ y = MState (rev w ++ bef) aft' cp
    /\ forall w1 c w2, w = w1 ++ c :: w2 ->
         In (MState (rev w1 ++ bef) (c :: w2 ++ aft') cp) l1.
Proof.
  revert bef l1. induction aft as [|c aft IH]; intros bef l1 E.
  - destruct l1 as [|x [|? ?]]; try discriminate E.
    injection E as <- _. exists [], []. repeat split.
    intros w1 c w2 Hw. destruct w1; discriminate Hw.
  - cbn [lazy in_cset] in E. destruct l1 as [|x l1].
    + injection E as <- _. exists [], (c :: aft). repeat split.
      intros w1 c' w2 Hw. destruct w1; discriminate Hw.
    + injection E as <- E. apply IH in E as (w & aft' & -> & -> & Hin).
      exists (c :: w), aft'. split; [reflexivity|]. split.
      * simpl. now rewrite <- app_assoc.
      * intros w1 c' w2 Hw. destruct w1 as [|d w1].
        -- injection Hw as <- <-. now left.
        -- injection Hw as <- Hw. right. simpl. rewrite <- app_assoc.
           now apply Hin.
Qed.

(** Where the text begins with what closes an array, the closing part of
    the pattern has a match. *)
Lemma closes_matches (s bef : text) cp :
  closes s -> rmatch closing (MState bef s cp) <> [].
Proof.
  intros (ws & rest & -> & Hs) H.
  assert (Hm : Matches closing (MState bef ([NL] ++ ws ++ lit "]" ++ rest) cp)
                 (set_cap 3 ([NL] ++ ws ++ lit "]" ++ rest)
                    (MState (rev (lit "]") ++ rev ws ++ rev [NL] ++ bef)
                       rest cp))).
  { unfold closing.
    apply (@MGroup 3 _ (MState bef ([NL] ++ ws ++ lit "]" ++ rest) cp)).
    eapply MSeq; [apply MLit|].
    eapply MSeq; [apply MStar; exact Hs|].
    apply MLit. }
  apply rmatch_iff in Hm. rewrite H in Hm. destruct Hm.
Qed.

Lemma head_matches_inv label (st y : mstate) :
  Matches (RGroup 1 (RLit label +++ RStar CsSpace +++ RLit (lit "=")
                     +++ RStar CsSpace +++ RLit (lit "["))) st y ->
  exists ws1 ws2,
    after st = (label ++ ws1 ++ lit "=" ++ ws2 ++ lit "[") ++ after y
    /\ spaces ws1 = true /\ spaces ws2 = true.
Proof.
  intros H. inv_matches. exists w0, w. cbn [after set_cap].
  repeat split; auto. list_eq.
Qed.

Lemma star_matches_inv (st y : mstate) :
  Matches (RStar CsSpace) st y ->
  exists ws, after st = ws ++ after y /\ spaces ws = true.
Proof. intros H. inv_matches. now exists w. Qed.

Lemma lit_matches_inv (w : text) (st y : mstate) :
  Matches (RLit w) st y -> after st = w ++ after y.
Proof. intros H. inv_matches. reflexivity. Qed.

Lemma closing_matches_inv (st y : mstate) :
  Matches closing st y ->
  exists ws4,
    after st = [NL] ++ ws4 ++ lit "]" ++ after y /\ spaces ws4 = true.
Proof.
  unfold closing. intros H. inv_matches. exists w. cbn [after set_cap].
  split; [list_eq | assumption].
Qed.

(** What an attempt of the pattern of an array takes: the head, white
    space, a line feed, a body and what closes the array, where the body
    is the shortest that is followed by what closes an array. *)
Lemma attempt_shortest_body label (bef aft : text) st :
  match_here (array_pattern label) false bef aft = Some st ->
  exists ws1 ws2 ws3 body ws4,
    aft = ((label ++ ws1 ++ lit "=" ++ ws2 ++ lit "[")
           ++ ws3 ++ [NL] ++ body ++ [NL] ++ ws4 ++ lit "]") ++ after st
    /\ spaces ws1 = true /\ spaces ws2 = true
    /\ spaces ws3 = true /\ spaces ws4 = true
    /\ forall b1 b2, body = b1 ++ b2 -> b2 <> [] ->
         ~ closes (b2 ++ [NL] ++ ws4 ++ lit "]" ++ after st).
Proof.
  unfold match_here. cbn [andb negb]. rewrite filter_all.
  intros H.
  destruct (rmatch (array_pattern label) (MState bef aft [])) as [|st' l] eqn:E;
    [discriminate|].
  cbn [List.map hd_error] in H. injection H as <-.
  assert (H0 : hd_error (rmatch (array_pattern label) (MState bef aft []))
               = Some st') by now rewrite E.
  clear E l.
  change (rmatch (array_pattern label) (MState bef aft []))
    with (flat_map (rmatch tail_pattern)
            (rmatch (RGroup 1 (RLit label +++ RStar CsSpace +++ RLit (lit "=")
                               +++ RStar CsSpace +++ RLit (lit "[")))
               (MState bef aft []))) in H0.
  apply hd_flat_map_first in H0 as (m1 & y1 & m2 & E1 & _ & H1).
  assert (Hy1 : Matches (RGroup 1 (RLit label +++ RStar CsSpace
                                   +++ RLit (lit "=") +++ RStar CsSpace
                                   +++ RLit (lit "[")))
                  (MState bef aft []) y1).
  { apply rmatch_iff. rewrite E1. apply in_or_app. right. now left. }
  clear E1 m1 m2.
  unfold tail_pattern in H1.
  change (rmatch (RStar CsSpace +++ RLit [NL] +++ RGroup 2 (RLazy CsAny)
                  +++ closing) y1)
    with (flat_map (rmatch (RLit [NL] +++ RGroup 2 (RLazy CsAny) +++ closing))
            (rmatch (RStar CsSpace) y1)) in H1.
  apply hd_flat_map_first in H1 as (m1 & y2 & m2 & E2 & _ & H2).
  assert (Hy2 : Matches (RStar CsSpace) y1 y2).
  { apply rmatch_iff. rewrite E2. apply in_or_app. right. now left. }
  clear E2 m1 m2.
  change (rmatch (RLit [NL] +++ RGroup 2 (RLazy CsAny) +++ closing) y2)
    with (flat_map (rmatch (RGroup 2 (RLazy CsAny) +++ closing))
            (rmatch (RLit [NL]) y2)) in H2.
  apply hd_flat_map_first in H2 as (m1 & y3 & m2 & E3 & _ & H3).
  assert (Hy3 : Matches (RLit [NL]) y2 y3).
  { apply rmatch_iff. rewrite E3. apply in_or_app. right. now left. }
  clear E3 m1 m2.
  change (rmatch (RGroup 2 (RLazy CsAny) +++ closing) y3)
    with (flat_map (rmatch closing)
            (List.map (set_cap 2 (after y3))
               (lazy CsAny (before y3) (after y3) (caps y3)))) in H3.
  apply hd_flat_map_first in H3 as (m1 & y4 & m2 & E4 & Hfail & H4).
  apply map_eq_app in E4 as (l1 & l2' & El & <- & E4).
  apply map_eq_cons in E4 as (x & l2 & -> & <- & _).
  apply lazy_split in El as (body & aft' & Ea & -> & Hin).
  assert (Hy4 : Matches closing
                  (set_cap 2 (after y3)
                     (MState (rev body ++ before y3) aft' (caps y3))) st').
  { apply rmatch_iff. now apply hd_error_In. }
  apply head_matches_inv in Hy1 as (ws1 & ws2 & A1 & S1 & S2).
  apply star_matches_inv in Hy2 as (ws3 & A2 & S3).
  apply lit_matches_inv in Hy3 as A3.
  apply closing_matches_inv in Hy4 as (ws4 & A4 & S4).
  cbn [after set_cap] in A1, A4.
  exists ws1, ws2, ws3, body, ws4.
  split; [|repeat split; auto].
  - cbn [after set_cap]. rewrite A1, A2, A3, Ea, A4. list_eq.
  - intros b1 b2 Eb Hb2 Hc. cbn [after set_cap] in Hc.
    destruct b2 as [|c b2]; [contradiction|].
    specialize (Hin b1 c b2 Eb).
    apply (in_map (set_cap 2 (after y3))) in Hin. apply Hfail in Hin.
    revert Hin. unfold set_cap. cbn [before after caps].
    apply closes_matches. rewrite A4.
    replace ((c :: b2) ++ [NL] ++ ws4 ++ lit "]" ++ after st')
      with (c :: b2 ++ [NL] ++ ws4 ++ lit "]" ++ after st') in Hc
      by reflexivity.
    exact Hc.
Qed.

(** *** The first match *)

(** What the search returns is matched in the sense of [matched]. *)
Lemma search_matched label (s : text) st :
  Re.search (array_pattern label) s = Some st ->
  exists pre,
    s = pre ++ group 0 st ++ after st
    /\ matched label pre (group 0 st) (after st).
Proof.
  intros Hs. unfold Re.search in Hs.
  apply search_from_first in Hs as (pre & aft0 & Es & Hm & Hfail).
  destruct (match_here_span _ _ _ _ _ Hm) as [Ea _].
  exists pre. split; [now rewrite Es, Ea|].
  split.
  - intros a b Ep Hb (head & region & post & E & Hreg).
    destruct (array_region_matches label head region (rev a ++ []) post Hreg)
      as [st0 H0].
    apply match_here_complete in H0 as [st1 H1].
    rewrite <- E, <- Ea, (Hfail a b Ep Hb) in H1. discriminate.
  - destruct (attempt_shortest_body label _ _ st Hm)
      as (ws1 & ws2 & ws3 & body & ws4 & E & S1 & S2 & S3 & S4 & Hmin).
    exists ws1, ws2, ws3, body, ws4. repeat split; auto.
    rewrite Ea in E at 1. now apply app_inv_tail in E.
Qed.

Lemma Outside_occurs label (part s : text) :
  Outside label part s -> occurs part s.
Proof.
  induction 1 as [s _ Hp|s st pre Hs E Hp|s st Hs _ IH].
  - exact Hp.
  - destruct Hp as (a & b & ->). exists a, (b ++ group 0 st ++ after st).
    rewrite E. now rewrite <- !app_assoc.
  - destruct (search_matched label s st Hs) as (pre & E & _).
    destruct IH as (a & b & Ea). exists (pre ++ group 0 st ++ a), b.
    rewrite E, Ea. now rewrite <- !app_assoc.
Qed.

(** The step for an array, said with [Exchanged]. *)
Lemma update_array_exchanged label (deps : list text) (content out : text) :
  update_array label deps content = Some out ->
  (deps = [] /\ out = content)
  \/ (deps <> []
      /\ exists items,
           array_items label deps = Some items
           /\ Exchanged label items content out).
Proof.
  unfold update_array. destruct deps as [|d deps].
  - intros [= <-]. now left.
  - cbn [is_empty negb]. unfold Re.sub. fold (array_items label (d :: deps)).
    destruct (array_items label (d :: deps)) as [items|]; [|discriminate].
    intros [= <-]. right. split; [discriminate|].
    exists items. split; [reflexivity | apply sub_loop_exchanged].
Qed.

Lemma update_array_outside label (deps : list text) (content out part : text) :
  update_array label deps content = Some out ->
  Outside label part content -> occurs part out.
Proof.
  intros H Ho.
  apply update_array_exchanged in H as [[_ ->]|(_ & items & _ & He)].
  - now apply (Outside_occurs label).
  - now apply (Exchanged_outside label items content).
Qed.

(** C8. The substitution for an array alters no text outside what its
    pattern matches.  The text it computes is the document with the
    first match of the pattern exchanged for the expansion of the
    template at that match, the text before the match as it was, and the
    text behind the match treated in the same way; a document without a
    match is returned as it is, and the computed text is the only one of
    this kind.  What the pattern matches first is a region of the array
    before which no region of the array begins and whose body ends at the
    first line feed, white space and closing bracket; without a backslash
    in the entries it is exchanged for its head, a line feed, the
    formatted entries, a line feed and the closing bracket.  So a text
    that stands outside the matches stands in the output.  The two
    substitutions of [sync_to_pyproject] follow one another, the second
    on the output of the first. *)
Theorem substitution_frame :
  (forall label deps content out,
     update_array label deps content = Some out ->
     (deps = [] /\ out = content)
     \/ (deps <> []
         /\ exists items,
              array_items label deps = Some items
              /\ Exchanged label items content out))
  /\ (forall label items s out out',
        Exchanged label items s out -> Exchanged label items s out' ->
        out = out')
  /\ (forall label s st,
        Re.search (array_pattern label) s = Some st ->
        exists pre,
          s = pre ++ group 0 st ++ after st
          /\ matched label pre (group 0 st) (after st))
  /\ (forall label s,
        Re.search (array_pattern label) s = None <-> no_array label s)
  /\ (forall label deps items st,
        array_items label deps = Some items ->
        has_backslash (format_dependencies deps 4) = false ->
        expand items st =
          group 1 st ++ [NL] ++ format_dependencies deps 4 ++ [NL; RBRACKET])
  /\ (forall label deps content out part,
        update_array label deps content = Some out ->
        Outside label part content -> occurs part out)
  /\ (forall content deps dev_deps out,
        synced_content content deps dev_deps = Some out ->
        exists mid,
          update_array (lit "dependencies") deps content = Some mid
          /\ update_array (lit "test") dev_deps mid = Some out).
Proof.
  split; [exact update_array_exchanged|].
  split; [exact Exchanged_unique|].
  split; [exact search_matched|].
  split; [exact search_none_no_array|].
  split.
  { intros label deps items st Hi Hb.
    rewrite (array_items_plain label deps Hb) in Hi. injection Hi as <-.
    cbn [expand]. now rewrite expand_chars. }
  split; [exact update_array_outside|].
  intros content deps dev_deps out. unfold synced_content.
  destruct (update_array (lit "dependencies") deps content) as [mid|];
    [|discriminate].
  intros H. now exists mid.
Qed.

(** C8 on the example of the specification with a [classifiers] array
    behind the dependencies: the array of the dependencies is exchanged
    and the other array stands in the output. *)
Lemma substitution_frame_witness :
  update_array (lit "dependencies") [lit "new==2"]
    MoreExamples.pyproject_classifiers
    = Some MoreExamples.pyproject_classifiers_synced
  /\ (exists items,
        array_items (lit "dependencies") [lit "new==2"] = Some items
        /\ Exchanged (lit "dependencies") items
             MoreExamples.pyproject_classifiers
             MoreExamples.pyproject_classifiers_synced)
  /\ occurs MoreExamples.classifiers_array
       MoreExamples.pyproject_classifiers_synced.
Proof.
  assert (H : update_array (lit "dependencies") [lit "new==2"]
                MoreExamples.pyproject_classifiers
              = Some MoreExamples.pyproject_classifiers_synced)
    by (vm_compute; reflexivity).
  split; [exact H|]. split.
  - destruct (proj1 substitution_frame _ _ _ _ H) as [[E _]|[_ He]];
      [discriminate E | exact He].
  - apply (proj1 (proj2 (proj2 (proj2 (proj2 (proj2 substitution_frame)))))
             (lit "dependencies") [lit "new==2"]
             MoreExamples.pyproject_classifiers _ _ H).
    eapply OutsideBehind; [vm_compute; reflexivity|].
    apply OutsideNone; [vm_compute; reflexivity|].
    exists [NL], []. vm_compute. reflexivity.
Defined.




End Exchanges.

(* ================================================================= *)
(** ** What the version synchronizer exchanges *)

Section Rewriting.
Import SyncVersion.
Import ReFacts SearchFacts SearchComplete SubFacts ArrayFacts RunFacts.
Import VersionFacts VersionComplete FirstFacts TemplateFacts InitFacts.

Local Open Scope N_scope.

Lemma at_bol_line_start_iff (bef aft : text) cp :
  at_bol (MState bef aft cp) = true <-> at_line_start bef.
Proof.
  unfold at_bol, at_line_start. cbn [before].
  destruct bef as [|c bef]; [tauto|]. apply N.eqb_eq.
Qed.

Lemma at_eol_line_end_iff (bef aft : text) cp :
  at_eol (MState bef aft cp) = true <-> at_line_end aft.
Proof.
  unfold at_eol, at_line_end. cbn [after].
  destruct aft as [|c aft]; [tauto|]. apply N.eqb_eq.
Qed.

(** Where an assignment begins, the attempt takes it, on the first path
    the matcher tries. *)
Lemma assignment_matches (bef s region rest : text) :
  assigns bef s region rest ->
  exists st,
    match_here init_pattern false bef s = Some st
    /\ group 0 st = region /\ after st = rest
    /\ before st = rev region ++ bef.
Proof.
  intros (Hbol & -> & (ws1 & ws2 & q & trailing & -> & H1 & H2 & [Hne Hq] & Ht)
          & Heol).
  assert (Hr : stops CsDot rest).
  { destruct rest as [|c rest]; [exact I|]. simpl in Heol. subst c.
    reflexivity. }
  assert (Hm : exists st0,
             hd_error (rmatch init_pattern
                         (MState bef
                            ((lit "__version__" ++ ws1 ++ lit "=" ++ ws2
                              ++ [DQ] ++ q ++ [DQ] ++ trailing) ++ rest) []))
             = Some st0 /\ after st0 = rest).
  { rewrite <- !app_assoc. unfold init_pattern. eexists. split.
    - eapply first_seq;
        [apply first_bol; now apply at_bol_line_start_iff|].
      eapply first_seq; [apply first_lit|].
      eapply first_seq; [apply first_star; [exact H1 | reflexivity]|].
      eapply first_seq; [apply first_lit|].
      eapply first_seq; [apply first_star; [exact H2 | reflexivity]|].
      eapply first_seq; [apply first_lit|].
      eapply first_seq;
        [apply first_plus;
         [exact Hne | now apply not_in_all_in | reflexivity]|].
      eapply first_seq; [apply first_lit|].
      eapply first_seq;
        [apply first_star; [now apply (not_in_all_in NL) | exact Hr]|].
      apply first_eol. now apply at_eol_line_end_iff.
    - reflexivity. }
  destruct Hm as (st0 & Hm & Ha).
  apply match_here_first in Hm.
  destruct (match_here_span _ _ _ _ _ Hm) as [E B].
  eexists. split; [exact Hm|].
  simpl after in *. rewrite Ha in E.
  apply app_inv_tail in E.
  repeat split; [now rewrite <- E | exact Ha | now rewrite B, <- E].
Qed.

(** What the attempt takes is an assignment. *)
Lemma match_assigns (bef s : text) st :
  match_here init_pattern false bef s = Some st ->
  assigns bef s (group 0 st) (after st)
  /\ group 0 st <> [] /\ before st = rev (group 0 st) ++ bef.
Proof.
  intros H.
  destruct (init_match_here _ _ _ _ H)
    as ((ws1 & ws2 & q & tr & E & S1 & S2 & Hq & Ht)
        & Hbol & Heol & Hne & Ha & Hb).
  repeat split; auto.
  - now apply at_bol_line_start_iff in Hbol.
  - exists ws1, ws2, q, tr. repeat split; auto; apply Hq.
  - destruct st as [b a c]. now apply at_eol_line_end_iff in Heol.
Qed.

Section OneVersion.
Variable v : text.
Hypothesis Hv : has_backslash v = false.

Let items := List.map TChar (init_replacement v).

(** The loop of the substitution does what [Rewritten] says. *)
Lemma sub_loop_rewritten (s : text) :
  forall bef, Rewritten v bef s (sub_loop init_pattern items bef O s).
Proof.
  remember (length s) as n eqn:Hn. revert s Hn.
  induction n as [n IH] using lt_wf_ind. intros s Hn bef.
  destruct (match_here init_pattern false bef s) as [st|] eqn:E.
  - destruct (match_assigns _ _ _ E) as (Ha & Hne & Hb).
    rewrite (sub_loop_match _ items _ _ _ E Hne).
    unfold items at 1. rewrite expand_chars, Hb.
    apply (@RewrittenAssignment v bef s (group 0 st) (after st) _ Ha).
    apply (IH (length (after st))); [|reflexivity].
    destruct Ha as (_ & Es & _). rewrite Hn, Es, length_app.
    destruct (group 0 st); [congruence | simpl; lia].
  - destruct s as [|c s]; simpl; rewrite E; [constructor|].
    apply RewrittenKept.
    + intros region rest Ha.
      apply assignment_matches in Ha as (st & Hm & _). congruence.
    + apply (IH (length s)); [subst n; simpl; lia | reflexivity].
Qed.

(** What [Rewritten] relates to a text is what the loop gives. *)
Lemma rewritten_sub_loop (bef s out : text) :
  Rewritten v bef s out -> out = sub_loop init_pattern items bef O s.
Proof.
  induction 1 as [bef|bef s region rest out Ha H IH|bef c s out Hn H IH].
  - simpl.
    destruct (match_here init_pattern false bef []) as [st|] eqn:E;
      [|reflexivity].
    destruct (match_assigns _ _ _ E) as ((_ & Es & _) & Hne & _).
    symmetry in Es. apply app_eq_nil in Es as [Es _]. contradiction.
  - destruct (assignment_matches _ _ _ _ Ha) as (st & Hm & G0 & Hr & Hb).
    assert (Hne : group 0 st <> []).
    { now destruct (match_assigns _ _ _ Hm) as (_ & Hne & _). }
    rewrite (sub_loop_match _ items _ _ _ Hm Hne).
    unfold items at 1. rewrite expand_chars, Hb, Hr. now rewrite IH.
  - assert (E : match_here init_pattern false bef (c :: s) = None).
    { destruct (match_here init_pattern false bef (c :: s)) as [st|] eqn:E;
        [|reflexivity].
      destruct (match_assigns _ _ _ E) as (Ha & _). now apply Hn in Ha. }
    rewrite (sub_loop_none _ items _ _ _ E). now rewrite IH.
Qed.

Lemma sub_rewritten_iff (content out : text) :
  Re.sub init_pattern (init_replacement v) content = Some out
  <-> Rewritten v [] content out.
Proof.
  unfold Re.sub. rewrite (compile_plain _ _ (init_replacement_plain v Hv)).
  fold items. split.
  - intros [= <-]. apply sub_loop_rewritten.
  - intros H. now rewrite (rewritten_sub_loop _ _ _ H).
Qed.

End OneVersion.

(** *** Lines *)

Lemma version_line_assignment (l : text) :
  version_line l -> ~ In NL l -> assignment l.
Proof.
  intros (ws1 & ws2 & q & tr & -> & S1 & S2 & Hq) Hn.
  exists ws1, ws2, q, tr. repeat split; auto; try apply Hq.
  intros Hi. apply Hn. repeat (apply in_or_app; right). exact Hi.
Qed.

(** On an idle line no assignment begins, whatever follows the line. *)
Lemma idle_line_idle (l rest bef region rest' : text) :
  ~ In NL l -> idle_line l -> at_line_end rest ->
  ~ assigns bef (l ++ rest) region rest'.
Proof.
  intros Hn Hi Hr (_ & E & (ws1 & ws2 & q & tr & -> & S1 & S2 & [Hne Hq] & _)
                  & _).
  rewrite <- !app_assoc in E.
  destruct Hi as [Hp|[(ws & c & t & -> & Sw & Hc & Hc')
                     |[(w1 & w2 & c & t & -> & T1 & T2 & Hc & Hc')
                      |(w1 & w2 & t & -> & T1 & T2)]]].
  - assert (Hs : startswith (lit "__version__") (l ++ rest) = false).
    { apply startswith_line; [apply word_no_nl | exact Hp |].
      destruct rest as [|x rest]; [exact I|]. simpl in Hr. subst x.
      reflexivity. }
    rewrite E, startswith_app in Hs. discriminate.
  - rewrite <- !app_assoc in E. apply app_inv_head in E.
    cbn [app] in E.
    change (lit "=" ++ ws2 ++ [DQ] ++ q ++ [DQ] ++ tr ++ rest')
      with (61 :: ws2 ++ [DQ] ++ q ++ [DQ] ++ tr ++ rest') in E.
    apply spaces_split in E as (_ & E & _); auto.
  - rewrite <- !app_assoc in E. apply app_inv_head in E.
    change (lit "=" ++ w2 ++ (c :: t) ++ rest)
      with (61 :: w2 ++ (c :: t) ++ rest) in E.
    change (lit "=" ++ ws2 ++ [DQ] ++ q ++ [DQ] ++ tr ++ rest')
      with (61 :: ws2 ++ [DQ] ++ q ++ [DQ] ++ tr ++ rest') in E.
    apply spaces_split in E as (_ & _ & E); auto.
    cbn [app] in E. apply spaces_split in E as (_ & E & _); auto.
  - rewrite <- !app_assoc in E. apply app_inv_head in E.
    change (lit "=" ++ w2 ++ [DQ; DQ] ++ t ++ rest)
      with (61 :: w2 ++ [DQ; DQ] ++ t ++ rest) in E.
    change (lit "=" ++ ws2 ++ [DQ] ++ q ++ [DQ] ++ tr ++ rest')
      with (61 :: ws2 ++ [DQ] ++ q ++ [DQ] ++ tr ++ rest') in E.
    apply spaces_split in E as (_ & _ & E); auto.
    cbn [app] in E. apply spaces_split in E as (_ & _ & E); auto.
    destruct q as [|x q]; [contradiction|]. injection E as <- _.
    apply Hq. now left.
Qed.

(** A run of characters without a line feed is kept when no assignment
    begins at its start. *)
Lemma kept_run (v l rest out : text) :
  ~ In NL l ->
  forall bef,
    (forall region rest', ~ assigns bef (l ++ rest) region rest') ->
    Rewritten v (rev l ++ bef) rest out ->
    Rewritten v bef (l ++ rest) (l ++ out).
Proof.
  induction l as [|c l IH]; intros Hn bef Hno H; [exact H|].
  cbn [app]. apply RewrittenKept; [exact Hno|].
  apply IH.
  - intros Hi. apply Hn. now right.
  - intros region rest' (Hs & _). simpl in Hs. subst c. apply Hn. now left.
  - simpl in H. now rewrite <- app_assoc in H.
Qed.

Lemma no_assignment_at_nl (bef s region rest : text) :
  ~ assigns bef (NL :: s) region rest.
Proof.
  intros (_ & E & (ws1 & ws2 & q & tr & -> & _) & _). discriminate E.
Qed.

Lemma lines_rewritten (v s out : text) :
  Lines v s out -> forall bef, at_line_start bef -> Rewritten v bef s out.
Proof.
  induction 1 as [l Hn Hi|l Hn Hl|l rest out Hn Hi H IH|l rest out Hn Hl H IH];
    intros bef Hb.
  - rewrite <- (app_nil_r l). apply kept_run; [exact Hn| |constructor].
    intros region rest'. now apply idle_line_idle.
  - rewrite <- (app_nil_r (init_replacement v)).
    apply (@RewrittenAssignment v bef l l []); [|constructor].
    repeat split; [exact Hb | now rewrite app_nil_r |
                   now apply version_line_assignment].
  - apply kept_run; [exact Hn| |].
    + intros region rest'. now apply idle_line_idle.
    + apply RewrittenKept; [intros region rest'; apply no_assignment_at_nl|].
      now apply IH.
  - apply (@RewrittenAssignment v bef (l ++ NL :: rest) l (NL :: rest)).
    + repeat split; [exact Hb | now apply version_line_assignment].
    + apply RewrittenKept; [intros region rest'; apply no_assignment_at_nl|].
      now apply IH.
Qed.

(** C7, as the code has it.  Let the version have no backslash.  On
    every initializer the substitution computes the text that comes of
    reading the document from its start and exchanging each assignment
    of the version that begins where the reading stands, at the start of
    a line, for the canonical line: the word [__version__], white space,
    an equals sign, white space, a string in double quotes that is not
    empty, and the rest of the line the closing quote is on.  Every other
    character is kept.  So in a document of lines each version line is
    exchanged whole, whatever stands behind its string, and each line on
    which no assignment can begin is kept, a line with an empty string or
    with single quotes for one, without error; and a document in which no
    assignment begins is computed as it is.  The run returns [True] and
    writes the computed text exactly when that differs from the text
    read, and returns [False] and writes nothing otherwise. *)
Theorem version_lines_rewritten (v : text) :
  has_backslash v = false ->
  (forall content out,
     Re.sub init_pattern (init_replacement v) content = Some out
     <-> Rewritten v [] content out)
  /\ (forall content, exists out, Rewritten v [] content out)
  /\ (forall content out, Lines v content out -> Rewritten v [] content out)
  /\ (forall content,
        (forall a b region rest,
           content = a ++ b -> ~ assigns (rev a) b region rest) ->
        Rewritten v [] content content)
  /\ (forall w raw iraw out,
        files w PyprojectToml = Some raw ->
        extract_version (universal_newlines raw) = Some v ->
        files w InitPy = Some iraw ->
        Rewritten v [] (universal_newlines iraw) out ->
        sync_version PyprojectToml InitPy w =
          if negb (text_eqb out (universal_newlines iraw))
          then (Ok true,
                after_write InitPy out
                  (after_read InitPy (after_read PyprojectToml w)))
          else (Ok false, after_read InitPy (after_read PyprojectToml w))).
Proof.
  intros Hv.
  split; [intros content out; now apply sub_rewritten_iff|].
  split; [intros content; eexists; apply (sub_loop_rewritten v content [])|].
  split; [intros content out H; now apply (lines_rewritten v content out H)|].
  split.
  - intros content Hno.
    pose proof (sub_loop_rewritten v content []) as H.
    rewrite (sub_loop_no_match init_pattern _ content []) in H; [exact H|].
    intros a b E.
    destruct (match_here init_pattern false (rev a ++ []) b) as [st|] eqn:Hm;
      [|reflexivity].
    destruct (match_assigns _ _ _ Hm) as (Ha & _).
    rewrite app_nil_r in Ha. now apply (Hno a b _ _ E) in Ha.
  - intros w raw iraw out Hp He Hi Hr.
    apply (sub_rewritten_iff v Hv) in Hr.
    rewrite (sync_version_run _ InitPy _ _ Hp), truthy_extract, He, Hi.
    cbn zeta. now rewrite Hr.
Qed.

(** The amended C7 on a line with an empty string before a version line,
    on a line with single quotes, and on the example of the
    specification. *)
Lemma version_lines_rewritten_witness :
  Re.sub init_pattern (init_replacement (lit "1.2.3"))
    (lit "__version__ = " ++ [DQ; DQ; NL]
     ++ lit "__version__ = " ++ [DQ] ++ lit "1.0" ++ [DQ])
  = Some (lit "__version__ = " ++ [DQ; DQ; NL]
          ++ init_replacement (lit "1.2.3"))
  /\ Re.sub init_pattern (init_replacement (lit "1.2.3"))
       (lit "__version__ = '1.0'")
     = Some (lit "__version__ = '1.0'")
  /\ sync_version PyprojectToml InitPy Examples.example_world =
     (Ok true,
      after_write InitPy Examples.init_new
        (after_read InitPy (after_read PyprojectToml Examples.example_world))).
Proof.
  assert (Hv : has_backslash (lit "1.2.3") = false) by reflexivity.
  destruct (version_lines_rewritten (lit "1.2.3") Hv)
    as (Hiff & _ & Hlines & _ & Hrun).
  assert (Hempty : idle_line (lit "__version__ = " ++ [DQ; DQ])).
  { right. right. right. exists [SP], [SP], []. repeat split. }
  assert (Hsingle : idle_line (lit "__version__ = '1.0'")).
  { right. right. left. exists [SP], [SP], 39, (lit "1.0'").
    repeat split; discriminate. }
  assert (Hone : version_line
                   (lit "__version__ = " ++ [DQ] ++ lit "1.0" ++ [DQ])).
  { exists [SP], [SP], (lit "1.0"), []. repeat split; try discriminate.
    vm_compute. intuition discriminate. }
  assert (Hold : version_line
                   (lit "__version__ = " ++ [DQ] ++ lit "1.0.0" ++ [DQ]
                    ++ lit "  # old comment")).
  { exists [SP], [SP], (lit "1.0.0"), (lit "  # old comment").
    repeat split; try discriminate. vm_compute. intuition discriminate. }
  split; [|split].
  - apply Hiff.
    apply (Hlines
             ((lit "__version__ = " ++ [DQ; DQ]) ++ NL ::
              (lit "__version__ = " ++ [DQ] ++ lit "1.0" ++ [DQ]))
             ((lit "__version__ = " ++ [DQ; DQ]) ++ NL ::
              init_replacement (lit "1.2.3"))).
    apply LinesIdle; [vm_compute; intuition discriminate | exact Hempty |].
    apply LinesLastVersion; [vm_compute; intuition discriminate | exact Hone].
  - apply Hiff. apply Hlines.
    apply LinesLastIdle; [vm_compute; intuition discriminate | exact Hsingle].
  - rewrite (Hrun Examples.example_world Examples.pyproject_old
               Examples.init_old Examples.init_new eq_refl eq_refl eq_refl);
      [reflexivity|].
    apply (Hlines
             ((lit "__version__ = " ++ [DQ] ++ lit "1.0.0" ++ [DQ]
               ++ lit "  # old comment") ++ NL :: [])
             (init_replacement (lit "1.2.3") ++ NL :: [])).
    apply LinesVersion; [vm_compute; intuition discriminate | exact Hold |].
    apply LinesLastIdle; [intros [] | now left].
Defined.

End Rewriting.
